(** * distributed: locks, peer data exchange and graph payload packing

    A shallow embedding of [distributed/lock.py] and
    [distributed/utils_comm.py], with the properties stated about them.

    Python dictionaries and sets whose iteration order is irrelevant are
    finite maps and finite sets; dictionaries whose insertion order matters
    are association lists.  Exceptions are an explicit error result.  The
    single-threaded event loop of the scheduler is a labelled step function:
    every label runs one handler or one coroutine from a suspension point to
    the next one. *)

From Stdlib Require Import QArith.QArith_base.
From stdpp Require Import gmap strings list fin_maps.

(** ** Exceptions and fallible results *)

Inductive exn : Set :=
  | ValueError
  | KeyError
  | IndexError
  | TypeError
  | AssertionError
  | ZeroDivisionError
  | RecursionError.

Global Instance exn_eq_dec : EqDecision exn.
Proof. solve_decision. Defined.

Inductive result (A : Type) : Type :=
  | Ok (a : A)
  | Raise (e : exn).
Global Arguments Ok {A} a.
Global Arguments Raise {A} e.

Global Instance result_ret : MRet result := λ A a, Ok a.

Global Instance result_bind : MBind result := λ A B k r,
  match r with
  | Ok a => k a
  | Raise e => Raise e
  end.

(** ** lock.py *)

Module LockExt.

(** A lock name is a string or a tuple of strings; a tuple arrives from the
    wire as a list, which [acquire] and [release] turn back into a tuple. *)
Inductive lock_name : Set :=
  | NameStr (s : string)
  | NameTuple (l : list string)
  | NameList (l : list string).

Global Instance lock_name_eq_dec : EqDecision lock_name.
Proof. solve_decision. Defined.

Definition lock_name_enc (n : lock_name) : string + (list string + list string) :=
  match n with
  | NameStr s => inl s
  | NameTuple l => inr (inl l)
  | NameList l => inr (inr l)
  end.

Definition lock_name_dec (x : string + (list string + list string)) : lock_name :=
  match x with
  | inl s => NameStr s
  | inr (inl l) => NameTuple l
  | inr (inr l) => NameList l
  end.

Global Instance lock_name_countable : Countable lock_name.
Proof.
  apply (inj_countable' lock_name_enc lock_name_dec).
  by intros [].
Defined.

(** [if isinstance(name, list): name = tuple(name)] *)
Definition as_key (name : lock_name) : lock_name :=
  match name with
  | NameList l => NameTuple l
  | _ => name
  end.

(** A requester id: [None] (the handlers' default) or a uuid string. *)
Abbreviation ident := (option string).

(** A [tornado.locks.Event] object, known by its identity. *)
Abbreviation event := nat.

(** A coroutine of [acquire] suspended at [await future]. *)
Record waiter : Set := Waiter {
  w_name : lock_name;
  w_id : ident;
  w_timeout : option nat
}.

(** The extension's state, and next to it the part of the event loop the
    extension talks to: the coroutines waiting on an event, the events whose
    flag is set, the callbacks handed to [loop.add_callback] and the next
    fresh object identity. *)
Record sched : Type := Sched {
  ids : gmap lock_name ident;
  events : gmap lock_name (list event);
  waiting : gmap event waiter;
  flags : gset event;
  callbacks : list event;
  fresh : event
}.

Definition init : sched :=
  {| ids := ∅; events := ∅; waiting := ∅; flags := ∅;
     callbacks := []; fresh := 0 |}.

(** What a handler or a resumed coroutine does with its caller. *)
Inductive reply : Set :=
  | Return (b : bool)
  | Returned
  | Raised (e : exn)
  | Suspended (ev : event).

(** [self.events[name]] on a [defaultdict(deque)]. *)
Definition queue (st : sched) (name : lock_name) : list event :=
  default [] (events st !! name).

(** [if result: assert name not in self.ids; self.ids[name] = id;
    return result] with [result = True]. *)
Definition grant (name : lock_name) (id : ident) (st : sched) : sched * reply :=
  match ids st !! name with
  | Some _ => (st, Raised AssertionError)
  | None =>
      ({| ids := <[name := id]> (ids st); events := events st;
          waiting := waiting st; flags := flags st;
          callbacks := callbacks st; fresh := fresh st |}, Return true)
  end.

(** The head of [while name in self.ids]: when the name is held, a new event
    is appended to the name's queue and the coroutine suspends on it; when it
    is free the loop is left with [result = True]. *)
Definition acquire_loop (name : lock_name) (id : ident) (timeout : option nat)
    (st : sched) : sched * reply :=
  match ids st !! name with
  | Some _ =>
      let ev := fresh st in
      ({| ids := ids st;
          events := <[name := queue st name ++ [ev]]> (events st);
          waiting := <[ev := Waiter name id timeout]> (waiting st);
          flags := flags st;
          callbacks := callbacks st;
          fresh := S ev |}, Suspended ev)
  | None => grant name id st
  end.

(** [acquire] from its entry to its first suspension or its return. *)
Definition acquire (name : lock_name) (id : ident) (timeout : option nat)
    (st : sched) : sched * reply :=
  let name := as_key name in
  match ids st !! name with
  | None => grant name id st
  | Some _ => acquire_loop name id timeout st
  end.

(** The [finally] clause: [event2 = self.events[name].popleft()] and
    [assert event is event2].  The pop has happened when the assertion
    fails. *)
Definition pop_own (name : lock_name) (ev : event) (st : sched)
    : sched * result unit :=
  match queue st name with
  | [] =>
      ({| ids := ids st; events := <[name := []]> (events st);
          waiting := waiting st; flags := flags st;
          callbacks := callbacks st; fresh := fresh st |}, Raise IndexError)
  | ev2 :: rest =>
      ({| ids := ids st; events := <[name := rest]> (events st);
          waiting := waiting st; flags := flags st;
          callbacks := callbacks st; fresh := fresh st |},
       if decide (ev = ev2) then Ok tt else Raise AssertionError)
  end.

Definition forget (ev : event) (st : sched) : sched :=
  {| ids := ids st; events := events st;
     waiting := delete ev (waiting st); flags := flags st;
     callbacks := callbacks st; fresh := fresh st |}.

(** The coroutine waiting on [ev] resumes because the event was set:
    [else: result = True], the [finally] clause, then the loop head again. *)
Definition resume_set (ev : event) (w : waiter) (st : sched) : sched * reply :=
  let '(st1, r) := pop_own (w_name w) ev (forget ev st) in
  match r with
  | Raise e => (st1, Raised e)
  | Ok _ => acquire_loop (w_name w) (w_id w) (w_timeout w) st1
  end.

(** The coroutine waiting on [ev] resumes with [gen.TimeoutError]:
    [result = False; break], the [finally] clause, [return result]. *)
Definition resume_timeout (ev : event) (w : waiter) (st : sched) : sched * reply :=
  let '(st1, r) := pop_own (w_name w) ev (forget ev st) in
  match r with
  | Raise e => (st1, Raised e)
  | Ok _ => (st1, Return false)
  end.

(** [self.ids.get(name)] *)
Definition holder (st : sched) (name : lock_name) : ident :=
  default None (ids st !! name).

Definition release (name : lock_name) (id : ident) (st : sched) : sched * reply :=
  let name := as_key name in
  if decide (holder st name = id) then
    match ids st !! name with
    | None => (st, Raised KeyError)
    | Some _ =>
        match queue st name with
        | ev :: _ =>
            ({| ids := delete name (ids st); events := events st;
                waiting := waiting st; flags := flags st;
                callbacks := callbacks st ++ [ev]; fresh := fresh st |}, Returned)
        | [] =>
            ({| ids := delete name (ids st); events := delete name (events st);
                waiting := waiting st; flags := flags st;
                callbacks := callbacks st; fresh := fresh st |}, Returned)
        end
    end
  else (st, Raised ValueError).

(** One turn of the event loop, as far as the extension sees it. *)
Inductive label : Set :=
  | CallAcquire (name : lock_name) (id : ident) (timeout : option nat)
  | CallRelease (name : lock_name) (id : ident)
  | RunCallback
  | Wake (ev : event)
  | Timeout (ev : event).

(** [step l st] is [None] when the loop cannot take the turn [l] in [st]:
    no callback is pending, no coroutine waits on the event, the event of a
    woken coroutine is not set, or the coroutine that is to time out has no
    timeout or has its event set already. *)
Definition step (l : label) (st : sched) : option (sched * reply) :=
  match l with
  | CallAcquire name id timeout => Some (acquire name id timeout st)
  | CallRelease name id => Some (release name id st)
  | RunCallback =>
      match callbacks st with
      | [] => None
      | ev :: rest =>
          Some ({| ids := ids st; events := events st; waiting := waiting st;
                   flags := {[ev]} ∪ flags st; callbacks := rest;
                   fresh := fresh st |}, Returned)
      end
  | Wake ev =>
      match waiting st !! ev with
      | Some w => if decide (ev ∈ flags st) then Some (resume_set ev w st) else None
      | None => None
      end
  | Timeout ev =>
      match waiting st !! ev with
      | Some w =>
          match w_timeout w with
          | Some _ =>
              if decide (ev ∈ flags st) then None else Some (resume_timeout ev w st)
          | None => None
          end
      | None => None
      end
  end.

(** A schedule is run turn by turn; the replies are collected in order. *)
Fixpoint run (ls : list label) (st : sched) : option (sched * list reply) :=
  match ls with
  | [] => Some (st, [])
  | l :: ls =>
      match step l st with
      | None => None
      | Some (st1, r) =>
          match run ls st1 with
          | None => None
          | Some (st2, rs) => Some (st2, r :: rs)
          end
      end
  end.

(** *** A schedule with a late timeout *)

Local Open Scope string_scope.

(** The lock ["x"], held by ["h"]. *)
Definition x : lock_name := NameStr "x".

Definition held : sched := (acquire x (Some "h") None init).1.

(** ["a"] waits for ["x"] without a timeout, ["b"] waits behind it with a
    timeout, and the timeout of ["b"] fires. *)
Definition late_timeout : list label :=
  [CallAcquire x (Some "a") None; CallAcquire x (Some "b") (Some 1); Timeout 1].

Definition stranded : sched :=
  match run late_timeout held with
  | Some (st, _) => st
  | None => held
  end.

(** A waiter whose event is in no queue, is not set and is not about to be
    set, and who has no timeout. *)
Definition lost (ev : event) (w : waiter) (st : sched) : Prop :=
  waiting st !! ev = Some w ∧ w_timeout w = None ∧ ev < fresh st
  ∧ (ev ∉ flags st) ∧ (ev ∉ callbacks st) ∧ (∀ n, ev ∉ queue st n).

(** ["h"] holds ["x"] and one request waits for it, without or with a
    timeout. *)
Definition one_waiter : sched := (acquire x (Some "a") None held).1.

Definition one_timed_waiter : sched := (acquire x (Some "b") (Some 1) held).1.

(** The lock name a turn of the event loop is about: the (normalised)
    argument of a call, the name a resumed coroutine waits for; a callback
    only sets an event. *)
Definition name_of (l : label) (st : sched) : option lock_name :=
  match l with
  | CallAcquire name _ _ | CallRelease name _ => Some (as_key name)
  | RunCallback => None
  | Wake ev | Timeout ev => w_name <$> waiting st !! ev
  end.

End LockExt.

(** The client-side handle. *)
Module LockHandle.

Import LockExt.

Record Lock : Set := {
  name : lock_name;
  id : string;
  _locked : bool
}.

(** [sync] stands for [client.sync(client.scheduler.lock_acquire, ...)]:
    what the scheduler's handler answers, a boolean or an exception, or
    [None] when it never answers.  [acquire] then does not return either. *)
Definition acquire
    (sync : lock_name → ident → option nat → option (result bool))
    (blocking : bool) (timeout : option nat) (self : Lock)
    : option (Lock * result bool) :=
  let checked :=
    if blocking then Ok timeout
    else match timeout with
         | Some _ => Raise ValueError
         | None => Ok (Some 0)
         end in
  match checked with
  | Raise e => Some (self, Raise e)
  | Ok timeout =>
      match sync (name self) (Some (id self)) timeout with
      | None => None
      | Some (Raise e) => Some (self, Raise e)
      | Some (Ok result) =>
          Some ({| name := name self; id := id self; _locked := true |},
                Ok result)
      end
  end.

Definition locked (self : Lock) : bool := _locked self.

(** The scheduler answering one [lock_acquire] while nothing else happens:
    the request is granted at once, or it waits and its timeout fires.  A
    request that waits without a timeout gets no answer. *)
Definition serve_acquire (st : sched) (name : lock_name) (id : ident)
    (timeout : option nat) : option (result bool) :=
  match LockExt.acquire name id timeout st with
  | (_, Return b) => Some (Ok b)
  | (_, Raised e) => Some (Raise e)
  | (_, Returned) => None
  | (st1, Suspended ev) =>
      match step (Timeout ev) st1 with
      | Some (_, Return b) => Some (Ok b)
      | Some (_, Raised e) => Some (Raise e)
      | _ => None
      end
  end.

(** A handle for the lock ["x"] that does not hold it. *)
Definition lock : Lock := {| name := x; id := "c"%string; _locked := false |}.

(** [Lock.release]; [sync] stands for
    [client.sync(client.scheduler.lock_release, ...)], which returns [None]
    or raises what the scheduler's handler raises. *)
Definition release (sync : lock_name → ident → result unit) (self : Lock)
    : Lock * result unit :=
  if locked self then
    match sync (name self) (Some (id self)) with
    | Raise e => (self, Raise e)
    | Ok r =>
        ({| name := name self; id := id self; _locked := false |}, Ok r)
    end
  else (self, Raise ValueError).

(** The scheduler answering one [lock_release]. *)
Definition serve_release (st : sched) (name : lock_name) (id : ident)
    : result unit :=
  match (LockExt.release name id st).2 with
  | Raised e => Raise e
  | _ => Ok tt
  end.

End LockHandle.

(** ** utils_comm.py: gather_from_workers *)

(** [random.choice(seq)], with the random draw [r] made explicit: the element
    at a position of [seq], [IndexError] when [seq] is empty. *)
Definition random_choice {X : Type} (r : nat) (seq : list X) : result X :=
  match seq !! (r mod length seq) with
  | Some x => Ok x
  | None => Raise IndexError
  end.

Module Gather.

Section gather.

Context {K A : Type} `{Countable K} `{Countable A} {V : Type}.

(** The environment of one call: the random draw made for a key in an
    iteration of the loop, and what [get_data_from_worker] does for an
    address and its batch of keys in that iteration, [None] when it raises
    [EnvironmentError] and otherwise the [data] of the response. *)
Variable draw : nat → K → nat.
Variable fetch : nat → A → list K → option (gmap K V).

(** The argument [who_has], kept as [original_who_has]. *)
Variable original_who_has : gmap K (list A).

(** [who_has = {k: set(v) for k, v in who_has.items()}] *)
Definition who_has : gmap K (gset A) := list_to_set <$> original_who_has.

Record state : Type := State {
  bad_addresses : gset A;
  missing_workers : gset A;
  results : gmap K V;
  all_bad_keys : gset K
}.

Definition start : state :=
  {| bad_addresses := ∅; missing_workers := ∅; results := ∅; all_bad_keys := ∅ |}.

(** [len(results) + len(all_bad_keys) < len(who_has)] *)
Definition unfinished (st : state) : bool :=
  bool_decide (size (results st) + size (all_bad_keys st) < size who_has).

(** [random.choice(list(addresses - bad_addresses))] for [key]. *)
Definition pick (i : nat) (st : state) (key : K) (addresses : gset A) : result A :=
  random_choice (draw i key) (elements (addresses ∖ bad_addresses st)).

(** [rev]: the address chosen for every key that is not in [results] and
    still has a candidate. *)
Definition rev (i : nat) (st : state) : gmap K A :=
  map_imap (λ key addresses,
    if decide (is_Some (results st !! key)) then None
    else match pick i st key addresses with
         | Ok addr => Some addr
         | Raise _ => None
         end) who_has.

(** [bad_keys]: the keys for which the choice raised [IndexError]. *)
Definition bad_keys (i : nat) (st : state) : gset K :=
  dom (map_imap (λ key addresses,
    if decide (is_Some (results st !! key)) then None
    else match pick i st key addresses with
         | Ok _ => None
         | Raise _ => Some tt
         end) who_has).

(** [d[addr]]: the keys whose chosen address is [addr]. *)
Definition batch (r : gmap K A) (addr : A) : list K :=
  (map_to_list (filter (λ kv, kv.2 = addr) r)).*1.

(** The loop over the coroutines: a worker whose fetch raises is added to
    [missing_workers], the data of the others goes into [response].  The
    workers are taken in the order of the set of chosen addresses. *)
Definition collect (i : nat) (r : gmap K A) (missing : gset A)
    : gmap K V * gset A :=
  foldl (λ acc worker,
    match fetch i worker (batch r worker) with
    | Some data => (data ∪ acc.1, acc.2)
    | None => (acc.1, {[worker]} ∪ acc.2)
    end) (∅, missing) (elements (map_img r : gset A)).

(** One iteration of the [while] loop. *)
Definition iteration (i : nat) (st : state) : state :=
  let r := rev i st in
  let out := collect i r (missing_workers st) in
  let response := out.1 in
  {| bad_addresses :=
       bad_addresses st ∪ map_img (filter (λ kv, response !! kv.1 = None) r);
     missing_workers := out.2;
     results := response ∪ results st;
     all_bad_keys := all_bad_keys st ∪ bad_keys i st |}.

(** The loop, given a number of iterations it may take; [None] when they do
    not suffice. *)
Fixpoint loop (fuel i : nat) (st : state) : option state :=
  if unfinished st then
    match fuel with
    | 0 => None
    | S fuel => loop fuel (S i) (iteration i st)
    end
  else Some st.

(** The state after [i] iterations. *)
Fixpoint state_at (i : nat) : state :=
  match i with
  | 0 => start
  | S i => iteration i (state_at i)
  end.

(** [(results, bad_keys, list(missing_workers))], where [bad_keys] has
    [list(original_who_has[k])] for every [k] of [all_bad_keys], all of them
    keys of [who_has]. *)
Definition returned (st : state) : gmap K V * gmap K (list A) * list A :=
  (results st,
   filter (λ kv, kv.1 ∈ all_bad_keys st) original_who_has,
   elements (missing_workers st)).

(** Every candidate address of every key, and the number of iterations that
    always suffices. *)
Definition candidates : gset A := ⋃ (map_to_list who_has).*2.

Definition enough : nat := size who_has + size candidates.

Definition gather_from_workers : option (gmap K V * gmap K (list A) * list A) :=
  returned <$> loop enough 0 start.

(** The quantity that every iteration makes smaller. *)
Definition remaining (st : state) : nat :=
  (size who_has - (size (results st) + size (all_bad_keys st)))
  + size (candidates ∖ bad_addresses st).

(** A worker answers with values for keys it was asked for. *)
Definition fetch_sound : Prop :=
  ∀ i a keys data k,
    fetch i a keys = Some data → is_Some (data !! k) → k ∈ keys.

(** What holds of the state before and after every iteration: only
    requested keys are resolved or recorded, no key is both, and a recorded
    key has no candidate left. *)
Definition consistent (st : state) : Prop :=
  dom (results st) ⊆ dom who_has
  ∧ all_bad_keys st ⊆ dom who_has
  ∧ dom (results st) ## all_bad_keys st
  ∧ ∀ k addresses, k ∈ all_bad_keys st → who_has !! k = Some addresses →
      addresses ⊆ bad_addresses st.


End gather.

End Gather.

(** ** utils_comm.py: scatter_to_workers *)

Module Scatter.

(** Iterators that need not end are functions from positions; [None] is the
    end of the iteration. *)
Definition cycle {X : Type} (l : list X) : nat → option X :=
  λ i, l !! (i mod length l).

Definition drop_first {X : Type} (n : nat) (it : nat → option X) : nat → option X :=
  λ i, it (n + i).

(** [zip(it, names, data)], consuming [it] from position [i]. *)
Fixpoint zip3 {X Y Z : Type} (it : nat → option X) (i : nat)
    (names : list Y) (data : list Z) : list (X * Y * Z) :=
  match names, data with
  | n :: names, v :: data =>
      match it i with
      | Some w => (w, n, v) :: zip3 it (S i) names data
      | None => []
      end
  | _, _ => []
  end.

(** [toolz.groupby]: the groups in the order in which their keys first
    appear, every group in the order of the sequence. *)
Fixpoint group_add {X Y : Type} `{EqDecision Y} (k : Y) (x : X)
    (d : list (Y * list X)) : list (Y * list X) :=
  match d with
  | [] => [(k, [x])]
  | (k', xs) :: d =>
      if decide (k = k') then (k', xs ++ [x]) :: d
      else (k', xs) :: group_add k x d
  end.

Definition groupby {X Y : Type} `{EqDecision Y} (f : X → Y) (seq : list X)
    : list (Y * list X) :=
  foldl (λ d x, group_add (f x) x d) [] seq.

Section scatter.

Context {A N : Type} `{EqDecision A} `{Countable N} {V : Type}.

(** What reaches the network. *)
Inductive rpc_event : Type :=
  | Connect (addr : A)
  | UpdateData (addr : A) (data : list (N * V))
  | CloseRpc (addr : A).

(** The module-level counter and the trace of the calls made so far. *)
Record world : Type := World {
  _round_robin_counter : nat;
  trace : list rpc_event
}.

(** The answer of a worker to [update_data]: its [nbytes], or an
    exception. *)
Variable update_data : A → list (N * V) → result (gmap N nat).

(** Which of the calls that fail does so first in time, among the failing
    ones in the order of the calls, for the addresses called. *)
Variable race : list A → nat.

(** [list(concat([w] * nc for w, nc in nthreads.items()))] *)
Definition workers (nthreads : list (A * nat)) : list A :=
  concat (map (λ p, replicate p.2 p.1) nthreads).

(** [L]: the triples (worker, name, value) of a call that starts with the
    counter at [c]. *)
Definition assignment (nthreads : list (A * nat)) (data : list (N * V))
    (c : nat) : list (A * N * V) :=
  let ws := workers nthreads in
  zip3 (drop_first (c mod length ws) (cycle ws)) 0 data.*1 data.*2.

(** [{worker: {key: value for _, key, value in v}}] *)
Definition per_worker (L : list (A * N * V)) : list (A * list (N * V)) :=
  map (λ g, (g.1, map (λ t, (t.1.2, t.2)) g.2)) (groupby (λ t, t.1.1) L).

(** [{k: [w for w, _, _ in v] for k, v in groupby(1, L).items()}] *)
Definition placed (L : list (A * N * V)) : list (N * list A) :=
  map (λ g, (g.1, map (λ t, t.1.1) g.2)) (groupby (λ t, t.1.2) L).

(** [All([...])] of [distributed/utils.py]: every call is issued, and the
    results come in the order of the calls; when calls fail, the exception
    raised is that of the call that fails first in time, the one at position
    [first] among the failing ones. *)
Definition All {X : Type} (first : nat) (rs : list (result X)) : result (list X) :=
  match omap (λ r, match r with Raise e => Some e | Ok _ => None end) rs with
  | [] => Ok (omap (λ r, match r with Ok x => Some x | Raise _ => None end) rs)
  | e :: es => Raise (default e ((e :: es) !! (first mod length (e :: es))))
  end.

(** [toolz.merge]: later dictionaries win. *)
Definition merge (outs : list (gmap N nat)) : gmap N nat :=
  foldl (λ acc o, o ∪ acc) ∅ outs.

Definition scatter_to_workers (nthreads : list (A * nat)) (data : list (N * V))
    (w : world) : world * result (list N * list (N * list A) * gmap N nat) :=
  let ws := workers nthreads in
  match data with
  | [] => (w, Raise ValueError)
  | _ :: _ =>
      let names := data.*1 in
      match length ws with
      | 0 => (w, Raise ZeroDivisionError)
      | S _ =>
          let c := _round_robin_counter w in
          let L := assignment nthreads data c in
          let d := per_worker L in
          let calls :=
            map Connect d.*1 ++ map (λ p, UpdateData p.1 p.2) d
              ++ map CloseRpc d.*1 in
          let w' := {| _round_robin_counter := c + length data;
                       trace := trace w ++ calls |} in
          match All (race d.*1) (map (λ p, update_data p.1 p.2) d) with
          | Raise e => (w', Raise e)
          | Ok out => (w', Ok (names, placed L, merge out))
          end
      end
  end.

End scatter.

End Scatter.

(** ** utils_comm.py: WrappedKey, unpack_remotedata, pack_data *)

Module Packing.

(** A call of a Python function, and the body of a comprehension or of a
    generator expression, take a frame of the interpreter's stack.  [frames]
    is the number of frames that the recursion limit still allows; when none
    is left, [RecursionError] is raised. *)
Definition frame {X : Type} (frames : nat) (body : nat → result X) : result X :=
  match frames with
  | 0 => Raise RecursionError
  | S frames => body frames
  end.

(** A value that is not one of the containers the two functions look into:
    an integer, a float (a number, or the object [oid] that is not a number),
    a string, [None], or some other object, known by its identity and by
    whether it can be hashed. *)
Inductive atom : Set :=
  | AInt (z : Z)
  | AFloat (q : Q)
  | ANaN (oid : nat)
  | AStr (s : string)
  | ANone
  | AObj (can_hash : bool) (oid : nat).

(** The values the functions traverse.  [Ref oid key] is an instance of
    [WrappedKey] or of a subclass: the object [oid] with its attribute [key].
    [Subgraph] is dask's [SubgraphCallable] with its four slots.  A set lists
    its elements and a dictionary its items in iteration order. *)
Local Unset Elimination Schemes.
Inductive value : Set :=
  | Scalar (a : atom)
  | Tuple (items : list value)
  | List (items : list value)
  | PySet (items : list value)
  | Frozenset (items : list value)
  | Dict (items : list (value * value))
  | Ref (oid : nat) (key : value)
  | Subgraph (dsk : list (value * value)) (outkey : value)
      (inkeys : value) (name : string).
Local Set Elimination Schemes.

(** [==] on scalars: numbers compare by value, an integer with a float too,
    and a float that is not a number equals nothing, itself included. *)
Definition atom_eqb (a b : atom) : bool :=
  match a, b with
  | AInt x, AInt y => bool_decide (x = y)
  | AInt x, AFloat q | AFloat q, AInt x => Qeq_bool (inject_Z x) q
  | AFloat p, AFloat q => Qeq_bool p q
  | AStr x, AStr y => bool_decide (x = y)
  | ANone, ANone => true
  | AObj _ i, AObj _ j => bool_decide (i = j)
  | _, _ => false
  end.

(** [a is b], as far as [==] can tell: a value stands for an object, and two
    occurrences of a value for the same object. *)
Definition atom_is (a b : atom) : bool :=
  match a, b with
  | AInt x, AInt y => bool_decide (x = y)
  | AFloat p, AFloat q => Qeq_bool p q
  | ANaN i, ANaN j => bool_decide (i = j)
  | AStr x, AStr y => bool_decide (x = y)
  | ANone, ANone => true
  | AObj _ i, AObj _ j => bool_decide (i = j)
  | _, _ => false
  end.

Fixpoint identical (a b : value) {struct a} : bool :=
  let all :=
    fix all (xs ys : list value) : bool :=
      match xs, ys with
      | [], [] => true
      | x :: xs, y :: ys => identical x y && all xs ys
      | _, _ => false
      end in
  let all_items :=
    fix all_items (xs ys : list (value * value)) : bool :=
      match xs, ys with
      | [], [] => true
      | x :: xs, y :: ys =>
          identical x.1 y.1 && identical x.2 y.2 && all_items xs ys
      | _, _ => false
      end in
  match a, b with
  | Scalar x, Scalar y => atom_is x y
  | Tuple xs, Tuple ys
  | List xs, List ys
  | PySet xs, PySet ys
  | Frozenset xs, Frozenset ys => all xs ys
  | Dict kvs, Dict kvs' => all_items kvs kvs'
  | Ref i _, Ref j _ => bool_decide (i = j)
  | Subgraph dsk outkey inkeys name, Subgraph dsk' outkey' inkeys' name' =>
      bool_decide (name = name') && identical outkey outkey'
      && identical inkeys inkeys' && all_items dsk dsk'
  | _, _ => false
  end.

(** [WrappedKey] defines [__init__] and [__repr__] only, so [==] and [hash]
    on its instances are the ones of [object]: two handles are equal when
    they are the same object. *)
Definition WrappedKey_eq (oid1 oid2 : nat) : bool := bool_decide (oid1 = oid2).

(** Python's [==] on these values.  Sequences compare element by element,
    sets and dictionaries whatever the order, a set equals a frozenset with
    the same elements, and a [SubgraphCallable] compares by name, output key
    and set of input keys.  The elements of a container are compared as
    the containers do it: two elements that are the same object count as
    equal without [==] being asked. *)
Fixpoint py_eq (a b : value) {struct a} : bool :=
  match a, b with
  | Scalar x, Scalar y => atom_eqb x y
  | Tuple xs, Tuple ys
  | List xs, List ys =>
      (fix go (xs ys : list value) : bool :=
         match xs, ys with
         | [], [] => true
         | x :: xs, y :: ys => (identical x y || py_eq x y) && go xs ys
         | _, _ => false
         end) xs ys
  | PySet xs, PySet ys
  | PySet xs, Frozenset ys
  | Frozenset xs, PySet ys
  | Frozenset xs, Frozenset ys =>
      bool_decide (length xs = length ys)
      && forallb (λ x, existsb (λ y, identical x y || py_eq x y) ys) xs
  | Dict kvs, Dict kvs' =>
      bool_decide (length kvs = length kvs')
      && forallb (λ kv, existsb (λ kv', (identical kv.1 kv'.1 || py_eq kv.1 kv'.1)
                                        && (identical kv.2 kv'.2 || py_eq kv.2 kv'.2))
                          kvs') kvs
  | Ref i _, Ref j _ => WrappedKey_eq i j
  | Subgraph _ outkey inkeys name, Subgraph _ outkey' inkeys' name' =>
      bool_decide (name = name')
      && py_eq outkey outkey'
      && match inkeys, inkeys' with
         | Tuple xs, Tuple ys | Tuple xs, List ys
         | List xs, Tuple ys | List xs, List ys =>
             forallb (λ x, existsb (λ y, identical x y || py_eq x y) ys) xs
             && forallb (λ y, existsb (λ x, identical x y || py_eq x y) xs) ys
         | _, _ => false
         end
  | _, _ => false
  end.

(** The comparison that containers make of two elements, and sets and
    dictionaries of two keys: [a is b or a == b]. *)
Definition is_or_eq (a b : value) : bool := identical a b || py_eq a b.

(** [object.__hash__]: a number derived from the identity of the object
    ([address_hash], the address rotated in CPython), whatever the
    attributes. *)
Definition WrappedKey_hash (address_hash : nat → Z) (oid : nat) (key : value) : Z :=
  address_hash oid.

(** Comprehensions over the elements of a collection and over the values of
    a dictionary, for a body [f] that threads a state and may raise. *)
Section traverse.

Context {S : Type} (f : value → S → result (value * S)).

Fixpoint each (items : list value) (s : S) : result (list value * S) :=
  match items with
  | [] => Ok ([], s)
  | item :: items =>
      r ← f item s;
      rs ← each items r.2;
      Ok (r.1 :: rs.1, rs.2)
  end.

Fixpoint each_value (items : list (value * value)) (s : S)
    : result (list (value * value) * S) :=
  match items with
  | [] => Ok ([], s)
  | (k, v) :: items =>
      r ← f v s;
      rs ← each_value items r.2;
      Ok ((k, r.1) :: rs.1, rs.2)
  end.

End traverse.

(** The same comprehensions for a body without a state. *)
Section comprehension.

Context (f : value → result value).

Fixpoint list_of (items : list value) : result (list value) :=
  match items with
  | [] => Ok []
  | x :: items => y ← f x; ys ← list_of items; Ok (y :: ys)
  end.

Fixpoint dict_of (items : list (value * value)) : result (list (value * value)) :=
  match items with
  | [] => Ok []
  | (k, v) :: items => y ← f v; ys ← dict_of items; Ok ((k, y) :: ys)
  end.

End comprehension.

Section packing.

(** Two things the module takes from elsewhere: whether dask's
    [SubgraphCallable] defines [__hash__], and [tokey] of
    [distributed/utils.py], which turns a key into a string. *)
Variable subgraph_hashable : bool.
Variable tokey : value → value.

(** Whether [hash(o)] returns; it raises [TypeError] otherwise. *)
Fixpoint hashable (o : value) : bool :=
  match o with
  | Scalar (AObj can_hash _) => can_hash
  | Scalar _ => true
  | Tuple items => forallb hashable items
  | List _ | PySet _ | Dict _ => false
  | Frozenset _ => true
  | Ref _ _ => true
  | Subgraph _ _ _ _ => subgraph_hashable
  end.

(** [x in s] for the elements [s] of a set. *)
Definition member (x : value) (s : list value) : bool :=
  existsb (is_or_eq x) s.

(** [set(outs)] and [frozenset(outs)]: every element is hashed, and an
    element equal to an earlier one is dropped. *)
Definition elements_of (outs : list value) : result (list value) :=
  if forallb hashable outs
  then Ok (foldl (λ s x, if member x s then s else s ++ [x]) [] outs)
  else Raise TypeError.

(** A set of [WrappedKey] objects, which are equal when they are the same
    object: the objects in the order in which they were added. *)
Abbreviation refset := (list (nat * value)).

(** [myset.add(o)] *)
Definition add (o : nat * value) (myset : refset) : refset :=
  if existsb (λ r, WrappedKey_eq o.1 r.1) myset then myset else myset ++ [o].

(** [myset.update(futures)] *)
Definition update (myset futures : refset) : refset :=
  foldl (λ s o, add o s) myset futures.

(** [tokey(k)] if [byte_keys], else [k]; the call of [tokey] takes a
    frame. *)
Definition key_of (byte_keys : bool) (frames : nat) (key : value) : result value :=
  if byte_keys then frame frames (λ _, Ok (tokey key)) else Ok key.

(** [tuple(tokey(f.key) for f in futures)] and
    [tuple(f.key for f in futures)], inside the generator. *)
Fixpoint keys_of (byte_keys : bool) (frames : nat) (futures : refset)
    : result (list value) :=
  match futures with
  | [] => Ok []
  | f :: futures =>
      k ← key_of byte_keys frames f.2;
      ks ← keys_of byte_keys frames futures;
      Ok (k :: ks)
  end.

(** [inkeys + futures] for a tuple [futures]: only a tuple can be added to
    a tuple, and of the values here only a tuple defines the sum. *)
Definition plus_tuple (inkeys : value) (futures : list value) : result value :=
  match inkeys with
  | Tuple items => Ok (Tuple (items ++ futures))
  | _ => Raise TypeError
  end.

(** The recursive calls of [unpack_remotedata], those with a [myset]. *)
Fixpoint unpack (byte_keys : bool) (o : value) (myset : refset) (frames : nat)
    {struct o} : result (value * refset) :=
  frame frames (λ frames,
    match o with
    | Tuple [] => Ok (o, myset)
    | Tuple (Subgraph sc_dsk sc_outkey sc_inkeys sc_name :: rest) =>
        dsk ← frame frames (λ frames,
                each_value (λ v s, unpack byte_keys v s frames) sc_dsk []);
        args ← frame frames (λ frames,
                 each (λ i s, unpack byte_keys i s frames) rest dsk.2);
        match args.2 with
        | _ :: _ =>
            futures ← frame frames (λ frames, keys_of byte_keys frames args.2);
            inkeys ← plus_tuple sc_inkeys futures;
            sc ← frame frames (λ _, Ok (Subgraph dsk.1 sc_outkey inkeys sc_name));
            Ok (Tuple (sc :: args.1 ++ futures), update myset args.2)
        | [] => Ok (o, myset)
        end
    | Tuple items =>
        outs ← frame frames (λ frames,
                 each (λ i s, unpack byte_keys i s frames) items myset);
        Ok (Tuple outs.1, outs.2)
    | List [] | PySet [] | Frozenset [] => Ok (o, myset)
    | List items =>
        outs ← frame frames (λ frames,
                 each (λ i s, unpack byte_keys i s frames) items myset);
        Ok (List outs.1, outs.2)
    | PySet items =>
        outs ← frame frames (λ frames,
                 each (λ i s, unpack byte_keys i s frames) items myset);
        s ← elements_of outs.1;
        Ok (PySet s, outs.2)
    | Frozenset items =>
        outs ← frame frames (λ frames,
                 each (λ i s, unpack byte_keys i s frames) items myset);
        s ← elements_of outs.1;
        Ok (Frozenset s, outs.2)
    | Dict [] => Ok (o, myset)
    | Dict items =>
        values ← frame frames (λ frames,
                   each_value (λ v s, unpack byte_keys v s frames) items myset);
        Ok (Dict values.1, values.2)
    | Ref oid key =>
        k ← key_of byte_keys frames key;
        Ok (k, add (oid, key) myset)
    | Scalar _ | Subgraph _ _ _ _ => Ok (o, myset)
    end).

(** [unpack_remotedata(o, byte_keys)], called without a [myset]: it makes
    the set and calls itself with it. *)
Definition unpack_remotedata (o : value) (byte_keys : bool) (frames : nat)
    : result (value * refset) :=
  frame frames (λ frames, unpack byte_keys o [] frames).

(** [d[o]] when [o in d] holds, for a dictionary [d]. *)
Definition getitem (d : list (value * value)) (o : value) : option value :=
  snd <$> find (λ kv, is_or_eq o kv.1) d.

(** The guarded test of [pack_data]: [isinstance(o, key_types) and o in d]
    inside [try], where hashing [o] may raise the [TypeError] that is
    caught. *)
Definition known (key_types : value → bool) (d : list (value * value))
    (o : value) : option value :=
  if key_types o then
    if hashable o then getitem d o else None
  else None.

Fixpoint pack_data (key_types : value → bool) (o : value)
    (d : list (value * value)) (frames : nat) {struct o} : result value :=
  frame frames (λ frames,
    let pack := λ frames x, pack_data key_types x d frames in
    match known key_types d o with
    | Some v => Ok v
    | None =>
        match o with
        | Tuple items =>
            outs ← frame frames (λ frames, list_of (pack frames) items);
            Ok (Tuple outs)
        | List items =>
            outs ← frame frames (λ frames, list_of (pack frames) items);
            Ok (List outs)
        | PySet items =>
            outs ← frame frames (λ frames, list_of (pack frames) items);
            s ← elements_of outs;
            Ok (PySet s)
        | Frozenset items =>
            outs ← frame frames (λ frames, list_of (pack frames) items);
            s ← elements_of outs;
            Ok (Frozenset s)
        | Dict items =>
            outs ← frame frames (λ frames, dict_of (pack frames) items);
            Ok (Dict outs)
        | _ => Ok o
        end
    end).

(** [key_types=object] *)
Definition object : value → bool := λ _, true.

(** To be well formed, a value has sets with hashable elements no two of
    which are equal, and dictionaries with such keys. *)
Fixpoint all_new (seen items : list value) : bool :=
  match items with
  | [] => true
  | x :: items => negb (member x seen) && all_new (seen ++ [x]) items
  end.

Fixpoint wf (o : value) : bool :=
  match o with
  | Scalar _ => true
  | Tuple items | List items => forallb wf items
  | PySet items | Frozenset items =>
      forallb wf items && forallb hashable items && all_new [] items
  | Dict items =>
      forallb (λ kv, wf kv.1 && wf kv.2) items
      && forallb (λ kv, hashable kv.1) items
      && all_new [] (map fst items)
  | Ref _ key => wf key
  | Subgraph dsk outkey inkeys _ =>
      forallb (λ kv, wf kv.1 && wf kv.2) dsk && wf outkey && wf inkeys
  end.

(** Whether a [WrappedKey] occurs anywhere in a value. *)
Fixpoint has_ref (o : value) : bool :=
  match o with
  | Scalar _ => false
  | Tuple items | List items | PySet items | Frozenset items =>
      existsb has_ref items
  | Dict items => existsb (λ kv, has_ref kv.1 || has_ref kv.2) items
  | Ref _ _ => true
  | Subgraph dsk outkey inkeys _ =>
      existsb (λ kv, has_ref kv.1 || has_ref kv.2) dsk
      || has_ref outkey || has_ref inkeys
  end.

(** The references that [unpack_remotedata] comes across in a value, in the
    order of its traversal: those among the elements of collections and the
    values of dictionaries, and for a tuple that begins with a
    [SubgraphCallable] those of the values of its graph as well. *)
Fixpoint refs_of (o : value) : list (nat * value) :=
  match o with
  | Tuple (Subgraph dsk _ _ _ :: rest) =>
      flat_map (λ kv, refs_of kv.2) dsk ++ flat_map refs_of rest
  | Tuple items | List items | PySet items | Frozenset items =>
      flat_map refs_of items
  | Dict items => flat_map (λ kv, refs_of kv.2) items
  | Ref oid key => [(oid, key)]
  | Scalar _ | Subgraph _ _ _ _ => []
  end.

(** The values that [pack_data] tests against the mapping: the value
    itself, the elements of its collections and the values of its
    dictionaries. *)
Fixpoint parts (o : value) : list value :=
  o :: match o with
       | Tuple items | List items | PySet items | Frozenset items =>
           flat_map parts items
       | Dict items => flat_map (λ kv, parts kv.2) items
       | _ => []
       end.

(** The values on which [pack_data] is called: the value itself and, unless
    the mapping knows it, the elements of its collections and the values of
    its dictionaries. *)
Fixpoint visited (key_types : value → bool) (d : list (value * value))
    (o : value) : list value :=
  o :: match known key_types d o with
       | Some _ => []
       | None =>
           match o with
           | Tuple items | List items | PySet items | Frozenset items =>
               flat_map (visited key_types d) items
           | Dict items => flat_map (λ kv, visited key_types d kv.2) items
           | _ => []
           end
       end.

(** A set or frozenset that the mapping does not know, and whose elements
    [pack_data] turns into values one of which cannot be hashed. *)
Definition unhashable_set (key_types : value → bool) (d : list (value * value))
    (s : value) : Prop :=
  known key_types d s = None
  ∧ ∃ items, (s = PySet items ∨ s = Frozenset items)
    ∧ ∃ frames outs,
        list_of (λ x, pack_data key_types x d frames) items = Ok outs
        ∧ forallb hashable outs = false.

(** How deep the containers are nested that the two functions go into. *)
Fixpoint depth (o : value) : nat :=
  match o with
  | Tuple (Subgraph dsk _ _ _ :: rest) =>
      S (max_list (map (λ kv, depth kv.2) dsk) `max` max_list (map depth rest))
  | Tuple items | List items | PySet items | Frozenset items =>
      S (max_list (map depth items))
  | Dict items => S (max_list (map (λ kv, depth kv.2) items))
  | _ => 0
  end.

(** The frames that [pack_data] takes: one for its call, and where it goes
    into a container, one for the comprehension and those that the elements
    take. *)
Fixpoint needs (key_types : value → bool) (d : list (value * value))
    (o : value) : nat :=
  match known key_types d o with
  | Some _ => 1
  | None =>
      match o with
      | Tuple items | List items | PySet items | Frozenset items =>
          2 + max_list (map (needs key_types d) items)
      | Dict items => 2 + max_list (map (λ kv, needs key_types d kv.2) items)
      | _ => 1
      end
  end.

(** The exceptions of [pack_data] when the frames are as many as it takes:
    only [TypeError], and that exactly when a set is reached whose elements
    have become unhashable. *)
Definition raises_exactly (key_types : value → bool) (d : list (value * value))
    (o : value) : Prop :=
  ∀ frames, needs key_types d o ≤ frames →
    (∀ e, pack_data key_types o d frames = Raise e → e = TypeError)
    ∧ (pack_data key_types o d frames = Raise TypeError
       ↔ Exists (unhashable_set key_types d) (visited key_types d o)).

(** A list in a list in a list, [n] deep. *)
Fixpoint nest (n : nat) : value :=
  match n with
  | 0 => Scalar (AInt 1)
  | S n => List [nest n]
  end.

(** [unpack] adds to the set the references it comes across. *)
Definition collects (byte_keys : bool) (o : value) : Prop :=
  ∀ myset frames v myset', unpack byte_keys o myset frames = Ok (v, myset') →
    myset' = update myset (refs_of o).

(** [unpack] leaves a value without references as it is, and the set it was
    given too. *)
Definition untouched (byte_keys : bool) (o : value) : Prop :=
  wf o = true → has_ref o = false →
  ∀ myset frames, 2 * depth o + 1 ≤ frames →
    unpack byte_keys o myset frames = Ok (o, myset).

End packing.

End Packing.

(** * Properties *)

(** ** The scheduler's lock extension *)

Module LockFacts.

Import LockExt.

Local Open Scope string_scope.

Lemma queue_insert_eq st n q ids' w' f' c' fr' :
  queue (Sched ids' (<[n := q]> (events st)) w' f' c' fr') n = q.
Proof. unfold queue; simpl. by rewrite lookup_insert_eq. Qed.

Lemma queue_insert_ne st n m q ids' w' f' c' fr' :
  n ≠ m → queue (Sched ids' (<[n := q]> (events st)) w' f' c' fr') m = queue st m.
Proof. intros ?. unfold queue; simpl. by rewrite lookup_insert_ne. Qed.

Lemma lost_grant ev w n i st :
  lost ev w st → lost ev w (grant n i st).1.
Proof.
  unfold grant. destruct (ids st !! n); [done|]. by intros (?&?&?&?&?&?).
Qed.

Lemma lost_acquire_loop ev w n i t st :
  lost ev w st → lost ev w (acquire_loop n i t st).1.
Proof.
  intros Hl. unfold acquire_loop.
  destruct (ids st !! n); [|by apply lost_grant].
  destruct Hl as (Hw & Ht & Hf & Hs & Hc & Hq). simpl.
  split_and!; simpl; try done.
  - rewrite lookup_insert_ne; [done|lia].
  - lia.
  - intros m. destruct (decide (n = m)) as [->|Hne].
    + rewrite queue_insert_eq. rewrite elem_of_app, list_elem_of_singleton.
      intros [Hin| ->]; [by apply (Hq m)|lia].
    + rewrite queue_insert_ne by done. apply Hq.
Qed.

Lemma lost_pop_own ev w ev' n st :
  ev ≠ ev' → lost ev w (forget ev' st) → lost ev w (pop_own n ev' (forget ev' st)).1.
Proof.
  intros Hne (Hw & Ht & Hf & Hs & Hc & Hq). unfold pop_own.
  destruct (queue (forget ev' st) n) as [|ev2 rest] eqn:Hqn; simpl.
  - split_and!; simpl; try done. intros m. destruct (decide (n = m)) as [->|Hnm].
    + rewrite queue_insert_eq. apply not_elem_of_nil.
    + rewrite queue_insert_ne by done. apply Hq.
  - split_and!; simpl; try done. intros m. destruct (decide (n = m)) as [->|Hnm].
    + rewrite queue_insert_eq. intros Hin. apply (Hq m). rewrite Hqn.
      by right.
    + rewrite queue_insert_ne by done. apply Hq.
Qed.

Lemma lost_forget ev w ev' st :
  ev ≠ ev' → lost ev w st → lost ev w (forget ev' st).
Proof.
  intros Hne (Hw & Ht & Hf & Hs & Hc & Hq). split_and!; simpl; try done.
  simpl. by rewrite lookup_delete_ne.
Qed.

Lemma lost_release ev w n i st :
  lost ev w st → lost ev w (release n i st).1.
Proof.
  intros Hl. unfold release. case_decide; [|done].
  destruct (ids st !! as_key n); [|done].
  destruct Hl as (Hw & Ht & Hf & Hs & Hc & Hq).
  destruct (queue st (as_key n)) as [|e q] eqn:Hqn; simpl.
  - split_and!; simpl; try done. intros m. unfold queue; simpl.
    destruct (decide (as_key n = m)) as [<-|Hnm].
    + rewrite lookup_delete_eq. apply not_elem_of_nil.
    + rewrite lookup_delete_ne by done. apply Hq.
  - split_and!; simpl; try done.
    rewrite elem_of_app, list_elem_of_singleton.
    intros [?| ->]; [done|]. apply (Hq (as_key n)). rewrite Hqn. left.
Qed.

(** No turn of the event loop resumes a lost waiter. *)
Lemma lost_step ev w l st st' r :
  lost ev w st → step l st = Some (st', r) → lost ev w st'.
Proof.
  intros Hl Hstep. destruct l as [n i t|n i| |e|e]; simpl in Hstep.
  - assert (st' = (acquire n i t st).1) as ->
      by (injection Hstep as Hst; by rewrite Hst).
    unfold acquire.
    destruct (ids st !! as_key n); [by apply lost_acquire_loop|by apply lost_grant].
  - assert (st' = (release n i st).1) as ->
      by (injection Hstep as Hst; by rewrite Hst).
    by apply lost_release.
  - destruct Hl as (Hw & Ht & Hf & Hs & Hc & Hq).
    destruct (callbacks st) as [|e rest] eqn:Hcb; [done|].
    injection Hstep as <- _. split_and!; simpl; try done.
    + rewrite elem_of_union, elem_of_singleton. intros [->|?]; [|done].
      apply Hc. left.
    + intros Hin. apply Hc. by right.
  - destruct (waiting st !! e) as [w'|] eqn:Hw'; [|done].
    case_decide as Hset; [|done].
    assert (ev ≠ e) by (intros ->; by destruct Hl as (_&_&_&?&_)).
    injection Hstep as Hres. unfold resume_set in Hres.
    pose proof (lost_pop_own ev w e (w_name w') st ltac:(done)
                  (lost_forget _ _ _ _ ltac:(done) Hl)) as Hp.
    destruct (pop_own (w_name w') e (forget e st)) as [st1 [[]|err]]; simpl in *.
    + apply (lost_acquire_loop ev w (w_name w') (w_id w') (w_timeout w')) in Hp.
      by rewrite Hres in Hp.
    + by injection Hres as <- _.
  - destruct (waiting st !! e) as [w'|] eqn:Hw'; [|done].
    destruct (w_timeout w') eqn:Hto; [|done].
    case_decide; [done|].
    assert (ev ≠ e).
    { intros ->. destruct Hl as (Hw&Ht&_). congruence. }
    injection Hstep as Hres. unfold resume_timeout in Hres.
    pose proof (lost_pop_own ev w e (w_name w') st ltac:(done)
                  (lost_forget _ _ _ _ ltac:(done) Hl)) as Hp.
    destruct (pop_own (w_name w') e (forget e st)) as [st1 [[]|err]]; simpl in *;
      by injection Hres as <- _.
Qed.

Lemma lost_run ev w ls : ∀ st st' rs,
  lost ev w st → run ls st = Some (st', rs) → lost ev w st'.
Proof.
  induction ls as [|l ls IH]; intros st st' rs Hl Hrun; simpl in Hrun.
  - by injection Hrun as <- _.
  - destruct (step l st) as [[st1 r]|] eqn:Hstep; [|done].
    destruct (run ls st1) as [[st2 rs']|] eqn:Hrun'; [|done].
    injection Hrun as <- _. eapply IH; [|done]. by eapply lost_step.
Qed.

Lemma stranded_events : events stranded = {[x := [1]]}.
Proof. by vm_compute. Qed.

Lemma stranded_lost : lost 0 (Waiter x (Some "a") None) stranded.
Proof.
  assert (fresh stranded = 2) as Hf by (by vm_compute).
  assert (flags stranded = ∅) as Hs by (by vm_compute).
  assert (callbacks stranded = []) as Hc by (by vm_compute).
  unfold lost. rewrite Hf, Hs, Hc. split_and!.
  - by vm_compute.
  - done.
  - lia.
  - set_solver.
  - apply not_elem_of_nil.
  - intros n. unfold queue. rewrite stranded_events.
    destruct (decide (x = n)) as [<-|Hne].
    + rewrite lookup_singleton_eq. simpl. rewrite list_elem_of_singleton. lia.
    + rewrite lookup_singleton_ne by done. apply not_elem_of_nil.
Qed.

(** What [release] does when the test [self.ids.get(name) != id] holds. *)
Lemma release_not_holder name id st :
  holder st (as_key name) ≠ id → release name id st = (st, Raised ValueError).
Proof. intros Hne. unfold release. by rewrite decide_False. Qed.

(** C1, at the input where it fails: ["h"] holds ["x"], ["a"] waits without a
    timeout, ["b"] waits behind it with a timeout, and the timeout of ["b"]
    fires.  The token popped is the one at the head of the queue, that of
    ["a"]: the assertion [event is event2] fails, so ["b"] gets an
    [AssertionError] and not [False], and its own token stays queued.  ["a"],
    first in line, is then never resumed, whatever happens after ["h"]
    releases the lock: it is never granted. *)
Theorem late_timeout_pops_the_head :
  run late_timeout held
    = Some (stranded, [Suspended 0; Suspended 1; Raised AssertionError])
  ∧ queue stranded x = [1]
  ∧ waiting stranded !! 1 = None
  ∧ ∀ ls, match run (CallRelease x (Some "h") :: ls) stranded with
          | Some (st, _) => waiting st !! 0 = Some (Waiter x (Some "a") None)
          | None => True
          end.
Proof.
  split_and!; try by vm_compute.
  intros ls.
  destruct (run (CallRelease x (Some "h") :: ls) stranded) as [[st rs]|] eqn:Hrun;
    [|done].
  by destruct (lost_run _ _ _ _ _ _ stranded_lost Hrun) as (? & _).
Qed.

(** C8, at the input where it fails: nobody holds ["x"] and the release comes
    with the default [id=None].  [self.ids.get(name)] is [None] as well, the
    test passes, and [del self.ids[name]] raises [KeyError]. *)
Theorem release_free_lock_without_id :
  holder init x = None
  ∧ ids init !! x = None
  ∧ release x None init = (init, Raised KeyError).
Proof. by vm_compute. Qed.

End LockFacts.

(** ** The client's handle *)

Module HandleFacts.

Import LockExt LockHandle.

Local Open Scope string_scope.

(** Whatever the scheduler answers, a call that returns marks the handle
    held. *)
Lemma acquire_marks_held sync blocking timeout self self' (b : bool) :
  acquire sync blocking timeout self = Some (self', Ok b) → locked self' = true.
Proof.
  unfold acquire. intros Hacq.
  destruct blocking; [|destruct timeout; [done|]];
    (destruct (sync _ _ _) as [[r|e]|]; [|done|done]);
    by injection Hacq as <- _.
Qed.

(** C2, at the input where it fails: ["h"] holds ["x"] and the handle asks
    for it without blocking.  The scheduler answers [False], [acquire]
    returns [False], and the handle is marked held all the same. *)
Theorem failed_acquire_marks_held :
  locked lock = false
  ∧ serve_acquire held (name lock) (Some (id lock)) (Some 0)
      = Some (Ok false)
  ∧ ∃ lock', acquire (serve_acquire held) false None lock
               = Some (lock', Ok false)
             ∧ locked lock' = true.
Proof.
  split_and!; try by vm_compute.
  eexists. split; by vm_compute.
Qed.

End HandleFacts.

(** ** scatter_to_workers *)

Module ScatterFacts.

Import Scatter.

Section groups.

Context {X Y : Type} `{EqDecision Y}.

Variable f : X → Y.

Lemma group_add_keys (k : Y) (x : X) (d : list (Y * list X)) :
  (group_add k x d).*1 = if decide (k ∈ d.*1) then d.*1 else d.*1 ++ [k].
Proof.
  induction d as [|[k' xs] d IH]; [done|]. cbn [group_add].
  destruct (decide (k = k')) as [->|Hne]; rewrite !fmap_cons; cbn [fst].
  - rewrite decide_True; [done|left].
  - rewrite IH. destruct (decide (k ∈ d.*1)) as [Hin|Hin].
    + rewrite decide_True; [done|by right].
    + rewrite decide_False; [done|].
      intros [?|?]%elem_of_cons; [done|done].
Qed.

Lemma group_add_members (k : Y) (x : X) (d : list (Y * list X)) :
  concat (group_add k x d).*2 ≡ₚ x :: concat d.*2.
Proof.
  induction d as [|[k' xs] d IH]; [done|]. cbn [group_add].
  destruct (decide (k = k')) as [->|Hne]; rewrite !fmap_cons; cbn [snd concat].
  - rewrite <- app_assoc. simpl. symmetry. apply Permutation_middle.
  - rewrite IH. symmetry. apply Permutation_middle.
Qed.

Lemma group_add_uniform (k : Y) (x : X) (d : list (Y * list X)) :
  Forall (λ g, Forall (λ y, f y = g.1) g.2) d → f x = k →
  Forall (λ g, Forall (λ y, f y = g.1) g.2) (group_add k x d).
Proof.
  intros Hd Hx. induction Hd as [|[k' xs] d Hg Hd IH]; cbn [group_add].
  - by repeat constructor.
  - destruct (decide (k = k')) as [->|Hne]; constructor; try done.
    simpl in *. apply Forall_app. by split; [|repeat constructor].
Qed.

Lemma group_add_new (k : Y) (x : X) (d : list (Y * list X)) :
  k ∉ d.*1 → group_add k x d = d ++ [(k, [x])].
Proof.
  induction d as [|[k' xs] d IH]; [done|]. cbn [group_add].
  rewrite fmap_cons. intros Hk. apply not_elem_of_cons in Hk as [? ?].
  rewrite decide_False by done. by rewrite IH.
Qed.

(** What [groupby] makes of a sequence: groups with different keys, each
    holding elements of its key, together the elements of the sequence. *)
Lemma groupby_spec (seq : list X) :
  NoDup (groupby f seq).*1
  ∧ Forall (λ g, Forall (λ y, f y = g.1) g.2) (groupby f seq)
  ∧ concat (groupby f seq).*2 ≡ₚ seq.
Proof.
  unfold groupby.
  assert (∀ d, NoDup d.*1 →
            Forall (λ g, Forall (λ y, f y = g.1) g.2) d →
            let d' := foldl (λ d x, group_add (f x) x d) d seq in
            NoDup d'.*1
            ∧ Forall (λ g, Forall (λ y, f y = g.1) g.2) d'
            ∧ concat d'.*2 ≡ₚ concat d.*2 ++ seq) as Hfold.
  { induction seq as [|x seq IH]; intros d Hnd Hd; simpl.
    - by rewrite app_nil_r.
    - destruct (IH (group_add (f x) x d)) as (? & ? & Hperm).
      + rewrite group_add_keys. case_decide; [done|].
        apply NoDup_app. split_and!; [done| |apply NoDup_singleton].
        intros y Hy ->%list_elem_of_singleton. done.
      + by apply group_add_uniform.
      + split_and!; [done|done|]. rewrite Hperm, group_add_members.
        simpl. apply Permutation_middle. }
  destruct (Hfold [] (NoDup_nil_2) (Forall_nil_2 _)) as (? & ? & ?).
  by split_and!.
Qed.

(** When no two elements have the same key, every element is a group of its
    own, in the order of the sequence. *)
Lemma groupby_distinct (seq : list X) :
  NoDup (f <$> seq) → groupby f seq = map (λ x, (f x, [x])) seq.
Proof.
  unfold groupby.
  assert (∀ d, NoDup (d.*1 ++ (f <$> seq)) →
            foldl (λ d x, group_add (f x) x d) d seq
              = d ++ map (λ x, (f x, [x])) seq) as Hfold.
  { induction seq as [|x seq IH]; intros d Hnd; simpl.
    - by rewrite app_nil_r.
    - simpl in Hnd. rewrite group_add_new.
      + rewrite IH; [by rewrite <- app_assoc|].
        rewrite fmap_app. simpl. by rewrite <- app_assoc.
      + apply NoDup_app in Hnd as (_ & Hdisj & _). intros Hin.
        apply (Hdisj _ Hin). left. }
  intros Hnd. by apply (Hfold []).
Qed.

Lemma filter_none (k : Y) (seen : list X) :
  (∀ y, y ∈ seen → f y ≠ k) → filter (λ y, f y = k) seen = [].
Proof.
  intros Hall. induction seen as [|y seen IH]; [done|].
  rewrite filter_cons_False by (apply Hall; left).
  apply IH. intros z Hz. apply Hall. by right.
Qed.

Lemma group_add_filter (k : Y) (x : X) (d : list (Y * list X)) (seen : list X) :
  f x = k → NoDup d.*1 →
  Forall (λ g, g.2 = filter (λ y, f y = g.1) seen) d →
  k ∈ d.*1 ∨ filter (λ y, f y = k) seen = [] →
  Forall (λ g, g.2 = filter (λ y, f y = g.1) (seen ++ [x])) (group_add k x d).
Proof.
  intros Hx Hnd Hd Hk.
  induction Hd as [|[k' xs] d Hg Hd IH]; cbn [group_add].
  - destruct Hk as [Hk|Hk]; [by apply not_elem_of_nil in Hk|].
    constructor; [|done]. simpl. rewrite filter_app, Hk. simpl.
    by rewrite filter_cons_True.
  - rewrite fmap_cons in Hnd. apply NoDup_cons in Hnd as [Hnot Hnd].
    simpl in Hg, Hnot.
    destruct (decide (k = k')) as [->|Hne]; constructor; simpl.
    + rewrite filter_app, <- Hg. by rewrite filter_cons_True.
    + apply Forall_forall. intros g Hin.
      rewrite filter_app, filter_cons_False, app_nil_r.
      * by apply (proj1 (Forall_forall _ _) Hd g Hin).
      * rewrite Hx. intros Heq. apply Hnot. rewrite Heq.
        apply list_elem_of_fmap. by exists g.
    + rewrite filter_app, filter_cons_False, app_nil_r by congruence. done.
    + apply IH; [done|]. destruct Hk as [Hk|Hk]; [|by right].
      rewrite fmap_cons in Hk. apply elem_of_cons in Hk as [?|?]; [done|by left].
Qed.

(** What [groupby] makes of a sequence: one group for every key that occurs,
    with the elements of that key in the order of the sequence. *)
Lemma groupby_filter (seq : list X) :
  NoDup (groupby f seq).*1
  ∧ Forall (λ g, g.2 = filter (λ y, f y = g.1) seq) (groupby f seq)
  ∧ (∀ k, k ∈ (groupby f seq).*1 ↔ ∃ y, y ∈ seq ∧ f y = k).
Proof.
  unfold groupby.
  assert (∀ d seen, NoDup d.*1 →
            Forall (λ g, g.2 = filter (λ y, f y = g.1) seen) d →
            (∀ k, k ∈ d.*1 ↔ ∃ y, y ∈ seen ∧ f y = k) →
            let d' := foldl (λ d x, group_add (f x) x d) d seq in
            NoDup d'.*1
            ∧ Forall (λ g, g.2 = filter (λ y, f y = g.1) (seen ++ seq)) d'
            ∧ (∀ k, k ∈ d'.*1 ↔ ∃ y, y ∈ seen ++ seq ∧ f y = k)) as Hfold.
  { induction seq as [|x seq IH]; intros d seen Hnd Hd Hkeys; simpl.
    - by rewrite app_nil_r.
    - replace (seen ++ x :: seq) with ((seen ++ [x]) ++ seq)
        by (by rewrite <- app_assoc).
      apply IH.
      + rewrite group_add_keys. case_decide; [done|].
        apply NoDup_app. split_and!; [done| |apply NoDup_singleton].
        intros y Hy ->%list_elem_of_singleton. done.
      + apply group_add_filter; [done..|].
        destruct (decide (f x ∈ d.*1)) as [Hin|Hin]; [by left|right].
        apply filter_none. intros y Hy Heq. apply Hin. apply Hkeys. by exists y.
      + intros k. rewrite group_add_keys. split.
        * case_decide as Hin.
          -- intros (y & Hy & Hk)%Hkeys. exists y.
             split; [apply elem_of_app; by left|done].
          -- intros [(y & Hy & Hk)%Hkeys| ->%list_elem_of_singleton]%elem_of_app.
             ++ exists y. split; [apply elem_of_app; by left|done].
             ++ exists x. split; [apply elem_of_app; right; left|done].
        * intros (y & [Hy| ->%list_elem_of_singleton]%elem_of_app & Hk).
          -- assert (k ∈ d.*1) by (apply Hkeys; by exists y).
             case_decide; [done|]. apply elem_of_app. by left.
          -- subst k. case_decide; [done|]. apply elem_of_app. right. left. }
  apply (Hfold [] []); [constructor|constructor|].
  intros k. split; [by intros ?%not_elem_of_nil|].
  by intros (y & ?%not_elem_of_nil & _).
Qed.

End groups.

Section facts.

Context {A N : Type} `{EqDecision A} `{Countable N} {V : Type}.

Variable update_data : A → list (N * V) → result (gmap N nat).
Variable race : list A → nat.

Lemma workers_cons (a : A) (nc : nat) (nthreads : list (A * nat)) :
  workers ((a, nc) :: nthreads) = replicate nc a ++ workers nthreads.
Proof. done. Qed.

Lemma cycle_is_Some (ws : list A) (i : nat) :
  ws ≠ [] → is_Some (cycle ws i).
Proof.
  intros Hne. unfold cycle. apply lookup_lt_is_Some.
  apply Nat.mod_upper_bound. by destruct ws.
Qed.

Lemma zip3_lookup (it : nat → option A) (names : list N) (values : list V) :
  (∀ j, is_Some (it j)) → length names = length values →
  ∀ i0 i n v, names !! i = Some n → values !! i = Some v →
    ∃ a, it (i0 + i) = Some a ∧ zip3 it i0 names values !! i = Some (a, n, v).
Proof.
  intros Hit. revert values.
  induction names as [|n' names IH]; intros [|v' values] Hlen i0 i n v Hn Hv;
    try done.
  simpl. destruct (Hit i0) as [a0 Ha0]. rewrite Ha0.
  destruct i as [|i]; simpl in *.
  - injection Hn as ->. injection Hv as ->. exists a0.
    by rewrite Nat.add_0_r.
  - destruct (IH values ltac:(lia) (S i0) i n v Hn Hv) as (a & Ha & Hz).
    exists a. split; [|done]. by replace (i0 + S i) with (S i0 + i) by lia.
Qed.

Lemma zip3_length (it : nat → option A) (names : list N) (values : list V) :
  (∀ j, is_Some (it j)) → length names = length values →
  ∀ i0, length (zip3 it i0 names values) = length names.
Proof.
  intros Hit. revert values.
  induction names as [|n' names IH]; intros [|v' values] Hlen i0; try done.
  simpl. destruct (Hit i0) as [a0 ->]. simpl. f_equal. apply IH. simpl in Hlen; lia.
Qed.

(** The [i]-th item goes to the worker at position
    [(counter + i) mod len(workers)] of the weighted sequence. *)
Lemma assignment_lookup (nthreads : list (A * nat)) (data : list (N * V))
    (c i : nat) (n : N) (v : V) :
  workers nthreads ≠ [] → data !! i = Some (n, v) →
  ∃ a, workers nthreads !! ((c + i) mod length (workers nthreads)) = Some a
       ∧ assignment nthreads data c !! i = Some (a, n, v).
Proof.
  intros Hne Hi. unfold assignment.
  set (ws := workers nthreads) in *.
  destruct (zip3_lookup (drop_first (c mod length ws) (cycle ws)) data.*1 data.*2
              (λ j, cycle_is_Some ws _ Hne)
              ltac:(by rewrite !length_fmap) 0 i n v) as (a & Ha & Hz).
  - by rewrite list_lookup_fmap, Hi.
  - by rewrite list_lookup_fmap, Hi.
  - exists a. split; [|done].
    unfold drop_first, cycle in Ha. simpl in Ha.
    by rewrite Nat.Div0.add_mod_idemp_l in Ha.
Qed.

Lemma assignment_length (nthreads : list (A * nat)) (data : list (N * V)) (c : nat) :
  workers nthreads ≠ [] → length (assignment nthreads data c) = length data.
Proof.
  intros Hne. unfold assignment. rewrite zip3_length.
  - by rewrite length_fmap.
  - intros j. by apply cycle_is_Some.
  - by rewrite !length_fmap.
Qed.

(** What a call does when neither [data] nor the weighted sequence is
    empty. *)
Lemma scatter_to_workers_unfold (nthreads : list (A * nat)) (data : list (N * V))
    (w : world) :
  workers nthreads ≠ [] → data ≠ [] →
  let L := assignment nthreads data (_round_robin_counter w) in
  let d := per_worker L in
  scatter_to_workers update_data race nthreads data w =
    ({| _round_robin_counter := _round_robin_counter w + length data;
        trace := trace w ++ (map Connect d.*1 ++ map (λ p, UpdateData p.1 p.2) d
                              ++ map CloseRpc d.*1) |},
     out ← All (race d.*1) (map (λ p, update_data p.1 p.2) d);
     Ok (data.*1, placed L, merge out)).
Proof.
  intros Hws Hdata. unfold scatter_to_workers.
  destruct data as [|item data]; [done|].
  destruct (workers nthreads) as [|a ws] eqn:Hw; [done|]. simpl length.
  cbv zeta. by destruct (All _ _).
Qed.

Lemma workers_count (nthreads : list (A * nat)) (a : A) (nc : nat) :
  NoDup nthreads.*1 → (a, nc) ∈ nthreads →
  length (filter (λ w, w = a) (workers nthreads)) = nc.
Proof.
  assert (∀ l : list (A * nat), a ∉ l.*1 →
            filter (λ w, w = a) (workers l) = []) as Hnone.
  { induction l as [|[a' n'] l IH]; [done|]. rewrite fmap_cons.
    intros [Hne Hnot]%not_elem_of_cons. rewrite workers_cons.
    rewrite filter_app, IH, app_nil_r by done. simpl in Hne.
    clear -Hne. induction n' as [|n' IH]; [done|]. simpl.
    rewrite filter_cons_False by done. exact IH. }
  induction nthreads as [|[a' n'] l IH]; intros Hnd Hin.
  - by apply not_elem_of_nil in Hin.
  - rewrite fmap_cons in Hnd. apply NoDup_cons in Hnd as [Hnot Hnd].
    rewrite workers_cons, filter_app, length_app.
    apply elem_of_cons in Hin as [[= <- <-]|Hin].
    + rewrite Hnone by done. simpl. rewrite Nat.add_0_r.
      clear. induction nc as [|nc IH]; [done|]. simpl.
      rewrite filter_cons_True by done. simpl. by rewrite IH.
    + rewrite IH by done.
      assert (a ≠ a') as Hne.
      { intros ->. apply Hnot. apply list_elem_of_fmap. by exists (a', nc). }
      assert (filter (λ w, w = a) (replicate n' a') = []) as ->; [|done].
      clear -Hne. induction n' as [|n' IH]; [done|]. simpl.
      rewrite filter_cons_False by done. exact IH.
Qed.


(** The batches of a call: one for each worker of a triple, with the names
    and values of the triples of that worker, in their order. *)
Lemma per_worker_sent (L : list (A * N * V)) :
  let sent := λ a, map (λ t : A * N * V, (t.1.2, t.2))
                     (filter (λ t : A * N * V, t.1.1 = a) L) in
  NoDup (per_worker L).*1
  ∧ (∀ a, a ∈ (per_worker L).*1 ↔ ∃ t, t ∈ L ∧ t.1.1 = a)
  ∧ per_worker L = map (λ a, (a, sent a)) (per_worker L).*1.
Proof.
  intros sent.
  destruct (groupby_filter (λ t : A * N * V, t.1.1) L) as (Hnd & Hall & Hkeys).
  unfold per_worker.
  assert (∀ G : list (A * list (A * N * V)),
            (map (λ g, (g.1, map (λ t : A * N * V, (t.1.2, t.2)) g.2)) G).*1
              = G.*1) as Hfst.
  { intros G. induction G as [|g G IH]; [done|]. cbn. by f_equal. }
  rewrite Hfst. split_and!; [done|done|].
  clear Hnd Hkeys Hfst. induction Hall as [|[a g] G Hg _ IH]; [done|].
  simpl in Hg. subst g.
  exact (f_equal (cons (a, sent a)) IH).
Qed.

(** The answer's [who_has]: one entry for each name of a triple, with the
    workers of the triples of that name. *)
Lemma placed_workers (L : list (A * N * V)) :
  NoDup (placed L).*1
  ∧ (∀ n, n ∈ (placed L).*1 ↔ ∃ t, t ∈ L ∧ t.1.2 = n)
  ∧ Forall (λ p, p.2 = map (λ t : A * N * V, t.1.1)
                         (filter (λ t : A * N * V, t.1.2 = p.1) L)) (placed L).
Proof.
  destruct (groupby_filter (λ t : A * N * V, t.1.2) L) as (Hnd & Hall & Hkeys).
  unfold placed.
  assert (∀ G : list (N * list (A * N * V)),
            (map (λ g, (g.1, map (λ t : A * N * V, t.1.1) g.2)) G).*1
              = G.*1) as Hfst.
  { intros G. induction G as [|g G IH]; [done|]. cbn. by f_equal. }
  rewrite Hfst. split_and!; [done|done|].
  clear Hnd Hkeys Hfst. induction Hall as [|[n g] G Hg _ IH]; [done|].
  simpl in *. constructor; [simpl; by rewrite Hg|done].
Qed.

(** What a call sends, from wherever the counter stands: to every worker of
    a triple, once, the names and values of its triples. *)
Lemma scatter_sends (nthreads : list (A * nat)) (data : list (N * V))
    (w : world) :
  workers nthreads ≠ [] → data ≠ [] →
  let L := assignment nthreads data (_round_robin_counter w) in
  let call := scatter_to_workers update_data race nthreads data w in
  let sent := λ a, map (λ t : A * N * V, (t.1.2, t.2))
                     (filter (λ t : A * N * V, t.1.1 = a) L) in
  _round_robin_counter call.1 = _round_robin_counter w + length data
  ∧ ∃ addrs, NoDup addrs
      ∧ (∀ a, a ∈ addrs ↔ ∃ t, t ∈ L ∧ t.1.1 = a)
      ∧ trace call.1
        = trace w ++ map Connect addrs
            ++ map (λ a, UpdateData a (sent a)) addrs ++ map CloseRpc addrs.
Proof.
  intros Hws Hdata L call sent.
  assert (call = _) as -> by exact (scatter_to_workers_unfold nthreads data w Hws Hdata).
  split; [done|]. fold L.
  destruct (per_worker_sent L) as (Hnd & Hin & Heq).
  exists (per_worker L).*1. split_and!; [done|done|].
  simpl. do 2 f_equal. rewrite Heq at 1. by rewrite map_map.
Qed.

(** C7: the weighted sequence holds every address as many times as it has
    threads; the item at position [i] of [data] goes to the worker at
    position [(counter mod len + i) mod len] of that sequence; every worker
    that is assigned an item is connected to and sent, in one call of
    [update_data], the names and values of the items assigned to it, and no
    other worker is called; the call leaves the counter advanced by the
    number of items, whatever the workers answer; the answer gives for every
    name the workers of its items; and a second call assigns and sends its
    items from offset [counter + len(data)] on. *)
Theorem scatter_round_robin (nthreads : list (A * nat)) (data : list (N * V))
    (w : world) :
  workers nthreads ≠ [] → data ≠ [] →
  let ws := workers nthreads in
  let c := _round_robin_counter w in
  let L := assignment nthreads data c in
  let call := scatter_to_workers update_data race nthreads data w in
  let sent := λ (L : list (A * N * V)) a,
    map (λ t : A * N * V, (t.1.2, t.2)) (filter (λ t : A * N * V, t.1.1 = a) L) in
  (∀ a nc, NoDup nthreads.*1 → (a, nc) ∈ nthreads →
     length (filter (λ w, w = a) ws) = nc)
  ∧ length L = length data
  ∧ (∀ i n v, data !! i = Some (n, v) →
       ∃ a, ws !! ((c mod length ws + i) mod length ws) = Some a
            ∧ L !! i = Some (a, n, v))
  ∧ (∃ addrs, NoDup addrs
       ∧ (∀ a, a ∈ addrs ↔ ∃ t, t ∈ L ∧ t.1.1 = a)
       ∧ trace call.1
         = trace w ++ map Connect addrs
             ++ map (λ a, UpdateData a (sent L a)) addrs ++ map CloseRpc addrs)
  ∧ _round_robin_counter call.1 = c + length data
  ∧ (∀ names who nbytes, call.2 = Ok (names, who, nbytes) →
       names = data.*1
       ∧ NoDup who.*1
       ∧ (∀ n, n ∈ who.*1 ↔ ∃ t, t ∈ L ∧ t.1.2 = n)
       ∧ Forall (λ p, p.2 = map (λ t : A * N * V, t.1.1)
                              (filter (λ t : A * N * V, t.1.2 = p.1) L)) who)
  ∧ (∀ data', data' ≠ [] →
       let L' := assignment nthreads data' (c + length data) in
       let call' := scatter_to_workers update_data race nthreads data' call.1 in
       (∀ i n v, data' !! i = Some (n, v) →
          ∃ a, ws !! ((c + length data + i) mod length ws) = Some a
               ∧ L' !! i = Some (a, n, v))
       ∧ ∃ addrs, NoDup addrs
           ∧ (∀ a, a ∈ addrs ↔ ∃ t, t ∈ L' ∧ t.1.1 = a)
           ∧ trace call'.1
             = trace call.1 ++ map Connect addrs
                 ++ map (λ a, UpdateData a (sent L' a)) addrs
                 ++ map CloseRpc addrs).
Proof.
  intros Hws Hdata ws c L call sent.
  destruct (scatter_sends nthreads data w Hws Hdata) as (Hc & Hsent).
  split_and!.
  - intros a nc. apply workers_count.
  - by apply assignment_length.
  - intros i n v Hi. rewrite Nat.Div0.add_mod_idemp_l.
    by apply assignment_lookup.
  - exact Hsent.
  - exact Hc.
  - intros names who nbytes Hr. unfold call in Hr.
    rewrite (scatter_to_workers_unfold nthreads data w Hws Hdata) in Hr.
    simpl in Hr. destruct (All _ _); simpl in Hr; [|done].
    injection Hr as <- <- _. fold c L.
    destruct (placed_workers L) as (? & ? & ?). by split_and!.
  - intros data' Hdata' L' call'.
    destruct (scatter_sends nthreads data' call.1 Hws Hdata') as (_ & Hsent').
    fold call in Hc. rewrite Hc in Hsent'. split; [|exact Hsent'].
    intros i n v Hi. by apply assignment_lookup.
Qed.

(** C10: with no data the call raises [ValueError], and with data but no
    worker it raises [ZeroDivisionError]; in both cases the counter and the
    trace of calls to workers are as they were. *)
Theorem scatter_degenerate (nthreads : list (A * nat)) (item : N * V)
    (data : list (N * V)) (w : world) :
  scatter_to_workers update_data race nthreads [] w = (w, Raise ValueError)
  ∧ scatter_to_workers update_data race [] (item :: data) w
      = (w, Raise ZeroDivisionError).
Proof. done. Qed.

End facts.

(** Two workers with two threads and one thread, and two items: the first
    call starts at ["A"], the second one where the first one stopped. *)
Lemma scatter_round_robin_witness :
  let nthreads := [("A", 2); ("B", 1)] in
  let data := [("x", 10); ("y", 20)] in
  let update_data := λ (_ : string) (_ : list (string * nat)), Ok (∅ : gmap string nat) in
  let race := λ _ : list string, 0 in
  let w := {| _round_robin_counter := 0; trace := [] |} in
  workers nthreads ≠ [] ∧ data ≠ []
  ∧ _round_robin_counter (scatter_to_workers update_data race nthreads data w).1 = 2
  ∧ trace (scatter_to_workers update_data race nthreads data w).1
    = [Connect "A"; UpdateData "A" [("x", 10); ("y", 20)]; CloseRpc "A"]
  ∧ (scatter_to_workers update_data race nthreads data
       (scatter_to_workers update_data race nthreads data w).1).2
      = Ok (["x"; "y"], [("x", ["B"]); ("y", ["A"])], ∅).
Proof.
  intros nthreads data update_data race w.
  assert (workers nthreads ≠ []) as Hws by done.
  assert (data ≠ []) as Hdata by done.
  destruct (scatter_round_robin update_data race nthreads data w Hws Hdata)
    as (_ & _ & _ & _ & Hc & _ & _).
  split_and!; [done|done|exact Hc|by vm_compute|by vm_compute].
Defined.

End ScatterFacts.

(** ** WrappedKey, unpack_remotedata and pack_data *)

Module PackingFacts.

Import Packing.

(** Induction over values, with the hypothesis for every element of a
    collection, every key and value of a dictionary and every slot. *)
Section value_induction.

Variable P : value → Prop.

Hypothesis case_Scalar : ∀ a, P (Scalar a).
Hypothesis case_Tuple : ∀ items, Forall P items → P (Tuple items).
Hypothesis case_List : ∀ items, Forall P items → P (List items).
Hypothesis case_PySet : ∀ items, Forall P items → P (PySet items).
Hypothesis case_Frozenset : ∀ items, Forall P items → P (Frozenset items).
Hypothesis case_Dict :
  ∀ items, Forall (λ kv, P kv.1 ∧ P kv.2) items → P (Dict items).
Hypothesis case_Ref : ∀ oid key, P key → P (Ref oid key).
Hypothesis case_Subgraph :
  ∀ dsk outkey inkeys name,
    Forall (λ kv, P kv.1 ∧ P kv.2) dsk → P outkey → P inkeys →
    P (Subgraph dsk outkey inkeys name).

Fixpoint value_ind (o : value) : P o :=
  let all :=
    fix all (items : list value) : Forall P items :=
      match items with
      | [] => List.Forall_nil P
      | x :: items => List.Forall_cons P x items (value_ind x) (all items)
      end in
  let all_items :=
    fix all_items (items : list (value * value))
        : Forall (λ kv, P kv.1 ∧ P kv.2) items :=
      match items with
      | [] => List.Forall_nil _
      | kv :: items =>
          List.Forall_cons _ kv items (conj (value_ind kv.1) (value_ind kv.2))
            (all_items items)
      end in
  match o with
  | Scalar a => case_Scalar a
  | Tuple items => case_Tuple items (all items)
  | List items => case_List items (all items)
  | PySet items => case_PySet items (all items)
  | Frozenset items => case_Frozenset items (all items)
  | Dict items => case_Dict items (all_items items)
  | Ref oid key => case_Ref oid key (value_ind key)
  | Subgraph dsk outkey inkeys name =>
      case_Subgraph dsk outkey inkeys name (all_items dsk) (value_ind outkey)
        (value_ind inkeys)
  end.

End value_induction.

(** A value is the same object as itself, and so a container finds it
    among its elements. *)
Lemma atom_is_refl (a : atom) : atom_is a a = true.
Proof.
  destruct a; simpl; try done; try (by apply bool_decide_eq_true).
  apply Qeq_bool_iff. apply Qeq_refl.
Qed.

Lemma identical_refl (o : value) : identical o o = true.
Proof.
  induction o as [a|items IH|items IH|items IH|items IH|items IH|oid key IH
                  |dsk outkey inkeys name IHd IHo IHi] using value_ind.
  - apply atom_is_refl.
  - simpl. induction IH as [|x items Hx _ IH]; [done|]. by rewrite Hx.
  - simpl. induction IH as [|x items Hx _ IH]; [done|]. by rewrite Hx.
  - simpl. induction IH as [|x items Hx _ IH]; [done|]. by rewrite Hx.
  - simpl. induction IH as [|x items Hx _ IH]; [done|]. by rewrite Hx.
  - simpl. induction IH as [|x items [Hk Hv] _ IH]; [done|]. by rewrite Hk, Hv.
  - simpl. by apply bool_decide_eq_true.
  - simpl. rewrite bool_decide_eq_true_2 by done. rewrite IHo, IHi. simpl.
    induction IHd as [|x items [Hk Hv] _ IH]; [done|]. by rewrite Hk, Hv.
Qed.

Lemma is_or_eq_refl (o : value) : is_or_eq o o = true.
Proof. unfold is_or_eq. by rewrite identical_refl. Qed.

Lemma member_self (x : value) (items : list value) :
  x ∈ items → member x items = true.
Proof.
  intros Hin. apply existsb_exists. exists x.
  split; [by apply list_elem_of_In|apply is_or_eq_refl].
Qed.

(** Python's [==] holds between a container and itself, and between a
    scalar and itself unless it is a float that is not a number. *)
Lemma py_eq_self (o : value) :
  match o with
  | Scalar (ANaN _) => py_eq o o = false
  | Ref _ _ | Subgraph _ _ _ _ => True
  | _ => py_eq o o = true
  end.
Proof.
  destruct o as [a|items|items|items|items|items|oid key|dsk outkey inkeys name];
    try done.
  - destruct a; simpl; try done; try (by apply bool_decide_eq_true);
      apply Qeq_bool_iff; apply Qeq_refl.
  - simpl. induction items as [|x items IH]; [done|].
    by rewrite identical_refl.
  - simpl. induction items as [|x items IH]; [done|].
    by rewrite identical_refl.
  - simpl. rewrite bool_decide_eq_true_2 by done. simpl.
    apply forallb_forall. intros x Hx. apply list_elem_of_In in Hx.
    by apply (member_self x items).
  - simpl. rewrite bool_decide_eq_true_2 by done. simpl.
    apply forallb_forall. intros x Hx. apply list_elem_of_In in Hx.
    by apply (member_self x items).
  - simpl. rewrite bool_decide_eq_true_2 by done. simpl.
    apply forallb_forall. intros kv Hkv. apply existsb_exists. exists kv.
    split; [done|]. by rewrite !identical_refl.
Qed.

(** *** The examples of the docstrings *)

Section docstrings.

Local Open Scope string_scope.

Let rd : value := Ref 0 (Scalar (AStr "mykey")).
Let one : value := Scalar (AInt 1).
Let str (s : string) : value := Scalar (AStr s).

Example unpack_remotedata_1 :
  unpack_remotedata true id one false 10 = Ok (one, []).
Proof. reflexivity. Qed.

Example unpack_remotedata_empty_tuple :
  unpack_remotedata true id (Tuple []) false 10 = Ok (Tuple [], []).
Proof. reflexivity. Qed.

Example unpack_remotedata_rd :
  unpack_remotedata true id rd false 10 = Ok (str "mykey", [(0, str "mykey")]).
Proof. reflexivity. Qed.

Example unpack_remotedata_list :
  unpack_remotedata true id (List [one; rd]) false 10
    = Ok (List [one; str "mykey"], [(0, str "mykey")]).
Proof. reflexivity. Qed.

Example unpack_remotedata_dict :
  unpack_remotedata true id (Dict [(one, List [rd])]) false 10
    = Ok (Dict [(one, List [str "mykey"])], [(0, str "mykey")]).
Proof. reflexivity. Qed.

Example pack_data_tuple :
  pack_data true object (Tuple [str "x"; str "y"]) [(str "x", one)] 10
    = Ok (Tuple [one; str "y"]).
Proof. reflexivity. Qed.

Example pack_data_dict :
  pack_data true object (Dict [(str "a", List [str "x"]); (str "b", str "y")])
    [(str "x", one)] 10
    = Ok (Dict [(str "a", List [one]); (str "b", str "y")]).
Proof. reflexivity. Qed.

(** A tuple that begins with a [SubgraphCallable]: the references found in
    its graph and in its arguments become further input keys and further
    arguments; when the input keys are a list, their sum with the tuple of
    the keys found raises. *)
Example unpack_remotedata_subgraph :
  unpack_remotedata true id
    (Tuple [Subgraph [(str "out", rd)] (str "out") (Tuple [str "a"]) "sc"; one])
    false 10
  = Ok (Tuple [Subgraph [(str "out", str "mykey")] (str "out")
                 (Tuple [str "a"; str "mykey"]) "sc"; one; str "mykey"],
        [(0, str "mykey")]).
Proof. reflexivity. Qed.

Example unpack_remotedata_subgraph_list :
  unpack_remotedata true id
    (Tuple [Subgraph [(str "out", rd)] (str "out") (List [str "a"]) "sc"; one])
    false 10
  = Raise TypeError.
Proof. reflexivity. Qed.

End docstrings.

(** *** WrappedKey *)

(** C3 fails: two handles for the key ['mykey'] that are two objects have
    the same key and are not equal. *)
Lemma WrappedKey_same_key_not_equal :
  py_eq (Scalar (AStr "mykey")) (Scalar (AStr "mykey")) = true
  ∧ py_eq (Ref 1 (Scalar (AStr "mykey"))) (Ref 2 (Scalar (AStr "mykey"))) = false.
Proof. by vm_compute. Qed.

(** C3 as the code has it: two handles are equal exactly when they are the
    same object, whatever their keys, and the hash of a handle is that of the
    object, whatever its key. *)
Theorem WrappedKey_eq_by_identity (address_hash : nat → Z) (i j : nat)
    (k k' : value) :
  (py_eq (Ref i k) (Ref j k') = true ↔ i = j)
  ∧ WrappedKey_hash address_hash i k = WrappedKey_hash address_hash i k'.
Proof. split; [apply bool_decide_eq_true|done]. Qed.
(** *** Frames *)

Lemma max_list_map_le {X : Type} (f : X → nat) (l : list X) (x : X) :
  x ∈ l → f x ≤ max_list (map f l).
Proof.
  intros Hin. apply max_list_elem_of_le. apply list_elem_of_fmap. by exists x.
Qed.

Lemma depth_Tuple (items : list value) (x : value) :
  x ∈ items → depth x < depth (Tuple items).
Proof.
  intros Hin. pose proof (max_list_map_le depth items x Hin) as Hle.
  destruct items as [|[] rest]; simpl in *; lia.
Qed.

Lemma depth_graph dsk outkey inkeys name (rest : list value) (kv : value * value) :
  kv ∈ dsk → depth kv.2 < depth (Tuple (Subgraph dsk outkey inkeys name :: rest)).
Proof.
  intros Hin. pose proof (max_list_map_le (λ kv, depth kv.2) dsk kv Hin).
  simpl in *. lia.
Qed.

Lemma depth_List (items : list value) (x : value) :
  x ∈ items → depth x < depth (List items).
Proof.
  intros Hin. pose proof (max_list_map_le depth items x Hin). simpl. lia.
Qed.

Lemma depth_PySet (items : list value) (x : value) :
  x ∈ items → depth x < depth (PySet items).
Proof.
  intros Hin. pose proof (max_list_map_le depth items x Hin). simpl. lia.
Qed.

Lemma depth_Frozenset (items : list value) (x : value) :
  x ∈ items → depth x < depth (Frozenset items).
Proof.
  intros Hin. pose proof (max_list_map_le depth items x Hin). simpl. lia.
Qed.

Lemma depth_Dict (items : list (value * value)) (kv : value * value) :
  kv ∈ items → depth kv.2 < depth (Dict items).
Proof.
  intros Hin. pose proof (max_list_map_le (λ kv, depth kv.2) items kv Hin).
  simpl in *. lia.
Qed.

Lemma depth_collection (o : value) :
  match o with
  | Tuple _ | List _ | PySet _ | Frozenset _ | Dict _ => 0 < depth o
  | _ => depth o = 0
  end.
Proof. destruct o as [| [|[] ?] | | | | | |]; simpl; lia. Qed.

(** Two nested frames are there when the recursion limit is beyond a depth
    that is not 0. *)
Lemma frames_left (n m frames : nat) :
  n < m → 2 * m + 1 ≤ frames →
  ∃ frames', frames = S (S frames') ∧ 2 * n + 1 ≤ frames'.
Proof.
  intros Hn Hm. destruct frames as [|[|frames']]; [lia..|].
  exists frames'. split; [done|lia].
Qed.

(** *** Values without references *)

Section plain.

Variable subgraph_hashable : bool.
Variable tokey : value → value.

Local Abbreviation hashable := (hashable subgraph_hashable).
Local Abbreviation wf := (wf subgraph_hashable).
Local Abbreviation elements_of := (elements_of subgraph_hashable).
Local Abbreviation unpack := (unpack subgraph_hashable tokey).
Local Abbreviation pack_data := (pack_data subgraph_hashable).
Local Abbreviation untouched := (untouched subgraph_hashable tokey).

Lemma all_new_foldl (items seen : list value) :
  all_new seen items = true →
  foldl (λ s x, if member x s then s else s ++ [x]) seen items = seen ++ items.
Proof.
  revert seen. induction items as [|x items IH]; intros seen Hnew; simpl.
  - by rewrite app_nil_r.
  - simpl in Hnew. apply andb_true_iff in Hnew as [Hx Hnew].
    apply negb_true_iff in Hx. rewrite Hx, IH by done.
    by rewrite <- app_assoc.
Qed.

(** Rebuilding a set from its own elements gives the same elements. *)
Lemma elements_of_set (items : list value) :
  forallb hashable items = true → all_new [] items = true →
  elements_of items = Ok items.
Proof.
  intros Hh Hnew. unfold Packing.elements_of. rewrite Hh.
  by rewrite all_new_foldl.
Qed.

Lemma each_same {S : Type} (f : value → S → result (value * S))
    (items : list value) (s : S) :
  Forall (λ x, f x s = Ok (x, s)) items → each f items s = Ok (items, s).
Proof.
  induction 1 as [|x items Hx _ IH]; simpl; [done|]. rewrite Hx. simpl.
  by rewrite IH.
Qed.

Lemma each_value_same {S : Type} (f : value → S → result (value * S))
    (items : list (value * value)) (s : S) :
  Forall (λ kv, f kv.2 s = Ok (kv.2, s)) items →
  each_value f items s = Ok (items, s).
Proof.
  induction 1 as [|[k v] items Hx _ IH]; simpl; [done|]. simpl in Hx.
  rewrite Hx. simpl. by rewrite IH.
Qed.

Lemma list_of_same (f : value → result value) (items : list value) :
  Forall (λ x, f x = Ok x) items → list_of f items = Ok items.
Proof.
  induction 1 as [|x items Hx _ IH]; simpl; [done|]. rewrite Hx. simpl.
  by rewrite IH.
Qed.

Lemma dict_of_same (f : value → result value) (items : list (value * value)) :
  Forall (λ kv, f kv.2 = Ok kv.2) items → dict_of f items = Ok items.
Proof.
  induction 1 as [|[k v] items Hx _ IH]; simpl; [done|]. simpl in Hx.
  rewrite Hx. simpl. by rewrite IH.
Qed.

Lemma forallb_Forall {X : Type} (f : X → bool) (l : list X) :
  forallb f l = true → Forall (λ x, f x = true) l.
Proof.
  induction l as [|x l IH]; simpl; [done|].
  intros [? ?]%andb_true_iff. constructor; auto.
Qed.

Lemma existsb_Forall {X : Type} (f : X → bool) (l : list X) :
  existsb f l = false → Forall (λ x, f x = false) l.
Proof.
  induction l as [|x l IH]; simpl; [done|].
  intros [? ?]%orb_false_iff. constructor; auto.
Qed.

Lemma Forall_guarded {X : Type} (G P : X → Prop) (l : list X) :
  Forall (λ x, G x → P x) l → Forall G l → Forall P l.
Proof.
  induction 1 as [|x l Hx _ IH]; [done|].
  intros HG. inversion HG; subst. constructor; auto.
Qed.

Lemma Forall_guarded_values {X : Type} (G P : X → Prop) (l : list (X * X)) :
  Forall (λ kv, (G kv.1 → P kv.1) ∧ (G kv.2 → P kv.2)) l →
  Forall (λ kv, G kv.2) l → Forall (λ kv, P kv.2) l.
Proof.
  induction 1 as [|x l [_ Hx] _ IH]; [done|].
  intros HG. inversion HG; subst. constructor; auto.
Qed.

Lemma forallb_wf_values (wf : value → bool) (items : list (value * value)) :
  forallb (λ kv, wf kv.1 && wf kv.2) items = true →
  Forall (λ kv, wf kv.2 = true) items.
Proof.
  intros Hwf%forallb_Forall. eapply Forall_impl; [exact Hwf|].
  by intros kv [_ ?]%andb_true_iff.
Qed.

Lemma untouched_items byte_keys (items : list value) :
  Forall (untouched byte_keys) items →
  forallb wf items = true → existsb (has_ref) items = false →
  ∀ myset frames, (∀ x, x ∈ items → 2 * depth x + 1 ≤ frames) →
    each (λ i s, unpack byte_keys i s frames) items myset = Ok (items, myset).
Proof.
  intros IH Hwf Href myset frames Hfr. apply each_same.
  apply forallb_Forall in Hwf. apply existsb_Forall in Href.
  apply Forall_forall. intros x Hx.
  apply (proj1 (Forall_forall _ _) IH x Hx).
  - by apply (proj1 (Forall_forall _ _) Hwf x Hx).
  - by apply (proj1 (Forall_forall _ _) Href x Hx).
  - by apply Hfr.
Qed.

Lemma untouched_values byte_keys (items : list (value * value)) :
  Forall (λ kv, untouched byte_keys kv.2) items →
  forallb (λ kv, wf kv.1 && wf kv.2) items = true →
  existsb (λ kv, has_ref kv.1 || has_ref kv.2) items = false →
  ∀ myset frames, (∀ kv, kv ∈ items → 2 * depth kv.2 + 1 ≤ frames) →
    each_value (λ v s, unpack byte_keys v s frames) items myset
      = Ok (items, myset).
Proof.
  intros IH Hwf Href myset frames Hfr. apply each_value_same.
  apply forallb_Forall in Hwf. apply existsb_Forall in Href.
  apply Forall_forall. intros kv Hkv.
  apply (proj1 (Forall_forall _ _) IH kv Hkv).
  - pose proof (proj1 (Forall_forall _ _) Hwf kv Hkv) as H. simpl in H.
    by apply andb_true_iff in H as [_ ?].
  - pose proof (proj1 (Forall_forall _ _) Href kv Hkv) as H. simpl in H.
    by apply orb_false_iff in H as [_ ?].
  - by apply Hfr.
Qed.

Lemma unpack_Tuple byte_keys (x : value) (items : list value) myset frames :
  (∀ dsk outkey inkeys name, x ≠ Subgraph dsk outkey inkeys name) →
  unpack byte_keys (Tuple (x :: items)) myset (S frames)
    = (outs ← frame frames (λ frames,
                each (λ i s, unpack byte_keys i s frames) (x :: items) myset);
       Ok (Tuple outs.1, outs.2)).
Proof.
  intros Hx. destruct x as [| | | | | | |dsk outkey inkeys name]; try done.
  by destruct (Hx dsk outkey inkeys name).
Qed.

Lemma unpack_untouched byte_keys (o : value) :
  untouched byte_keys o
  ∧ match o with
    | Subgraph dsk _ _ _ => Forall (λ kv, untouched byte_keys kv.2) dsk
    | _ => True
    end.
Proof.
  induction o as [a|items IH|items IH|items IH|items IH|items IH|oid key IH
                  |dsk outkey inkeys name IHd IHo IHi] using value_ind.
  - split; [|done]. intros _ _ myset frames Hfr.
    destruct frames; [lia|done].
  - split; [|done]. intros Hwf Href myset frames Hfr. simpl in Hwf, Href.
    destruct items as [|x items]; [destruct frames; [lia|done]|].
    assert (Forall (untouched byte_keys) (x :: items)) as IH'
      by (eapply Forall_impl; [exact IH|by intros ? [? _]]).
    destruct (frames_left (depth x) _ frames
                (depth_Tuple (x :: items) x ltac:(left)) Hfr)
      as (frames' & -> & _).
    assert (∀ y, y ∈ x :: items → 2 * depth y + 1 ≤ frames') as Hfr'
      by (intros y Hy%depth_Tuple; lia).
    assert ((∃ dsk outkey inkeys name, x = Subgraph dsk outkey inkeys name)
            ∨ (∀ dsk outkey inkeys name, x ≠ Subgraph dsk outkey inkeys name))
      as [(dsk & outkey & inkeys & name & ->)|Hx]
      by (destruct x; first [by right|left; by eauto 6]).
    + inversion IH as [|? ? [_ Hdsk] _]; subst.
      simpl in Hwf, Href.
      apply andb_true_iff in Hwf as [[[Hd _]%andb_true_iff _]%andb_true_iff Hwf].
      apply orb_false_iff in Href as [[[Hrd _]%orb_false_iff _]%orb_false_iff Href].
      inversion IH'; subst.
      cbn [Packing.unpack frame].
      rewrite (untouched_values byte_keys dsk Hdsk Hd Hrd).
      2:{ intros kv Hkv.
          pose proof (depth_graph dsk outkey inkeys name items kv Hkv). lia. }
      simpl.
      rewrite (untouched_items byte_keys items); [done..|].
      intros y Hy. apply Hfr'. by right.
    + rewrite unpack_Tuple by done. cbn [frame].
      by rewrite (untouched_items byte_keys (x :: items)) by done.
  - split; [|done]. intros Hwf Href myset frames Hfr. simpl in Hwf, Href.
    assert (Forall (untouched byte_keys) items) as IH'
      by (eapply Forall_impl; [exact IH|by intros ? [? _]]).
    destruct items as [|x items]; [destruct frames; [lia|done]|].
    destruct (frames_left (depth x) _ frames
                (depth_List (x :: items) x ltac:(left)) Hfr)
      as (frames' & -> & _).
    assert (∀ y, y ∈ x :: items → 2 * depth y + 1 ≤ frames') as Hfr'
      by (intros y Hy%depth_List; lia).
    cbn [Packing.unpack frame].
    by rewrite (untouched_items byte_keys (x :: items)) by done.
  - split; [|done]. intros Hwf Href myset frames Hfr. simpl in Hwf, Href.
    assert (Forall (untouched byte_keys) items) as IH'
      by (eapply Forall_impl; [exact IH|by intros ? [? _]]).
    apply andb_true_iff in Hwf as [[Hwf Hh]%andb_true_iff Hnew].
    destruct items as [|x items]; [destruct frames; [lia|done]|].
    destruct (frames_left (depth x) _ frames
                (depth_PySet (x :: items) x ltac:(left)) Hfr)
      as (frames' & -> & _).
    assert (∀ y, y ∈ x :: items → 2 * depth y + 1 ≤ frames') as Hfr'
      by (intros y Hy%depth_PySet; lia).
    cbn [Packing.unpack frame].
    rewrite (untouched_items byte_keys (x :: items)) by done. simpl.
    by rewrite elements_of_set.
  - split; [|done]. intros Hwf Href myset frames Hfr. simpl in Hwf, Href.
    assert (Forall (untouched byte_keys) items) as IH'
      by (eapply Forall_impl; [exact IH|by intros ? [? _]]).
    apply andb_true_iff in Hwf as [[Hwf Hh]%andb_true_iff Hnew].
    destruct items as [|x items]; [destruct frames; [lia|done]|].
    destruct (frames_left (depth x) _ frames
                (depth_Frozenset (x :: items) x ltac:(left)) Hfr)
      as (frames' & -> & _).
    assert (∀ y, y ∈ x :: items → 2 * depth y + 1 ≤ frames') as Hfr'
      by (intros y Hy%depth_Frozenset; lia).
    cbn [Packing.unpack frame].
    rewrite (untouched_items byte_keys (x :: items)) by done. simpl.
    by rewrite elements_of_set.
  - split; [|done]. intros Hwf Href myset frames Hfr. simpl in Hwf, Href.
    assert (Forall (λ kv, untouched byte_keys kv.2) items) as IH'
      by (eapply Forall_impl; [exact IH|by intros ? [_ [? _]]]).
    apply andb_true_iff in Hwf as [[Hwf Hh]%andb_true_iff Hnew].
    destruct items as [|x items]; [destruct frames; [lia|done]|].
    destruct (frames_left (depth x.2) _ frames
                (depth_Dict (x :: items) x ltac:(left)) Hfr)
      as (frames' & -> & _).
    assert (∀ kv, kv ∈ x :: items → 2 * depth kv.2 + 1 ≤ frames') as Hfr'
      by (intros y Hy%depth_Dict; lia).
    cbn [Packing.unpack frame].
    by rewrite (untouched_values byte_keys (x :: items)) by done.
  - split; [|done]. by intros _ Href.
  - split; [by intros _ _ myset [|frames] ?; [lia|]|].
    eapply Forall_impl; [exact IHd|by intros ? [_ [? _]]].
Qed.

Lemma known_empty key_types (o : value) :
  known subgraph_hashable key_types [] o = None.
Proof. unfold known. destruct (key_types o), (hashable o); done. Qed.

(** With nothing known, [pack_data] rebuilds a value as it is. *)
Lemma pack_data_empty key_types (o : value) :
  wf o = true → ∀ frames, 2 * depth o + 1 ≤ frames →
  pack_data key_types o [] frames = Ok o.
Proof.
  induction o as [a|items IH|items IH|items IH|items IH|items IH|oid key IH
                  |dsk outkey inkeys name IHd IHo IHi] using value_ind;
    intros Hwf frames Hfr;
    (destruct frames as [|frames]; [lia|]);
    cbn [Packing.pack_data frame]; rewrite known_empty; try done;
    (destruct frames as [|frames];
       [match type of Hfr with
        | 2 * depth ?o + 1 ≤ _ =>
            pose proof (depth_collection o) as Hc; cbv beta iota in Hc; lia
        end|]);
    cbn [frame]; simpl in Hwf.
  - rewrite list_of_same; [done|].
    apply forallb_Forall in Hwf. apply Forall_forall. intros x Hx.
    apply (proj1 (Forall_forall _ _) IH x Hx).
    + by apply (proj1 (Forall_forall _ _) Hwf x Hx).
    + apply depth_Tuple in Hx. lia.
  - rewrite list_of_same; [done|].
    apply forallb_Forall in Hwf. apply Forall_forall. intros x Hx.
    apply (proj1 (Forall_forall _ _) IH x Hx).
    + by apply (proj1 (Forall_forall _ _) Hwf x Hx).
    + apply depth_List in Hx. lia.
  - apply andb_true_iff in Hwf as [[Hwf Hh]%andb_true_iff Hnew].
    rewrite list_of_same; [simpl; by rewrite elements_of_set|].
    apply forallb_Forall in Hwf. apply Forall_forall. intros x Hx.
    apply (proj1 (Forall_forall _ _) IH x Hx).
    + by apply (proj1 (Forall_forall _ _) Hwf x Hx).
    + apply depth_PySet in Hx. lia.
  - apply andb_true_iff in Hwf as [[Hwf Hh]%andb_true_iff Hnew].
    rewrite list_of_same; [simpl; by rewrite elements_of_set|].
    apply forallb_Forall in Hwf. apply Forall_forall. intros x Hx.
    apply (proj1 (Forall_forall _ _) IH x Hx).
    + by apply (proj1 (Forall_forall _ _) Hwf x Hx).
    + apply depth_Frozenset in Hx. lia.
  - apply andb_true_iff in Hwf as [[Hwf Hh]%andb_true_iff Hnew].
    rewrite dict_of_same; [done|].
    apply forallb_wf_values in Hwf. apply Forall_forall. intros kv Hkv.
    apply (proj1 (Forall_forall _ _) IH kv Hkv).
    + by apply (proj1 (Forall_forall _ _) Hwf kv Hkv).
    + apply depth_Dict in Hkv. lia.
Qed.

(** *** Exceptions of pack_data *)

Section total.

Variable key_types : value → bool.
Variable d : list (value * value).

Local Abbreviation visited := (visited subgraph_hashable key_types d).
Local Abbreviation unhashable_set := (unhashable_set subgraph_hashable key_types d).

Lemma bind_Ok {X Y : Type} (r : result X) (k : X → result Y) (y : Y) :
  r ≫= k = Ok y → ∃ x, r = Ok x ∧ k x = Ok y.
Proof. destruct r as [x|e]; [|done]. intros Hk. by exists x. Qed.

Lemma bind_Raise {X Y : Type} (r : result X) (k : X → result Y) (e : exn) :
  r ≫= k = Raise e → r = Raise e ∨ ∃ x, r = Ok x ∧ k x = Raise e.
Proof.
  destruct r as [x|e']; intros Hk; [right; by exists x|].
  left. simpl in Hk. congruence.
Qed.

Lemma elements_of_Raise (outs : list value) (e : exn) :
  elements_of outs = Raise e → e = TypeError ∧ forallb hashable outs = false.
Proof.
  unfold Packing.elements_of. destruct (forallb _ outs); [done|].
  by intros [= <-].
Qed.

Lemma list_of_Raise (f : value → result value) (items : list value) (e : exn) :
  list_of f items = Raise e → ∃ x, x ∈ items ∧ f x = Raise e.
Proof.
  induction items as [|x items IH]; simpl; [done|].
  intros [Hx|(y & Hy & Hr)]%bind_Raise.
  - exists x. split; [left|done].
  - apply bind_Raise in Hr as [Hr|(ys & _ & Hr)]; [|done].
    destruct (IH Hr) as (x' & Hin & Hx'). exists x'. split; [by right|done].
Qed.

Lemma dict_of_Raise (f : value → result value) (items : list (value * value))
    (e : exn) :
  dict_of f items = Raise e → ∃ kv, kv ∈ items ∧ f kv.2 = Raise e.
Proof.
  induction items as [|[k x] items IH]; simpl; [done|].
  intros [Hx|(y & Hy & Hr)]%bind_Raise.
  - exists (k, x). split; [left|done].
  - apply bind_Raise in Hr as [Hr|(ys & _ & Hr)]; [|done].
    destruct (IH Hr) as (x' & Hin & Hx'). exists x'. split; [by right|done].
Qed.

(** When one element raises and no element raises anything but [E], the
    comprehension raises [E]. *)
Lemma list_of_raises (f : value → result value) (items : list value)
    (E : exn) :
  (∀ x e, x ∈ items → f x = Raise e → e = E) →
  (∃ x e, x ∈ items ∧ f x = Raise e) → list_of f items = Raise E.
Proof.
  intros Hall (x & e & Hin & Hx).
  destruct (list_of f items) as [outs|e'] eqn:Hl.
  - exfalso. clear Hall. revert outs Hl.
    induction items as [|y items IH]; intros outs Hl;
      [by apply not_elem_of_nil in Hin|].
    simpl in Hl. apply bind_Ok in Hl as (v & Hv & Hl).
    apply bind_Ok in Hl as (vs & Hvs & _).
    apply elem_of_cons in Hin as [->|Hin]; [congruence|by eapply IH].
  - apply list_of_Raise in Hl as (y & Hy & Hr). by rewrite (Hall y e' Hy Hr).
Qed.

Lemma dict_of_raises (f : value → result value) (items : list (value * value))
    (E : exn) :
  (∀ kv e, kv ∈ items → f kv.2 = Raise e → e = E) →
  (∃ kv e, kv ∈ items ∧ f kv.2 = Raise e) → dict_of f items = Raise E.
Proof.
  intros Hall (x & e & Hin & Hx).
  destruct (dict_of f items) as [outs|e'] eqn:Hl.
  - exfalso. clear Hall. revert outs Hl.
    induction items as [|[k y] items IH]; intros outs Hl;
      [by apply not_elem_of_nil in Hin|].
    simpl in Hl. apply bind_Ok in Hl as (v & Hv & Hl).
    apply bind_Ok in Hl as (vs & Hvs & _).
    apply elem_of_cons in Hin as [->|Hin]; [simpl in Hx; congruence|by eapply IH].
  - apply dict_of_Raise in Hl as (y & Hy & Hr). by rewrite (Hall y e' Hy Hr).
Qed.

Lemma list_of_mono (f g : value → result value) (items outs : list value) :
  Forall (λ x, ∀ v, f x = Ok v → g x = Ok v) items →
  list_of f items = Ok outs → list_of g items = Ok outs.
Proof.
  intros Hall. revert outs.
  induction Hall as [|x items Hx _ IH]; intros outs Hl; simpl in *; [done|].
  apply bind_Ok in Hl as (v & Hv & Hl).
  apply bind_Ok in Hl as (vs & Hvs & Hl).
  by rewrite (Hx v Hv), (IH vs Hvs).
Qed.

Lemma dict_of_mono (f g : value → result value)
    (items outs : list (value * value)) :
  Forall (λ kv, ∀ v, f kv.2 = Ok v → g kv.2 = Ok v) items →
  dict_of f items = Ok outs → dict_of g items = Ok outs.
Proof.
  intros Hall. revert outs.
  induction Hall as [|[k x] items Hx _ IH]; intros outs Hl; simpl in *; [done|].
  apply bind_Ok in Hl as (v & Hv & Hl).
  apply bind_Ok in Hl as (vs & Hvs & Hl).
  by rewrite (Hx v Hv), (IH vs Hvs).
Qed.

Lemma frame_Ok {X : Type} (frames : nat) (body : nat → result X) (x : X) :
  frame frames body = Ok x → ∃ frames', frames = S frames' ∧ body frames' = Ok x.
Proof. destruct frames as [|frames']; [done|]. intros Hb. by exists frames'. Qed.

(** What [pack_data] returns, it returns with more frames too. *)
Lemma pack_data_mono (o : value) :
  ∀ frames frames' v, frames ≤ frames' →
    pack_data key_types o d frames = Ok v →
    pack_data key_types o d frames' = Ok v.
Proof.
  induction o as [a|items IH|items IH|items IH|items IH|items IH|oid key IH
                  |dsk outkey inkeys name IHd IHo IHi] using value_ind;
    intros frames frames' v Hle Hp;
    (destruct frames as [|frames]; [done|]);
    (destruct frames' as [|frames']; [lia|]);
    cbn [Packing.pack_data frame] in *;
    destruct (known _ _ _ _) as [w|]; try done;
    apply bind_Ok in Hp as (outs & Houts & Hp);
    apply frame_Ok in Houts as (f1 & -> & Houts);
    (destruct frames' as [|f1']; [lia|]); cbn [frame].
  - assert (list_of (λ x, pack_data key_types x d f1') items = Ok outs) as ->;
      [|done].
    eapply list_of_mono; [|exact Houts].
    eapply Forall_impl; [exact IH|]. intros x Hx w. apply Hx. lia.
  - assert (list_of (λ x, pack_data key_types x d f1') items = Ok outs) as ->;
      [|done].
    eapply list_of_mono; [|exact Houts].
    eapply Forall_impl; [exact IH|]. intros x Hx w. apply Hx. lia.
  - assert (list_of (λ x, pack_data key_types x d f1') items = Ok outs) as ->;
      [|done].
    eapply list_of_mono; [|exact Houts].
    eapply Forall_impl; [exact IH|]. intros x Hx w. apply Hx. lia.
  - assert (list_of (λ x, pack_data key_types x d f1') items = Ok outs) as ->;
      [|done].
    eapply list_of_mono; [|exact Houts].
    eapply Forall_impl; [exact IH|]. intros x Hx w. apply Hx. lia.
  - assert (dict_of (λ x, pack_data key_types x d f1') items = Ok outs) as ->;
      [|done].
    eapply dict_of_mono; [|exact Houts].
    eapply Forall_impl; [exact IH|]. intros x [_ Hx] w. apply Hx. lia.
Qed.

Lemma list_of_agree (items outs outs' : list value) (f1 f2 : nat) :
  list_of (λ x, pack_data key_types x d f1) items = Ok outs →
  list_of (λ x, pack_data key_types x d f2) items = Ok outs' →
  outs = outs'.
Proof.
  intros H1 H2.
  assert (list_of (λ x, pack_data key_types x d (f1 `max` f2)) items = Ok outs)
    as H1'.
  { eapply list_of_mono; [|exact H1]. apply Forall_forall. intros x _ v.
    apply pack_data_mono. lia. }
  assert (list_of (λ x, pack_data key_types x d (f1 `max` f2)) items = Ok outs')
    as H2'.
  { eapply list_of_mono; [|exact H2]. apply Forall_forall. intros x _ v.
    apply pack_data_mono. lia. }
  congruence.
Qed.

Lemma Exists_flat_map {X Y : Type} (P : Y → Prop) (f : X → list Y) (l : list X) :
  Exists P (flat_map f l) ↔ ∃ x, x ∈ l ∧ Exists P (f x).
Proof.
  induction l as [|x l IH]; simpl.
  - split; [by intros ?%Exists_nil|]. by intros (x & ?%not_elem_of_nil & _).
  - rewrite Exists_app, IH. split.
    + intros [Hx|(y & Hy & Hex)]; [exists x; split; [left|done]|].
      exists y. split; [by right|done].
    + intros (y & [->|Hy]%elem_of_cons & Hex); [by left|right; by exists y].
Qed.
Local Abbreviation raises_exactly := (raises_exactly subgraph_hashable key_types d).
Local Abbreviation needs := (needs subgraph_hashable key_types d).

Lemma needs_collection (o : value) :
  known subgraph_hashable key_types d o = None →
  needs o
  = match o with
    | Tuple items | List items | PySet items | Frozenset items =>
        2 + max_list (map needs items)
    | Dict items => 2 + max_list (map (λ kv, needs kv.2) items)
    | _ => 1
    end.
Proof. intros Hk. destruct o; cbn [Packing.needs]; by rewrite Hk. Qed.

Lemma needs_known (o w : value) :
  known subgraph_hashable key_types d o = Some w → needs o = 1.
Proof. intros Hk. destruct o; cbn [Packing.needs]; by rewrite Hk. Qed.

Lemma visited_known (o v : value) :
  known subgraph_hashable key_types d o = Some v →
  ¬ Exists unhashable_set (visited o).
Proof.
  intros Hk Hex. destruct o; simpl in Hex; rewrite Hk in Hex;
    apply Exists_cons in Hex as [[Hn _]|Hex%Exists_nil]; congruence.
Qed.

Lemma unhashable_set_is_set (o : value) :
  unhashable_set o → ∃ items, o = PySet items ∨ o = Frozenset items.
Proof. intros (_ & items & Ho & _). by exists items. Qed.

(** The elements of a collection: one of them raises [TypeError] exactly
    when a set is reached from one of them whose elements have become
    unhashable, and then the comprehension raises [TypeError]. *)
Lemma list_of_raises_exactly (items : list value) (frames : nat) :
  Forall raises_exactly items →
  (∀ x, x ∈ items → needs x ≤ frames) →
  (∀ e, list_of (λ x, pack_data key_types x d frames) items = Raise e →
     e = TypeError)
  ∧ (list_of (λ x, pack_data key_types x d frames) items = Raise TypeError
     ↔ Exists unhashable_set (flat_map visited items)).
Proof.
  intros IH Hfr.
  assert (∀ x e, x ∈ items → pack_data key_types x d frames = Raise e →
            e = TypeError) as Hall.
  { intros x e Hx Hr.
    by apply (proj1 (proj1 (Forall_forall _ _) IH x Hx frames (Hfr x Hx))). }
  split.
  - intros e (x & Hx & Hr)%list_of_Raise. by eapply Hall.
  - rewrite Exists_flat_map. split.
    + intros (x & Hx & Hr)%list_of_Raise. exists x. split; [done|].
      by apply (proj2 (proj1 (Forall_forall _ _) IH x Hx frames (Hfr x Hx))).
    + intros (x & Hx & Hex). apply list_of_raises; [done|].
      exists x, TypeError. split; [done|].
      by apply (proj2 (proj1 (Forall_forall _ _) IH x Hx frames (Hfr x Hx))).
Qed.

Lemma dict_of_raises_exactly (items : list (value * value)) (frames : nat) :
  Forall (λ kv, raises_exactly kv.2) items →
  (∀ kv, kv ∈ items → needs kv.2 ≤ frames) →
  (∀ e, dict_of (λ x, pack_data key_types x d frames) items = Raise e →
     e = TypeError)
  ∧ (dict_of (λ x, pack_data key_types x d frames) items = Raise TypeError
     ↔ Exists unhashable_set (flat_map (λ kv, visited kv.2) items)).
Proof.
  intros IH Hfr.
  assert (∀ kv e, kv ∈ items → pack_data key_types kv.2 d frames = Raise e →
            e = TypeError) as Hall.
  { intros x e Hx Hr.
    by apply (proj1 (proj1 (Forall_forall _ _) IH x Hx frames (Hfr x Hx))). }
  split.
  - intros e (x & Hx & Hr)%dict_of_Raise. by eapply Hall.
  - rewrite Exists_flat_map. split.
    + intros (x & Hx & Hr)%dict_of_Raise. exists x. split; [done|].
      by apply (proj2 (proj1 (Forall_forall _ _) IH x Hx frames (Hfr x Hx))).
    + intros (x & Hx & Hex).
      apply (dict_of_raises (λ x, pack_data key_types x d frames)); [done|].
      exists x, TypeError. split; [done|].
      by apply (proj2 (proj1 (Forall_forall _ _) IH x Hx frames (Hfr x Hx))).
Qed.

(** A set: it raises when an element does, or when the elements come out
    unhashable. *)
Lemma set_raises_exactly (o : value) (items : list value)
    (build : list value → value) (frames : nat) :
  o = PySet items ∨ o = Frozenset items →
  known subgraph_hashable key_types d o = None →
  (∀ e, list_of (λ x, pack_data key_types x d frames) items = Raise e →
     e = TypeError) →
  (list_of (λ x, pack_data key_types x d frames) items = Raise TypeError
     ↔ Exists unhashable_set (flat_map visited items)) →
  let r := (outs ← list_of (λ x, pack_data key_types x d frames) items;
            s ← elements_of outs; Ok (build s)) in
  (∀ e, r = Raise e → e = TypeError)
  ∧ (r = Raise TypeError
     ↔ unhashable_set o ∨ Exists unhashable_set (flat_map visited items)).
Proof.
  intros Ho Hk Hall Hiff r. subst r.
  destruct (list_of _ items) as [outs|e'] eqn:Hl; simpl.
  - destruct (elements_of outs) as [s|e''] eqn:He; simpl.
    + split; [done|]. split; [done|]. intros [(_ & items' & Ho' & f & outs' & Hl' & Hh)|Hex].
      * assert (items' = items) as -> by (destruct Ho, Ho'; congruence).
        rewrite (list_of_agree _ _ _ _ _ Hl' Hl) in Hh.
        unfold Packing.elements_of in He. by rewrite Hh in He.
      * by apply Hiff in Hex.
    + apply elements_of_Raise in He as [-> Hh]. split; [by intros e [= <-]|].
      split; [|done]. intros _. left. split; [done|].
      exists items. split; [done|]. by exists frames, outs.
  - rewrite (Hall e' eq_refl) in *. split; [by intros e [= <-]|].
    split; [|done]. intros _. right. by apply Hiff.
Qed.

Lemma raises_known (o w : value) (frames : nat) :
  known subgraph_hashable key_types d o = Some w → 0 < frames →
  (∀ e, pack_data key_types o d frames = Raise e → e = TypeError)
  ∧ (pack_data key_types o d frames = Raise TypeError
     ↔ Exists unhashable_set (visited o)).
Proof.
  intros Hk Hfr. destruct frames as [|frames]; [lia|].
  assert (pack_data key_types o d (S frames) = Ok w) as ->
    by (destruct o; cbn [Packing.pack_data frame]; by rewrite Hk).
  split; [done|]. split; [done|]. by intros ?%(visited_known o w).
Qed.

Lemma raises_leaf (o : value) (frames : nat) :
  known subgraph_hashable key_types d o = None → 0 < frames →
  match o with Scalar _ | Ref _ _ | Subgraph _ _ _ _ => True | _ => False end →
  (∀ e, pack_data key_types o d frames = Raise e → e = TypeError)
  ∧ (pack_data key_types o d frames = Raise TypeError
     ↔ Exists unhashable_set (visited o)).
Proof.
  intros Hk Hfr Ho. destruct frames as [|frames]; [lia|].
  assert (pack_data key_types o d (S frames) = Ok o) as ->
    by (destruct o; try done; cbn [Packing.pack_data frame]; by rewrite Hk).
  split; [done|]. split; [done|].
  assert (visited o = [o]) as ->
    by (destruct o; try done; cbn [Packing.visited]; by rewrite Hk).
  intros [[items Hs]%unhashable_set_is_set|[]%Exists_nil]%Exists_cons.
  destruct Hs; by subst.
Qed.

Lemma pack_data_raises_exactly (o : value) : raises_exactly o.
Proof.
  induction o as [a|items IH|items IH|items IH|items IH|items IH|oid key IH
                  |dsk outkey inkeys name IHd IHo IHi] using value_ind;
    intros frames Hfr;
    (match type of Hfr with
     | Packing.needs _ _ _ ?o ≤ _ =>
         destruct (known subgraph_hashable key_types d o) as [w|] eqn:Hk;
         [apply (raises_known _ w); [done|];
          rewrite (needs_known _ w Hk) in Hfr; lia
         |rewrite (needs_collection _ Hk) in Hfr]
     end);
    try (apply raises_leaf; [done|lia|done]);
    (destruct frames as [|[|frames]]; [lia..|]).
  - destruct (list_of_raises_exactly items frames) as [Hall Hiff].
    { eapply Forall_impl; [exact IH|done]. }
    { intros x Hx. pose proof (max_list_map_le needs items x Hx). lia. }
    cbn [Packing.pack_data frame]. rewrite Hk.
    cbn [Packing.visited]. rewrite Hk, Exists_cons.
    destruct (list_of _ items) as [outs|e'] eqn:Hl; simpl.
    + split; [done|]. split; [done|].
      intros [[items' Ho]%unhashable_set_is_set|Hex]; [by destruct Ho|].
      by apply Hiff in Hex.
    + rewrite (Hall e' eq_refl) in *. split; [by intros e [= <-]|].
      split; [|done]. intros _. right. by apply Hiff.
  - destruct (list_of_raises_exactly items frames) as [Hall Hiff].
    { eapply Forall_impl; [exact IH|done]. }
    { intros x Hx. pose proof (max_list_map_le needs items x Hx). lia. }
    cbn [Packing.pack_data frame]. rewrite Hk.
    cbn [Packing.visited]. rewrite Hk, Exists_cons.
    destruct (list_of _ items) as [outs|e'] eqn:Hl; simpl.
    + split; [done|]. split; [done|].
      intros [[items' Ho]%unhashable_set_is_set|Hex]; [by destruct Ho|].
      by apply Hiff in Hex.
    + rewrite (Hall e' eq_refl) in *. split; [by intros e [= <-]|].
      split; [|done]. intros _. right. by apply Hiff.
  - destruct (list_of_raises_exactly items frames) as [Hall Hiff].
    { eapply Forall_impl; [exact IH|done]. }
    { intros x Hx. pose proof (max_list_map_le needs items x Hx). lia. }
    cbn [Packing.pack_data frame]. rewrite Hk.
    cbn [Packing.visited]. rewrite Hk, Exists_cons.
    apply (set_raises_exactly (PySet items) items PySet frames); auto.
  - destruct (list_of_raises_exactly items frames) as [Hall Hiff].
    { eapply Forall_impl; [exact IH|done]. }
    { intros x Hx. pose proof (max_list_map_le needs items x Hx). lia. }
    cbn [Packing.pack_data frame]. rewrite Hk.
    cbn [Packing.visited]. rewrite Hk, Exists_cons.
    apply (set_raises_exactly (Frozenset items) items Frozenset frames); auto.
  - destruct (dict_of_raises_exactly items frames) as [Hall Hiff].
    { eapply Forall_impl; [exact IH|]. by intros kv [_ ?]. }
    { intros x Hx.
      pose proof (max_list_map_le (λ kv, needs kv.2) items x Hx). lia. }
    cbn [Packing.pack_data frame]. rewrite Hk.
    cbn [Packing.visited]. rewrite Hk, Exists_cons.
    destruct (dict_of _ items) as [outs|e'] eqn:Hl; simpl.
    + split; [done|]. split; [done|].
      intros [[items' Ho]%unhashable_set_is_set|Hex]; [by destruct Ho|].
      by apply Hiff in Hex.
    + rewrite (Hall e' eq_refl) in *. split; [by intros e [= <-]|].
      split; [|done]. intros _. right. by apply Hiff.
Qed.

Lemma max_list_lt (n : nat) (l : list nat) :
  n < max_list l → ∃ m, m ∈ l ∧ n < m.
Proof.
  intros Hn. destruct l as [|m l]; [simpl in Hn; lia|].
  exists (max_list (m :: l)). split; [by apply max_list_elem_of|done].
Qed.

Lemma list_of_some_raises (f : value → result value) (items : list value) :
  (∃ x e, x ∈ items ∧ f x = Raise e) → ∃ e, list_of f items = Raise e.
Proof.
  intros (x & e & Hin & Hx).
  induction items as [|y items IH]; [by apply not_elem_of_nil in Hin|].
  simpl. destruct (f y) as [v|e'] eqn:Hy; [|by exists e'].
  apply elem_of_cons in Hin as [->|Hin]; [congruence|].
  destruct (IH Hin) as [e'' ->]. by exists e''.
Qed.

Lemma dict_of_some_raises (f : value → result value)
    (items : list (value * value)) :
  (∃ kv e, kv ∈ items ∧ f kv.2 = Raise e) → ∃ e, dict_of f items = Raise e.
Proof.
  intros (x & e & Hin & Hx).
  induction items as [|[k y] items IH]; [by apply not_elem_of_nil in Hin|].
  simpl. destruct (f y) as [v|e'] eqn:Hy; [|by exists e'].
  apply elem_of_cons in Hin as [->|Hin]; [simpl in Hx; congruence|].
  destruct (IH Hin) as [e'' ->]. by exists e''.
Qed.

(** With fewer frames than it takes, [pack_data] raises. *)
Lemma pack_data_short (o : value) :
  ∀ frames, frames < needs o → ∃ e, pack_data key_types o d frames = Raise e.
Proof.
  induction o as [a|items IH|items IH|items IH|items IH|items IH|oid key IH
                  |dsk outkey inkeys name IHd IHo IHi] using value_ind;
    intros frames Hfr;
    (destruct frames as [|frames]; [by exists RecursionError|]);
    (match type of Hfr with
     | _ < Packing.needs _ _ _ ?o =>
         destruct (known subgraph_hashable key_types d o) as [w|] eqn:Hk;
         [rewrite (needs_known _ w Hk) in Hfr; lia
         |rewrite (needs_collection _ Hk) in Hfr]
     end);
    try lia;
    cbn [Packing.pack_data frame]; rewrite Hk;
    (destruct frames as [|frames]; [by exists RecursionError|]);
    cbn [frame].
  - destruct (max_list_lt frames (map needs items)) as (m & Hm & Hlt); [lia|].
    apply list_elem_of_fmap in Hm as (x & -> & Hx).
    destruct (proj1 (Forall_forall _ _) IH x Hx frames Hlt) as [e He].
    destruct (list_of_some_raises (λ x, pack_data key_types x d frames) items)
      as [e' ->]; [by exists x, e|by exists e'].
  - destruct (max_list_lt frames (map needs items)) as (m & Hm & Hlt); [lia|].
    apply list_elem_of_fmap in Hm as (x & -> & Hx).
    destruct (proj1 (Forall_forall _ _) IH x Hx frames Hlt) as [e He].
    destruct (list_of_some_raises (λ x, pack_data key_types x d frames) items)
      as [e' ->]; [by exists x, e|by exists e'].
  - destruct (max_list_lt frames (map needs items)) as (m & Hm & Hlt); [lia|].
    apply list_elem_of_fmap in Hm as (x & -> & Hx).
    destruct (proj1 (Forall_forall _ _) IH x Hx frames Hlt) as [e He].
    destruct (list_of_some_raises (λ x, pack_data key_types x d frames) items)
      as [e' ->]; [by exists x, e|by exists e'].
  - destruct (max_list_lt frames (map needs items)) as (m & Hm & Hlt); [lia|].
    apply list_elem_of_fmap in Hm as (x & -> & Hx).
    destruct (proj1 (Forall_forall _ _) IH x Hx frames Hlt) as [e He].
    destruct (list_of_some_raises (λ x, pack_data key_types x d frames) items)
      as [e' ->]; [by exists x, e|by exists e'].
  - destruct (max_list_lt frames (map (λ kv, needs kv.2) items))
      as (m & Hm & Hlt); [lia|].
    apply list_elem_of_fmap in Hm as (x & -> & Hx).
    destruct (proj2 (proj1 (Forall_forall _ _) IH x Hx) frames Hlt) as [e He].
    destruct (dict_of_some_raises (λ x, pack_data key_types x d frames) items)
      as [e' ->]; [by exists x, e|by exists e'].
Qed.

(** Nothing but [TypeError] and [RecursionError] comes out of [pack_data]. *)
Lemma pack_data_only_raises (o : value) :
  ∀ frames e, pack_data key_types o d frames = Raise e →
    e = TypeError ∨ e = RecursionError.
Proof.
  intros frames e Hr. destruct (decide (needs o ≤ frames)) as [Hle|Hgt].
  - left. by apply (proj1 (pack_data_raises_exactly o frames Hle)).
  - revert frames e Hr Hgt.
    induction o as [a|items IH|items IH|items IH|items IH|items IH|oid key IH
                    |dsk outkey inkeys name IHd IHo IHi] using value_ind;
      intros frames e Hr _;
      (destruct frames as [|frames]; [right; by injection Hr as <-|]);
      cbn [Packing.pack_data frame] in Hr;
      destruct (known subgraph_hashable key_types d _) as [w|]; try done;
      (destruct frames as [|frames]; [right; by injection Hr as <-|]);
      cbn [frame] in Hr.
    + apply bind_Raise in Hr as [Hr|(outs & _ & Hr)]; [|done].
      apply list_of_Raise in Hr as (x & Hx & Hr).
      destruct (decide (needs x ≤ frames)) as [Hle|Hgt].
      * left. by apply (proj1 (pack_data_raises_exactly x frames Hle)).
      * by apply (proj1 (Forall_forall _ _) IH x Hx frames e Hr).
    + apply bind_Raise in Hr as [Hr|(outs & _ & Hr)]; [|done].
      apply list_of_Raise in Hr as (x & Hx & Hr).
      destruct (decide (needs x ≤ frames)) as [Hle|Hgt].
      * left. by apply (proj1 (pack_data_raises_exactly x frames Hle)).
      * by apply (proj1 (Forall_forall _ _) IH x Hx frames e Hr).
    + apply bind_Raise in Hr as [Hr|(outs & _ & Hr)].
      * apply list_of_Raise in Hr as (x & Hx & Hr).
        destruct (decide (needs x ≤ frames)) as [Hle|Hgt].
        -- left. by apply (proj1 (pack_data_raises_exactly x frames Hle)).
        -- by apply (proj1 (Forall_forall _ _) IH x Hx frames e Hr).
      * apply bind_Raise in Hr as [Hr|(s & _ & Hr)]; [|done].
        left. by apply elements_of_Raise in Hr as [-> _].
    + apply bind_Raise in Hr as [Hr|(outs & _ & Hr)].
      * apply list_of_Raise in Hr as (x & Hx & Hr).
        destruct (decide (needs x ≤ frames)) as [Hle|Hgt].
        -- left. by apply (proj1 (pack_data_raises_exactly x frames Hle)).
        -- by apply (proj1 (Forall_forall _ _) IH x Hx frames e Hr).
      * apply bind_Raise in Hr as [Hr|(s & _ & Hr)]; [|done].
        left. by apply elements_of_Raise in Hr as [-> _].
    + apply bind_Raise in Hr as [Hr|(outs & _ & Hr)]; [|done].
      apply dict_of_Raise in Hr as (x & Hx & Hr).
      destruct (decide (needs x.2 ≤ frames)) as [Hle|Hgt].
      * left. by apply (proj1 (pack_data_raises_exactly x.2 frames Hle)).
      * by apply (proj2 (proj1 (Forall_forall _ _) IH x Hx) frames e Hr).
Qed.


End total.

End plain.



(** Nor do the functions return on a list nested deeper than the frames
    that are left allow, whatever their number. *)
Lemma unpack_nest_raises subgraph_hashable tokey byte_keys (n : nat) :
  ∀ frames myset, frames ≤ 2 * n →
    unpack subgraph_hashable tokey byte_keys (nest n) myset frames
      = Raise RecursionError.
Proof.
  induction n as [|n IH]; intros frames myset Hfr.
  - by replace frames with 0 by lia.
  - destruct frames as [|[|frames]]; [done..|].
    cbn [nest Packing.unpack frame each]. rewrite IH by lia. done.
Qed.

Lemma deep_list_raises subgraph_hashable tokey byte_keys (n : nat) :
  wf subgraph_hashable (nest n) = true ∧ has_ref (nest n) = false
  ∧ unpack_remotedata subgraph_hashable tokey (nest n) byte_keys (2 * n + 1)
    = Raise RecursionError.
Proof.
  split_and!.
  - induction n as [|n IH]; [done|]. simpl. by rewrite IH.
  - induction n as [|n IH]; [done|]. simpl. by rewrite IH.
  - unfold unpack_remotedata. replace (2 * n + 1) with (S (2 * n)) by lia.
    cbn [frame]. by apply unpack_nest_raises.
Qed.


(** [[{'a'}, 'x']] with ['x'] known to be [[1]] returns, with the five
    frames that it takes. *)
Example pack_data_list_of_set :
  let o := List [PySet [Scalar (AStr "a")]; Scalar (AStr "x")] in
  let d := [(Scalar (AStr "x"), List [Scalar (AInt 1)])] in
  needs true object d o = 5
  ∧ pack_data true object o d 5
    = Ok (List [PySet [Scalar (AStr "a")]; List [Scalar (AInt 1)]])
  ∧ pack_data true object o d 4 = Raise RecursionError.
Proof. by vm_compute. Qed.

End PackingFacts.

(** ** gather_from_workers *)

Module GatherFacts.

Import Gather.

Lemma random_choice_Ok {X : Type} (r : nat) (seq : list X) (x : X) :
  random_choice r seq = Ok x → x ∈ seq.
Proof.
  unfold random_choice. destruct (seq !! _) as [y|] eqn:Hy; [|done].
  intros [= <-]. by eapply list_elem_of_lookup_2.
Qed.

Lemma random_choice_Raise {X : Type} (r : nat) (seq : list X) (e : exn) :
  random_choice r seq = Raise e → seq = [].
Proof.
  unfold random_choice. destruct seq as [|y seq]; [done|].
  destruct (lookup_lt_is_Some_2 (y :: seq) (r mod length (y :: seq))) as [z ->];
    [|done].
  apply Nat.mod_upper_bound. done.
Qed.

Section facts.

Context {K A : Type} `{Countable K} `{Countable A} {V : Type}.

Variable draw : nat → K → nat.
Variable fetch : nat → A → list K → option (gmap K V).
Variable original_who_has : gmap K (list A).

Local Abbreviation who_has := (who_has original_who_has).
Local Abbreviation pick := (pick draw).
Local Abbreviation rev := (rev draw original_who_has).
Local Abbreviation bad_keys := (bad_keys draw original_who_has).
Local Abbreviation collect := (collect fetch).
Local Abbreviation iteration := (iteration draw fetch original_who_has).
Local Abbreviation state_at := (state_at draw fetch original_who_has).
Local Abbreviation loop := (loop draw fetch original_who_has).
Local Abbreviation unfinished := (unfinished original_who_has).
Local Abbreviation candidates := (candidates original_who_has).
Local Abbreviation enough := (enough original_who_has).
Local Abbreviation remaining := (remaining (V:=V) original_who_has).
Local Abbreviation consistent := (consistent (V:=V) original_who_has).
Local Abbreviation fetch_sound := (fetch_sound fetch).
Local Abbreviation state := (Gather.state (K:=K) (A:=A) (V:=V)).

Implicit Types (st : state) (k : K) (a : A).

(** The address chosen for a key is a candidate of the key that is not,
    so far, a bad one. *)
Lemma rev_Some i st k a :
  rev i st !! k = Some a ↔
  ∃ addresses, who_has !! k = Some addresses ∧ results st !! k = None
               ∧ pick i st k addresses = Ok a.
Proof.
  unfold Gather.rev. rewrite map_lookup_imap.
  destruct (who_has !! k) as [addresses|]; simpl.
  - case_decide as Hres.
    + split; [done|]. intros (? & _ & Hnone & _).
      rewrite Hnone in Hres. by destruct Hres.
    + apply eq_None_not_Some in Hres.
      destruct (pick i st k addresses) as [a'|e] eqn:Hp.
      * split; [intros [= <-]; eauto|].
        intros (? & [= <-] & _ & ?). congruence.
      * split; [done|]. intros (? & [= <-] & _ & ?). congruence.
  - split; [done|]. by intros (? & ? & _).
Qed.

Lemma pick_Ok i st k addresses a :
  pick i st k addresses = Ok a → a ∈ addresses ∧ a ∉ bad_addresses st.
Proof.
  intros Hp%random_choice_Ok. apply elem_of_elements in Hp. set_solver.
Qed.

Lemma pick_Raise i st k addresses e :
  pick i st k addresses = Raise e → addresses ⊆ bad_addresses st.
Proof.
  intros Hp%random_choice_Raise. apply elements_empty_iff in Hp. set_solver.
Qed.

Lemma bad_keys_elem i st k :
  k ∈ bad_keys i st ↔
  ∃ addresses e, who_has !! k = Some addresses ∧ results st !! k = None
                 ∧ pick i st k addresses = Raise e.
Proof.
  unfold Gather.bad_keys. rewrite elem_of_dom, map_lookup_imap.
  destruct (who_has !! k) as [addresses|]; simpl.
  - case_decide as Hres.
    + split; [by intros [? ?]|]. intros (? & ? & _ & Hnone & _).
      rewrite Hnone in Hres. by destruct Hres.
    + apply eq_None_not_Some in Hres.
      destruct (pick i st k addresses) as [a'|e] eqn:Hp.
      * split; [by intros [? ?]|].
        intros (? & ? & [= <-] & _ & ?). congruence.
      * split; [intros _; eauto|]. by eexists.
  - split; [by intros [? ?]|]. by intros (? & ? & ? & _).
Qed.

Lemma batch_elem (r : gmap K A) a k :
  k ∈ batch r a ↔ r !! k = Some a.
Proof.
  unfold batch. rewrite list_elem_of_fmap. split.
  - intros ([k' a'] & -> & Hin). apply elem_of_map_to_list in Hin.
    apply map_lookup_filter_Some in Hin as [Hr Ha]. simpl in *. by subst.
  - intros Hr. exists (k, a). split; [done|]. apply elem_of_map_to_list.
    by apply map_lookup_filter_Some.
Qed.

(** What the loop over the coroutines leaves in [response] and in
    [missing_workers]. *)
Lemma collect_spec i (r : gmap K A) (missing : gset A) :
  (∀ k, is_Some ((collect i r missing).1 !! k) ↔
        ∃ a data, a ∈ (map_img r : gset A)
                  ∧ fetch i a (batch r a) = Some data ∧ is_Some (data !! k))
  ∧ (∀ a, a ∈ (collect i r missing).2 ↔
          a ∈ missing ∨ (a ∈ (map_img r : gset A) ∧ fetch i a (batch r a) = None)).
Proof.
  unfold Gather.collect.
  assert (∀ (l : list A) (acc : gmap K V * gset A),
    let out := foldl (λ acc worker,
      match fetch i worker (batch r worker) with
      | Some data => (data ∪ acc.1, acc.2)
      | None => (acc.1, {[worker]} ∪ acc.2)
      end) acc l in
    (∀ k, is_Some (out.1 !! k) ↔
          is_Some (acc.1 !! k)
          ∨ ∃ a data, a ∈ l ∧ fetch i a (batch r a) = Some data
                      ∧ is_Some (data !! k))
    ∧ (∀ a, a ∈ out.2 ↔
            a ∈ acc.2 ∨ (a ∈ l ∧ fetch i a (batch r a) = None))) as Hfold.
  { induction l as [|w l IH]; intros acc; simpl.
    - split; [intros k|intros a].
      + split; [by left|]. intros [?|(? & ? & Hin & _)]; [done|].
        by apply not_elem_of_nil in Hin.
      + split; [by left|]. intros [?|[Hin _]]; [done|].
        by apply not_elem_of_nil in Hin.
    - destruct (IH (match fetch i w (batch r w) with
                    | Some data => (data ∪ acc.1, acc.2)
                    | None => (acc.1, {[w]} ∪ acc.2)
                    end)) as [IH1 IH2].
      split; [intros k; rewrite IH1|intros a; rewrite IH2]; clear IH IH1 IH2.
      + destruct (fetch i w (batch r w)) as [data|] eqn:Hw; simpl.
        * rewrite lookup_union_is_Some. split.
          -- intros [[?|?]|(a & data' & ? & ? & ?)]; [|by left|].
             ++ right. exists w, data. split_and!; [left|done|done].
             ++ right. exists a, data'. split_and!; [by right|done|done].
          -- intros [?|(a & data' & [->|?]%elem_of_cons & Hf & ?)].
             ++ left. by right.
             ++ rewrite Hw in Hf. injection Hf as <-. left. by left.
             ++ right. by exists a, data'.
        * split.
          -- intros [?|(a & data' & ? & ? & ?)]; [by left|].
             right. exists a, data'. split_and!; [by right|done|done].
          -- intros [?|(a & data' & [->|?]%elem_of_cons & Hf & ?)].
             ++ by left.
             ++ by rewrite Hw in Hf.
             ++ right. by exists a, data'.
      + destruct (fetch i w (batch r w)) as [data|] eqn:Hw; simpl.
        * split.
          -- intros [?|[? ?]]; [by left|]. right. split; [by right|done].
          -- intros [?|[[->|?]%elem_of_cons Hf]]; [by left| |].
             ++ by rewrite Hw in Hf.
             ++ by right.
        * rewrite elem_of_union, elem_of_singleton. split.
          -- intros [[->|?]|[? ?]].
             ++ right. split; [left|done].
             ++ by left.
             ++ right. split; [by right|done].
          -- intros [?|[[->|?]%elem_of_cons Hf]].
             ++ left. by right.
             ++ left. by left.
             ++ by right. }
  destruct (Hfold (elements (map_img r : gset A)) (∅, missing)) as [H1 H2].
  split; [intros k; rewrite H1|intros a; rewrite H2]; simpl.
  - rewrite lookup_empty. split.
    + intros [[? ?]|(a & data & Hin & ?)]; [done|].
      apply elem_of_elements in Hin. eauto.
    + intros (a & data & Hin & ?). right. exists a, data.
      by rewrite elem_of_elements.
  - by rewrite elem_of_elements.
Qed.

(** A key that is still missing is resolved by the iteration, or the
    address chosen for it becomes a bad one, or no address was left to choose
    and the key is recorded. *)
Lemma iteration_progress i st k addresses :
  who_has !! k = Some addresses → results st !! k = None →
  is_Some (results (iteration i st) !! k)
  ∨ (∃ a, a ∈ addresses ∧ (a ∉ bad_addresses st)
          ∧ a ∈ bad_addresses (iteration i st))
  ∨ (addresses ⊆ bad_addresses st ∧ k ∈ all_bad_keys (iteration i st)).
Proof.
  intros Hk Hres. destruct (pick i st k addresses) as [a|e] eqn:Hp.
  - assert (rev i st !! k = Some a) as Hrev by (apply rev_Some; eauto).
    destruct (pick_Ok _ _ _ _ _ Hp) as [Ha Hbad].
    destruct ((collect i (rev i st) (missing_workers st)).1 !! k) as [v|] eqn:Hv.
    + left. simpl. rewrite lookup_union_is_Some. left. by rewrite Hv.
    + right. left. exists a. split_and!; [done|done|]. simpl.
      apply elem_of_union_r. apply elem_of_map_img. exists k.
      by apply map_lookup_filter_Some.
  - right. right. split; [by eapply pick_Raise|]. simpl.
    apply elem_of_union_r. apply bad_keys_elem. eauto.
Qed.

(** Nothing is ever taken back. *)
Lemma iteration_mono i st :
  dom (results st) ⊆ dom (results (iteration i st))
  ∧ all_bad_keys st ⊆ all_bad_keys (iteration i st)
  ∧ bad_addresses st ⊆ bad_addresses (iteration i st)
  ∧ missing_workers st ⊆ missing_workers (iteration i st).
Proof.
  split_and!; simpl.
  - rewrite dom_union. set_solver.
  - set_solver.
  - set_solver.
  - intros a Ha. apply collect_spec. by left.
Qed.

Lemma elem_of_candidates k addresses a :
  who_has !! k = Some addresses → a ∈ addresses → a ∈ candidates.
Proof.
  intros Hk Ha. unfold Gather.candidates. apply elem_of_union_list.
  exists addresses. split; [|done]. apply list_elem_of_fmap.
  exists (k, addresses). split; [done|]. by apply elem_of_map_to_list.
Qed.

Lemma unfinished_key st :
  unfinished st = true →
  ∃ k addresses, who_has !! k = Some addresses ∧ results st !! k = None
                 ∧ k ∉ all_bad_keys st.
Proof.
  intros Hun. apply bool_decide_eq_true in Hun.
  destruct (set_choose_or_empty (dom who_has ∖ (dom (results st) ∪ all_bad_keys st)))
    as [[k Hk]|Hempty].
  - apply elem_of_difference in Hk as [Hk Hnot].
    apply elem_of_dom in Hk as [addresses Hk]. exists k, addresses.
    split_and!; [done| |set_solver].
    apply not_elem_of_dom. set_solver.
  - exfalso.
    assert (dom who_has ⊆ dom (results st) ∪ all_bad_keys st) as Hsub.
    { intros k Hk. destruct (decide (k ∈ dom (results st) ∪ all_bad_keys st));
        [done|]. set_solver. }
    apply subseteq_size in Hsub. rewrite size_union_alt, !size_dom in Hsub.
    pose proof (subseteq_size (all_bad_keys st ∖ dom (results st))
                  (all_bad_keys st) (subseteq_difference_l _ _ _ (reflexivity _))).
    lia.
Qed.

Lemma iteration_remaining i st :
  unfinished st = true → remaining (iteration i st) < remaining st.
Proof.
  intros Hun. pose proof Hun as Hlt. apply bool_decide_eq_true in Hlt.
  destruct (unfinished_key st Hun) as (k & addresses & Hk & Hres & Hbad).
  destruct (iteration_mono i st) as (Hr & Hb & Ha & _).
  pose proof (subseteq_size _ _ Hr) as Hr'. rewrite !size_dom in Hr'.
  pose proof (subseteq_size _ _ Hb) as Hb'.
  assert (candidates ∖ bad_addresses (iteration i st)
            ⊆ candidates ∖ bad_addresses st) as Hc
    by (by apply difference_mono_l).
  pose proof (subseteq_size _ _ Hc) as Hc'.
  unfold Gather.remaining.
  destruct (iteration_progress i st k addresses Hk Hres)
    as [Hin|[(a & Ha1 & Ha2 & Ha3)|[_ Hin]]].
  - assert (dom (results st) ⊂ dom (results (iteration i st))) as Hstrict.
    { split; [done|]. intros Hsub. apply elem_of_dom in Hin.
      apply Hsub in Hin. by apply not_elem_of_dom in Hres. }
    apply subset_size in Hstrict. rewrite !size_dom in Hstrict. lia.
  - assert (candidates ∖ bad_addresses (iteration i st)
              ⊂ candidates ∖ bad_addresses st) as Hstrict.
    { split; [done|]. intros Hsub.
      assert (a ∈ candidates ∖ bad_addresses st) as Hin
        by (apply elem_of_difference; split;
            [by eapply elem_of_candidates|done]).
      apply Hsub in Hin. by apply elem_of_difference in Hin as [_ ?]. }
    apply subset_size in Hstrict. lia.
  - assert (all_bad_keys st ⊂ all_bad_keys (iteration i st)) as Hstrict.
    { split; [done|]. intros Hsub. by apply Hsub in Hin. }
    apply subset_size in Hstrict. lia.
Qed.

(** The loop returns when it is given as many iterations as remain, and it
    returns the first state in which the test of the [while] fails. *)
Lemma loop_returns fuel : ∀ i,
  remaining (state_at i) ≤ fuel →
  ∃ n, i ≤ n ∧ n ≤ i + fuel
       ∧ loop fuel i (state_at i) = Some (state_at n)
       ∧ unfinished (state_at n) = false
       ∧ ∀ j, i ≤ j → j < n → unfinished (state_at j) = true.
Proof.
  induction fuel as [|fuel IH]; intros i Hrem.
  - destruct (unfinished (state_at i)) eqn:Hun.
    + pose proof (iteration_remaining i _ Hun). lia.
    + exists i. simpl. rewrite Hun. split_and!; [lia|lia|done|done|lia].
  - destruct (unfinished (state_at i)) eqn:Hun.
    + pose proof (iteration_remaining i _ Hun) as Hlt.
      destruct (IH (S i)) as (n & Hle & Hle' & Hloop & Hend & Hbefore).
      { simpl. lia. }
      exists n. simpl. rewrite Hun.
      split_and!; [lia|lia|exact Hloop|done|].
      intros j Hj Hjn. destruct (decide (j = i)) as [->|]; [done|].
      apply Hbefore; lia.
    + exists i. simpl. rewrite Hun. split_and!; [lia|lia|done|done|lia].
Qed.

Lemma remaining_start : remaining Gather.start = enough.
Proof.
  unfold Gather.remaining, Gather.enough.
  change (results Gather.start) with (∅ : gmap K V).
  change (all_bad_keys Gather.start) with (∅ : gset K).
  change (bad_addresses Gather.start) with (∅ : gset A).
  rewrite map_size_empty, size_empty, difference_empty_L. lia.
Qed.

(** A key of the response was asked from the address chosen for it, and that
    address answered. *)
Lemma response_key i st k :
  fetch_sound →
  is_Some ((collect i (rev i st) (missing_workers st)).1 !! k) →
  ∃ a data, rev i st !! k = Some a
            ∧ fetch i a (batch (rev i st) a) = Some data.
Proof.
  intros Hsound Hk. apply collect_spec in Hk as (a & data & _ & Hf & Hd).
  exists a, data. split; [|done]. apply batch_elem. by eapply Hsound.
Qed.

Lemma start_consistent : consistent Gather.start.
Proof.
  unfold Gather.consistent. simpl. rewrite dom_empty_L.
  split_and!; [set_solver|set_solver|set_solver|].
  intros k addresses Hk. by apply not_elem_of_empty in Hk.
Qed.

Lemma iteration_consistent i st :
  fetch_sound → consistent st → consistent (iteration i st).
Proof.
  intros Hsound (Hres & Hbad & Hdisj & Hpool).
  assert (∀ k, is_Some ((collect i (rev i st) (missing_workers st)).1 !! k) →
            k ∈ dom who_has ∧ (k ∉ all_bad_keys st) ∧ (k ∉ bad_keys i st))
    as Hresp.
  { intros k (a & data & Hrev & _)%response_key; [|done].
    apply rev_Some in Hrev as (addresses & Hk & Hnone & Hp).
    split_and!.
    - by apply elem_of_dom.
    - intros Hin. destruct (pick_Ok _ _ _ _ _ Hp) as [Ha Hnb].
      by apply Hnb, (Hpool k addresses).
    - intros (addresses' & e & Hk' & _ & Hp')%bad_keys_elem. congruence. }
  assert (∀ k, k ∈ bad_keys i st →
            k ∈ dom who_has ∧ (k ∉ dom (results st))
            ∧ ∀ addresses, who_has !! k = Some addresses →
                addresses ⊆ bad_addresses st) as Hnew.
  { intros k (addresses & e & Hk & Hnone & Hp)%bad_keys_elem. split_and!.
    - by apply elem_of_dom.
    - by apply not_elem_of_dom.
    - intros addresses' Hk'. assert (addresses' = addresses) as -> by congruence.
      by eapply pick_Raise. }
  unfold Gather.consistent. simpl. split_and!.
  - intros k. rewrite dom_union, elem_of_union. intros [Hk|Hk]; [|by apply Hres].
    apply elem_of_dom in Hk. by apply Hresp.
  - intros k. rewrite elem_of_union. intros [Hk|Hk]; [by apply Hbad|].
    by apply Hnew.
  - intros k. rewrite dom_union, !elem_of_union.
    intros [Hk|Hk] [Hk'|Hk'].
    + apply elem_of_dom in Hk. by apply Hresp in Hk as (_ & ? & _).
    + apply elem_of_dom in Hk. by apply Hresp in Hk as (_ & _ & ?).
    + by apply (Hdisj k).
    + by apply Hnew in Hk' as (_ & ? & _).
  - intros k addresses. rewrite elem_of_union. intros [Hk|Hk] Hwho.
    + transitivity (bad_addresses st); [by eapply Hpool|].
      apply union_subseteq_l.
    + apply Hnew in Hk as (_ & _ & Hk). transitivity (bad_addresses st);
        [by apply Hk|]. apply union_subseteq_l.
Qed.

Lemma state_at_consistent n : fetch_sound → consistent (state_at n).
Proof.
  intros Hsound. induction n as [|n IH]; [apply start_consistent|].
  by apply iteration_consistent.
Qed.

(** The requested keys are those of the argument, each with the set of its
    candidates. *)
Lemma who_has_Some k addresses :
  who_has !! k = Some addresses ↔
  ∃ l, original_who_has !! k = Some l ∧ addresses = list_to_set l.
Proof.
  unfold Gather.who_has. rewrite lookup_fmap.
  destruct (original_who_has !! k) as [l|]; simpl.
  - split; [intros [= <-]; eauto|]. by intros (? & [= <-] & ->).
  - split; [done|]. by intros (? & ? & _).
Qed.

Lemma dom_who_has : dom who_has = dom original_who_has.
Proof. unfold Gather.who_has. by rewrite dom_fmap_L. Qed.

Lemma size_who_has : size who_has = size original_who_has.
Proof. unfold Gather.who_has. apply map_size_fmap. Qed.

(** When the loop is left, every requested key is resolved or recorded. *)
Lemma consistent_finished st :
  consistent st → unfinished st = false →
  size (results st) + size (all_bad_keys st) = size who_has
  ∧ dom (results st) ∪ all_bad_keys st = dom who_has.
Proof.
  intros (Hres & Hbad & Hdisj & _) Hun. apply bool_decide_eq_false in Hun.
  assert (dom (results st) ∪ all_bad_keys st ⊆ dom who_has) as Hsub
    by (by apply union_least).
  pose proof (subseteq_size _ _ Hsub) as Hle.
  rewrite size_union, !size_dom in Hle by done.
  split; [lia|]. apply set_subseteq_size_eq; [done|].
  rewrite size_union, !size_dom by done. lia.
Qed.


(** *** A key that no candidate serves *)

Section unobtainable.

Variable k : K.
Variable addresses : list A.

Hypothesis sound : fetch_sound.
Hypothesis requested : original_who_has !! k = Some addresses.
Hypothesis unreachable : ∀ a, a ∈ addresses → ∀ i keys, fetch i a keys = None.

Lemma requested_set : who_has !! k = Some (list_to_set addresses).
Proof. unfold Gather.who_has. by rewrite lookup_fmap, requested. Qed.

Lemma never_resolved n : results (state_at n) !! k = None.
Proof.
  induction n as [|n IH]; [done|]. simpl.
  apply eq_None_not_Some. rewrite lookup_union_is_Some.
  intros [Hk|Hk]; [|by rewrite IH in Hk; destruct Hk].
  apply response_key in Hk as (a & data & Hrev & Hf); [|done].
  apply rev_Some in Hrev as (addresses' & Hwho & _ & Hp).
  rewrite requested_set in Hwho. injection Hwho as <-.
  destruct (pick_Ok _ _ _ _ _ Hp) as [Ha _].
  apply elem_of_list_to_set in Ha. by rewrite unreachable in Hf.
Qed.

Lemma bad_unreachable_missing n a :
  (∀ i keys, fetch i a keys = None) →
  a ∈ bad_addresses (state_at n) → a ∈ missing_workers (state_at n).
Proof.
  intros Hfail. induction n as [|n IH]; simpl.
  - intros Ha. by apply not_elem_of_empty in Ha.
  - rewrite elem_of_union. intros [Ha|Ha]; apply collect_spec.
    + left. by apply IH.
    + right. split; [|done]. apply elem_of_map_img in Ha as [k' Hk'].
      apply map_lookup_filter_Some in Hk' as [Hk' _].
      apply elem_of_map_img. by exists k'.
Qed.

(** C6 as the code has it: when the workers answer for keys they were
    asked for only, and every candidate of a requested key raises whenever it
    is asked, [gather_from_workers] returns, with the key in the
    unobtainable mapping next to its original candidates, absent from the
    resolved mapping, and with every one of its candidates among the
    unreachable workers. *)
Theorem gather_unobtainable :
  ∃ resolved unobtainable unreachable_workers,
    gather_from_workers draw fetch original_who_has
      = Some (resolved, unobtainable, unreachable_workers)
    ∧ resolved !! k = None
    ∧ unobtainable !! k = Some addresses
    ∧ ∀ a, a ∈ addresses → a ∈ unreachable_workers.
Proof.
  destruct (loop_returns enough 0) as (n & _ & _ & Hloop & Hend & _).
  { simpl. by rewrite remaining_start. }
  assert (gather_from_workers draw fetch original_who_has
            = Some (returned original_who_has (state_at n))) as Hret.
  { unfold gather_from_workers. simpl in Hloop. by rewrite Hloop. }
  pose proof (state_at_consistent n sound) as Hcons.
  destruct (consistent_finished _ Hcons Hend) as [_ Hall].
  destruct Hcons as (_ & _ & _ & Hpool).
  assert (k ∈ all_bad_keys (state_at n)) as Hk.
  { assert (k ∈ dom who_has) as Hin
      by (apply elem_of_dom; rewrite requested_set; eauto).
    rewrite <- Hall in Hin. apply elem_of_union in Hin as [Hin|Hin]; [|done].
    apply elem_of_dom in Hin. rewrite never_resolved in Hin. by destruct Hin. }
  eexists _, _, _. split; [exact Hret|]. split_and!.
  - apply never_resolved.
  - by apply map_lookup_filter_Some.
  - intros a Ha. apply elem_of_elements.
    apply bad_unreachable_missing; [by apply unreachable|].
    apply (Hpool k (list_to_set addresses) Hk requested_set).
    by apply elem_of_list_to_set.
Qed.

End unobtainable.

(** *** What is returned *)

(** The loop returns, in a state that is reached by iterating. *)
Lemma gather_returns :
  ∃ n, gather_from_workers draw fetch original_who_has
         = Some (returned original_who_has (state_at n))
       ∧ unfinished (state_at n) = false
       ∧ ∀ j, j < n → unfinished (state_at j) = true.
Proof.
  destruct (loop_returns enough 0) as (n & _ & _ & Hloop & Hend & Hbefore).
  { simpl. by rewrite remaining_start. }
  exists n. split_and!; [|done|intros j Hj; apply Hbefore; lia].
  unfold gather_from_workers. simpl in Hloop. by rewrite Hloop.
Qed.

(** X11: when the workers answer for the keys they were asked for, every
    requested key is returned either resolved or unobtainable, never both,
    nothing else is returned, and an unobtainable key comes with its original
    candidates. *)
Theorem gather_partitions :
  fetch_sound →
  ∃ resolved unobtainable unreachable_workers,
    gather_from_workers draw fetch original_who_has
      = Some (resolved, unobtainable, unreachable_workers)
    ∧ (∀ k, is_Some (original_who_has !! k) ↔
            is_Some (resolved !! k) ∨ is_Some (unobtainable !! k))
    ∧ (∀ k, is_Some (resolved !! k) → unobtainable !! k = None)
    ∧ (∀ k l, unobtainable !! k = Some l → original_who_has !! k = Some l).
Proof.
  intros Hsound. destruct gather_returns as (n & Hret & Hend & _).
  pose proof (state_at_consistent n Hsound) as Hcons.
  destruct (consistent_finished _ Hcons Hend) as [_ Hall].
  destruct Hcons as (_ & _ & Hdisj & _).
  eexists _, _, _. split; [exact Hret|]. split_and!.
  - intros k. rewrite <- !elem_of_dom, <- dom_who_has, <- Hall.
    rewrite elem_of_union, !elem_of_dom. split.
    + intros [?|Hk]; [by left|]. right.
      assert (k ∈ dom who_has) as Hin
        by (rewrite <- Hall; by apply elem_of_union_r).
      rewrite dom_who_has in Hin. apply elem_of_dom in Hin as [l Hl].
      exists l. by apply map_lookup_filter_Some.
    + intros [?|[l Hl]]; [by left|]. right.
      by apply map_lookup_filter_Some in Hl as [_ ?].
  - intros k Hk. apply map_lookup_filter_None. right. intros l _ Hbad.
    simpl in Hbad. apply (Hdisj k); [by apply elem_of_dom|done].
  - intros k l Hl. by apply map_lookup_filter_Some in Hl as [? _].
Qed.

(** X12: every address returned as unreachable is a candidate of a
    requested key, and a fetch from it raised. *)
Theorem unreachable_raised :
  ∃ resolved unobtainable unreachable_workers,
    gather_from_workers draw fetch original_who_has
      = Some (resolved, unobtainable, unreachable_workers)
    ∧ ∀ a, a ∈ unreachable_workers →
        (∃ k l, original_who_has !! k = Some l ∧ a ∈ l)
        ∧ ∃ i keys, fetch i a keys = None.
Proof.
  destruct gather_returns as (n & Hret & _ & _).
  eexists _, _, _. split; [exact Hret|]. clear Hret.
  intros a Ha. apply elem_of_elements in Ha.
  induction n as [|n IH]; [by apply not_elem_of_empty in Ha|].
  simpl in Ha. apply collect_spec in Ha as [Ha|[Ha Hf]]; [by apply IH|].
  split; [|eauto]. apply elem_of_map_img in Ha as [k Hk].
  apply rev_Some in Hk as (addresses & Hwho & _ & Hp).
  apply who_has_Some in Hwho as (l & Hl & ->).
  apply pick_Ok in Hp as [Hin _]. apply elem_of_list_to_set in Hin. eauto.
Qed.

Lemma collect_value i (r : gmap K A) (missing : gset A) k (v : V) :
  (collect i r missing).1 !! k = Some v →
  ∃ a data, a ∈ (map_img r : gset A) ∧ fetch i a (batch r a) = Some data
            ∧ data !! k = Some v.
Proof.
  unfold Gather.collect.
  assert (∀ (l : list A) (acc : gmap K V * gset A),
    (foldl (λ acc worker,
       match fetch i worker (batch r worker) with
       | Some data => (data ∪ acc.1, acc.2)
       | None => (acc.1, {[worker]} ∪ acc.2)
       end) acc l).1 !! k = Some v →
    acc.1 !! k = Some v
    ∨ ∃ a data, a ∈ l ∧ fetch i a (batch r a) = Some data
                ∧ data !! k = Some v) as Hfold.
  { induction l as [|w l IH]; intros acc Hv; simpl in Hv; [by left|].
    apply IH in Hv as [Hv|(a & data & ? & ? & ?)].
    - destruct (fetch i w (batch r w)) as [data|] eqn:Hw; simpl in Hv.
      + apply lookup_union_Some_raw in Hv as [Hv|[_ Hv]]; [|by left].
        right. exists w, data. split_and!; [left|done|done].
      + by left.
    - right. exists a, data. split_and!; [by right|done|done]. }
  intros Hv. apply Hfold in Hv as [Hv|(a & data & Hin & ? & ?)]; [done|].
  exists a, data. by rewrite <- elem_of_elements.
Qed.

(** X13: when the workers answer for the keys they were asked for, the
    value returned for a key is the one that a candidate of that key
    answered with. *)
Theorem resolved_by_a_candidate :
  fetch_sound →
  ∃ resolved unobtainable unreachable_workers,
    gather_from_workers draw fetch original_who_has
      = Some (resolved, unobtainable, unreachable_workers)
    ∧ ∀ k v, resolved !! k = Some v →
        ∃ l a i keys data,
          original_who_has !! k = Some l ∧ a ∈ l
          ∧ fetch i a keys = Some data ∧ data !! k = Some v.
Proof.
  intros Hsound. destruct gather_returns as (n & Hret & _ & _).
  eexists _, _, _. split; [exact Hret|]. simpl. clear Hret.
  intros k v. induction n as [|n IH]; [done|]. simpl.
  intros [Hv|[_ Hv]]%lookup_union_Some_raw; [|by apply IH].
  apply collect_value in Hv as (a & data & _ & Hf & Hv).
  assert (rev n (state_at n) !! k = Some a) as Hrev
    by (apply batch_elem; eapply Hsound; [exact Hf|by rewrite Hv]).
  apply rev_Some in Hrev as (addresses & Hwho & _ & Hp).
  apply who_has_Some in Hwho as (l & Hl & ->).
  apply pick_Ok in Hp as [Hin _]. apply elem_of_list_to_set in Hin.
  exists l, a, n, (batch (rev n (state_at n)) a), data. by split_and!.
Qed.

(** X14: when the workers answer for the keys they were asked for, a worker
    whose fetch raised is a bad address from then on, and no key is ever
    assigned to a bad address: it is not asked again. *)
Theorem raised_not_asked_again :
  fetch_sound →
  ∀ n, missing_workers (state_at n) ⊆ bad_addresses (state_at n)
       ∧ ∀ k a, rev n (state_at n) !! k = Some a →
           a ∉ bad_addresses (state_at n).
Proof.
  intros Hsound n. split.
  - induction n as [|n IH]; [done|]. simpl. intros a Ha.
    apply collect_spec in Ha as [Ha|[Ha Hf]];
      [by apply elem_of_union_l, IH|].
    apply elem_of_union_r. apply elem_of_map_img in Ha as [k Hk].
    apply elem_of_map_img. exists k. apply map_lookup_filter_Some.
    split; [done|]. simpl. apply eq_None_not_Some.
    intros (a' & data & Hrev & Hf')%response_key; [|done]. congruence.
  - intros k a Hrev. apply rev_Some in Hrev as (addresses & _ & _ & Hp).
    by apply pick_Ok in Hp as [_ ?].
Qed.

(** *** Workers that answer *)

Section reachable.

Hypothesis sound : fetch_sound.
Hypothesis complete :
  ∀ i a keys k, k ∈ keys →
    ∃ data, fetch i a keys = Some data ∧ is_Some (data !! k).
Hypothesis held_somewhere :
  ∀ k l, original_who_has !! k = Some l → l ≠ [].

Lemma first_pass :
  dom who_has ⊆ dom (results (state_at 1))
  ∧ all_bad_keys (state_at 1) = ∅
  ∧ missing_workers (state_at 1) = ∅.
Proof.
  assert (∀ k addresses, who_has !! k = Some addresses →
            ∃ a, rev 0 (state_at 0) !! k = Some a) as Hrev.
  { intros k addresses Hwho.
    destruct (pick 0 (state_at 0) k addresses) as [a|e] eqn:Hp.
    - exists a. apply rev_Some. eauto.
    - apply pick_Raise in Hp. apply who_has_Some in Hwho as (l & Hl & ->).
      destruct l as [|a l]; [by apply held_somewhere in Hl|].
      assert (a ∈ (∅ : gset A)) as Ha
        by (apply Hp, elem_of_list_to_set; left).
      by apply not_elem_of_empty in Ha. }
  split_and!.
  - intros k [addresses Hwho]%elem_of_dom.
    destruct (Hrev k addresses Hwho) as [a Ha].
    destruct (complete 0 a (batch (rev 0 (state_at 0)) a) k) as (data & Hf & Hd);
      [by apply batch_elem|].
    apply elem_of_dom. simpl. apply lookup_union_is_Some. left.
    apply collect_spec. exists a, data. split_and!; [|done|done].
    apply elem_of_map_img. eauto.
  - apply leibniz_equiv. intros k. split; [|by intros ?%not_elem_of_empty].
    simpl. rewrite elem_of_union.
    intros [Hk|(addresses & e & Hwho & _ & Hp)%bad_keys_elem];
      [by apply not_elem_of_empty in Hk|].
    destruct (Hrev k addresses Hwho) as [a Ha].
    apply rev_Some in Ha as (addresses' & Hwho' & _ & Hp').
    assert (addresses' = addresses) as -> by congruence.
    assert (Ok a = Raise e) as Habs by (by rewrite <- Hp', <- Hp).
    done.
  - apply leibniz_equiv. intros a. split; [|by intros ?%not_elem_of_empty].
    simpl. intros [Ha|[[k Hk]%elem_of_map_img Hf]]%collect_spec; [done|].
    destruct (complete 0 a (batch (rev 0 (state_at 0)) a) k) as (data & Hf' & _);
      [by apply batch_elem|].
    assert (Some data = None) as Habs by (by rewrite <- Hf', <- Hf).
    done.
Qed.

(** X15: when every key has a candidate and every worker answers with all
    the keys it is asked for, every key is returned resolved, after one
    round of fetches at most, with no key unobtainable and no worker
    unreachable. *)
Theorem gather_all_resolved :
  ∃ resolved,
    gather_from_workers draw fetch original_who_has = Some (resolved, ∅, [])
    ∧ dom resolved = dom original_who_has.
Proof.
  destruct gather_returns as (n & Hret & Hend & Hbefore).
  destruct first_pass as (Hall & Hbad & Hmissing).
  assert (unfinished (state_at 1) = false) as Hdone.
  { apply bool_decide_eq_false. apply subseteq_size in Hall.
    rewrite !size_dom in Hall. lia. }
  assert (n = 0 ∨ n = 1) as Hn.
  { destruct n as [|[|n]]; [by left|by right|].
    rewrite (Hbefore 1) in Hdone by lia. done. }
  pose proof (state_at_consistent n sound) as Hcons.
  destruct (consistent_finished _ Hcons Hend) as [_ Hdom].
  assert (all_bad_keys (state_at n) = ∅ ∧ missing_workers (state_at n) = ∅)
    as [Hb Hm] by (by destruct Hn as [-> | ->]).
  exists (results (state_at n)). split.
  - rewrite Hret. unfold returned. rewrite Hb, Hm, elements_empty.
    do 3 f_equal. apply map_eq. intros k. rewrite lookup_empty.
    apply map_lookup_filter_None. right. intros l _ Hin.
    by apply not_elem_of_empty in Hin.
  - rewrite <- dom_who_has, <- Hdom, Hb. by rewrite union_empty_r_L.
Qed.

End reachable.

End facts.

(** Two keys and two workers: ["A"] cannot be reached, ["B"] answers for
    every key it is asked for.  ["x"] is held by ["A"] alone. *)
Local Open Scope string_scope.

Lemma answer_sound :
  fetch_sound (λ (i : nat) (a : string) (keys : list string),
    if decide (a = "B")
    then Some (list_to_map ((λ k, (k, 1)) <$> keys) : gmap string nat)
    else None).
Proof.
  intros i a keys data k Hf [v Hv]. case_decide; [|done].
  injection Hf as <-. apply elem_of_list_to_map_2 in Hv.
  apply list_elem_of_fmap in Hv as (k' & [= <- _] & Hin). done.
Qed.



(** C6 fails: the worker of [x] answers with a key it was not asked for, and
    the loop stops before [y], whose only candidate raises, is recorded. *)
Lemma gather_unreachable_key_lost :
  let fetch := λ (i : nat) (a : string) (keys : list string),
    if decide (a = "B")
    then Some ({[ "x" := 1; "z" := 2 ]} : gmap string nat)
    else None in
  let draw := λ (i : nat) (k : string), 0 in
  let who : gmap string (list string) := {[ "x" := ["B"]; "y" := ["C"] ]} in
  who !! "y" = Some ["C"]
  ∧ (∀ a, a ∈ ["C"] → ∀ i keys, fetch i a keys = None)
  ∧ ∃ resolved unobtainable unreachable_workers,
      gather_from_workers draw fetch who
        = Some (resolved, unobtainable, unreachable_workers)
      ∧ resolved !! "y" = None
      ∧ unobtainable !! "y" = None.
Proof.
  intros fetch draw who. split; [done|]. split.
  - intros a Ha%list_elem_of_singleton i keys. by subst a.
  - eexists _, _, _. split; [by vm_compute|]. by split.
Qed.

Lemma gather_unobtainable_witness :
  let fetch := λ (i : nat) (a : string) (keys : list string),
    if decide (a = "B")
    then Some (list_to_map ((λ k, (k, 1)) <$> keys) : gmap string nat)
    else None in
  let draw := λ (i : nat) (k : string), 0 in
  let who : gmap string (list string) := {[ "x" := ["A"]; "y" := ["A"; "B"] ]} in
  fetch_sound fetch
  ∧ who !! "x" = Some ["A"]
  ∧ (∀ a, a ∈ ["A"] → ∀ i keys, fetch i a keys = None)
  ∧ ∃ resolved unobtainable unreachable_workers,
      gather_from_workers draw fetch who
        = Some (resolved, unobtainable, unreachable_workers)
      ∧ unobtainable !! "x" = Some ["A"]
      ∧ "A" ∈ unreachable_workers.
Proof.
  intros fetch draw who.
  assert (who !! "x" = Some ["A"]) as Hx by done.
  assert (∀ a, a ∈ ["A"] → ∀ i keys, fetch i a keys = None) as Hfail.
  { intros a Ha%list_elem_of_singleton i keys. by subst a. }
  destruct (gather_unobtainable draw fetch who "x" ["A"] answer_sound Hx Hfail)
    as (resolved & unobtainable & workers & Hret & _ & Hbad & Hmissing).
  split_and!; [exact answer_sound|exact Hx|exact Hfail|].
  exists resolved, unobtainable, workers.
  split_and!; [exact Hret|exact Hbad|].
  apply Hmissing. by apply list_elem_of_singleton.
Defined.

(** The same call, run. *)
Example gather_two_keys :
  (λ r, (map_to_list r.1.1, map_to_list r.1.2, r.2)) <$>
    gather_from_workers (λ _ _, 0)
      (λ (i : nat) (a : string) (keys : list string),
         if decide (a = "B")
         then Some (list_to_map ((λ k, (k, 1)) <$> keys) : gmap string nat)
         else None)
      ({[ "x" := ["A"]; "y" := ["A"; "B"] ]} : gmap string (list string))
  = Some ([("y", 1)], [("x", ["A"])], ["A"]).
Proof. by vm_compute. Qed.

Lemma gather_partitions_witness :
  let fetch := λ (i : nat) (a : string) (keys : list string),
    if decide (a = "B")
    then Some (list_to_map ((λ k, (k, 1)) <$> keys) : gmap string nat)
    else None in
  let draw := λ (i : nat) (k : string), 0 in
  let who : gmap string (list string) := {[ "x" := ["A"]; "y" := ["A"; "B"] ]} in
  fetch_sound fetch
  ∧ ∃ resolved unobtainable unreachable_workers,
      gather_from_workers draw fetch who
        = Some (resolved, unobtainable, unreachable_workers)
      ∧ ∀ k, is_Some (resolved !! k) → unobtainable !! k = None.
Proof.
  intros fetch draw who.
  destruct (gather_partitions draw fetch who answer_sound)
    as (resolved & unobtainable & workers & Hret & _ & Hdisj & _).
  split; [exact answer_sound|]. by exists resolved, unobtainable, workers.
Defined.

Lemma resolved_by_a_candidate_witness :
  let fetch := λ (i : nat) (a : string) (keys : list string),
    if decide (a = "B")
    then Some (list_to_map ((λ k, (k, 1)) <$> keys) : gmap string nat)
    else None in
  let draw := λ (i : nat) (k : string), 0 in
  let who : gmap string (list string) := {[ "x" := ["A"]; "y" := ["A"; "B"] ]} in
  fetch_sound fetch
  ∧ ∃ resolved unobtainable unreachable_workers,
      gather_from_workers draw fetch who
        = Some (resolved, unobtainable, unreachable_workers)
      ∧ ∀ k v, resolved !! k = Some v →
          ∃ l a i keys data,
            who !! k = Some l ∧ a ∈ l
            ∧ fetch i a keys = Some data ∧ data !! k = Some v.
Proof.
  intros fetch draw who.
  split; [exact answer_sound|].
  exact (resolved_by_a_candidate draw fetch who answer_sound).
Defined.

Lemma raised_not_asked_again_witness :
  let fetch := λ (i : nat) (a : string) (keys : list string),
    if decide (a = "B")
    then Some (list_to_map ((λ k, (k, 1)) <$> keys) : gmap string nat)
    else None in
  let draw := λ (i : nat) (k : string), 0 in
  let who : gmap string (list string) := {[ "x" := ["A"]; "y" := ["A"; "B"] ]} in
  fetch_sound fetch
  ∧ missing_workers (Gather.state_at draw fetch who 1)
      ⊆ bad_addresses (Gather.state_at draw fetch who 1).
Proof.
  intros fetch draw who.
  split; [exact answer_sound|].
  exact (proj1 (raised_not_asked_again draw fetch who answer_sound 1)).
Defined.

(** Workers that answer with a value for every key they are asked for. *)
Lemma ready_sound :
  fetch_sound (λ (i : nat) (a : string) (keys : list string),
    Some (list_to_map ((λ k, (k, 1)) <$> keys) : gmap string nat)).
Proof.
  intros i a keys data k [= <-] [v Hv]. apply elem_of_list_to_map_2 in Hv.
  apply list_elem_of_fmap in Hv as (k' & [= <- _] & Hin). done.
Qed.

Lemma ready_complete (i : nat) (a : string) (keys : list string) (k : string) :
  k ∈ keys →
  ∃ data, Some (list_to_map ((λ k, (k, 1)) <$> keys) : gmap string nat)
            = Some data ∧ is_Some (data !! k).
Proof.
  intros Hk. eexists. split; [done|].
  apply not_eq_None_Some. intros Hnot%not_elem_of_list_to_map.
  apply Hnot. rewrite <- list_fmap_compose.
  apply list_elem_of_fmap. by exists k.
Qed.

Lemma gather_all_resolved_witness :
  let fetch := λ (i : nat) (a : string) (keys : list string),
    Some (list_to_map ((λ k, (k, 1)) <$> keys) : gmap string nat) in
  let draw := λ (i : nat) (k : string), 0 in
  let who : gmap string (list string) := {[ "x" := ["A"]; "y" := ["A"; "B"] ]} in
  fetch_sound fetch
  ∧ (∀ i a keys k, k ∈ keys →
       ∃ data, fetch i a keys = Some data ∧ is_Some (data !! k))
  ∧ (∀ k l, who !! k = Some l → l ≠ [])
  ∧ ∃ resolved,
      gather_from_workers draw fetch who = Some (resolved, ∅, [])
      ∧ dom resolved = dom who.
Proof.
  intros fetch draw who.
  assert (∀ k l, who !! k = Some l → l ≠ []) as Hheld.
  { intros k l Hk. unfold who in Hk.
    apply lookup_insert_Some in Hk as [[_ <-]|[_ Hk]]; [done|].
    apply lookup_singleton_Some in Hk as [_ <-]. done. }
  split_and!; [exact ready_sound|exact ready_complete|exact Hheld|].
  exact (gather_all_resolved draw fetch who ready_sound ready_complete Hheld).
Defined.

End GatherFacts.

(** * Further properties *)

(** ** The lock extension, turn by turn *)

Module LockMore.

Import LockExt.

Lemma queue_insert (st : sched) n m q ids' w' f' c' fr' :
  queue (Sched ids' (<[n := q]> (events st)) w' f' c' fr') m
    = if decide (n = m) then q else queue st m.
Proof.
  unfold queue; simpl. case_decide as Hnm.
  - subst. by rewrite lookup_insert_eq.
  - by rewrite lookup_insert_ne.
Qed.

Lemma grant_other n id st m :
  n ≠ m →
  ids (grant n id st).1 !! m = ids st !! m
  ∧ queue (grant n id st).1 m = queue st m.
Proof.
  intros Hnm. unfold grant. destruct (ids st !! n); [done|]. simpl.
  by rewrite lookup_insert_ne.
Qed.

Lemma acquire_loop_other n id t st m :
  n ≠ m →
  ids (acquire_loop n id t st).1 !! m = ids st !! m
  ∧ queue (acquire_loop n id t st).1 m = queue st m.
Proof.
  intros Hnm. unfold acquire_loop.
  destruct (ids st !! n) eqn:Hn; [|by apply grant_other].
  simpl. split; [done|]. rewrite queue_insert. by rewrite decide_False.
Qed.

Lemma pop_own_other n ev st m :
  n ≠ m →
  ids (pop_own n ev st).1 !! m = ids st !! m
  ∧ queue (pop_own n ev st).1 m = queue st m.
Proof.
  intros Hnm. unfold pop_own.
  destruct (queue st n); simpl; (split; [done|]);
    rewrite queue_insert; by rewrite decide_False.
Qed.

Lemma release_other n id st m :
  as_key n ≠ m →
  ids (release n id st).1 !! m = ids st !! m
  ∧ queue (release n id st).1 m = queue st m.
Proof.
  intros Hnm. unfold release. case_decide; [|done].
  destruct (ids st !! as_key n); [|done].
  destruct (queue st (as_key n)); simpl.
  - rewrite lookup_delete_ne by done. split; [done|].
    unfold queue; simpl. by rewrite lookup_delete_ne.
  - by rewrite lookup_delete_ne.
Qed.

(** X1: a turn of the event loop about one lock name leaves the holder and
    the queue of every other name as they are. *)
Theorem step_other_names (l : label) (st st' : sched) (r : reply) (m : lock_name) :
  step l st = Some (st', r) → name_of l st ≠ Some m →
  ids st' !! m = ids st !! m ∧ queue st' m = queue st m.
Proof.
  intros Hstep Hm. destruct l as [n i t|n i| |e|e]; simpl in Hstep, Hm.
  - injection Hstep as Hst.
    assert (st' = (acquire n i t st).1) as -> by (by rewrite Hst).
    assert (as_key n ≠ m) as Hnm by congruence. unfold acquire.
    destruct (ids st !! as_key n);
      [by apply acquire_loop_other|by apply grant_other].
  - injection Hstep as Hst.
    assert (st' = (release n i st).1) as -> by (by rewrite Hst).
    apply release_other. congruence.
  - destruct (callbacks st); [done|]. by injection Hstep as <- _.
  - destruct (waiting st !! e) as [w|]; [|done]. simpl in Hm.
    assert (w_name w ≠ m) as Hnm by congruence.
    case_decide; [|done]. injection Hstep as Hres. unfold resume_set in Hres.
    destruct (pop_own_other (w_name w) e (forget e st) m Hnm) as [Hi Hq].
    change (queue (forget e st) m) with (queue st m) in Hq.
    change (ids (forget e st)) with (ids st) in Hi.
    destruct (pop_own (w_name w) e (forget e st)) as [st1 [[]|err]];
      simpl in *.
    + destruct (acquire_loop_other (w_name w) (w_id w) (w_timeout w) st1 m Hnm)
        as [Hi' Hq'].
      rewrite Hres in Hi', Hq'. simpl in *. split; congruence.
    + by injection Hres as <- _.
  - destruct (waiting st !! e) as [w|]; [|done]. simpl in Hm.
    assert (w_name w ≠ m) as Hnm by congruence.
    destruct (w_timeout w); [|done]. case_decide; [done|].
    injection Hstep as Hres. unfold resume_timeout in Hres.
    destruct (pop_own_other (w_name w) e (forget e st) m Hnm) as [Hi Hq].
    change (queue (forget e st) m) with (queue st m) in Hq.
    change (ids (forget e st)) with (ids st) in Hi.
    destruct (pop_own (w_name w) e (forget e st)) as [st1 [[]|err]];
      simpl in *; by injection Hres as <- _.
Qed.

Lemma acquire_loop_held n id t st m h :
  ids st !! m = Some h → ids (acquire_loop n id t st).1 !! m = Some h.
Proof.
  intros Hm. unfold acquire_loop, grant.
  destruct (ids st !! n) eqn:Hn; [done|]. simpl.
  rewrite lookup_insert_ne; [done|]. congruence.
Qed.

(** X2: no turn of the event loop takes a lock from its holder or hands it
    to another id, except the release that comes with the holder's own id,
    which frees it. *)
Theorem step_keeps_holder (l : label) (st st' : sched) (r : reply)
    (m : lock_name) (h : ident) :
  step l st = Some (st', r) → ids st !! m = Some h →
  ids st' !! m = Some h
  ∨ (∃ n, l = CallRelease n h ∧ as_key n = m ∧ r = Returned
          ∧ ids st' !! m = None).
Proof.
  intros Hstep Hm. destruct l as [n i t|n i| |e|e]; simpl in Hstep.
  - left. injection Hstep as Hst.
    assert (st' = (acquire n i t st).1) as -> by (by rewrite Hst).
    unfold acquire. destruct (ids st !! as_key n) eqn:Hn.
    + by apply acquire_loop_held.
    + unfold grant. rewrite Hn. simpl. rewrite lookup_insert_ne; [done|].
      congruence.
  - injection Hstep as Hst. unfold release in Hst.
    destruct (decide (as_key n = m)) as [Hnm|Hnm].
    + case_decide as Hh.
      * unfold holder in Hh. rewrite Hnm, Hm in Hh. simpl in Hh. subst i.
        rewrite Hnm, Hm in Hst. right. exists n.
        destruct (queue st m); injection Hst as <- <-; simpl;
          by rewrite lookup_delete_eq.
      * left. by injection Hst as <- _.
    + left. case_decide; [|by injection Hst as <- _].
      destruct (ids st !! as_key n); [|by injection Hst as <- _].
      destruct (queue st (as_key n)); injection Hst as <- _; simpl;
        by rewrite lookup_delete_ne.
  - left. destruct (callbacks st); [done|]. by injection Hstep as <- _.
  - left. destruct (waiting st !! e) as [w|]; [|done].
    case_decide; [|done]. injection Hstep as Hres. unfold resume_set in Hres.
    assert (ids (pop_own (w_name w) e (forget e st)).1 = ids st) as Hpop
      by (unfold pop_own; by destruct (queue _ _)).
    destruct (pop_own (w_name w) e (forget e st)) as [st1 [[]|err]];
      simpl in *.
    + rewrite <- Hpop in Hm.
      apply (acquire_loop_held (w_name w) (w_id w) (w_timeout w)) in Hm.
      by rewrite Hres in Hm.
    + injection Hres as <- _. by rewrite Hpop.
  - left. destruct (waiting st !! e) as [w|]; [|done].
    destruct (w_timeout w); [|done]. case_decide; [done|].
    injection Hstep as Hres. unfold resume_timeout in Hres.
    assert (ids (pop_own (w_name w) e (forget e st)).1 = ids st) as Hpop
      by (unfold pop_own; by destruct (queue _ _)).
    destruct (pop_own (w_name w) e (forget e st)) as [st1 [[]|err]];
      simpl in *; injection Hres as <- _; by rewrite Hpop.
Qed.


Lemma acquire_release_free (n : lock_name) (id : ident) (t : option nat)
    (st : sched) :
  ids st !! as_key n = None →
  (acquire n id t st).2 = Return true
  ∧ ids (acquire n id t st).1 !! as_key n = Some id
  ∧ (release n id (acquire n id t st).1).2 = Returned
  ∧ ids (release n id (acquire n id t st).1).1 = ids st.
Proof.
  intros Hfree. unfold acquire, grant. rewrite Hfree. simpl.
  split_and!; [done|by rewrite lookup_insert_eq| |].
  - unfold release, holder. simpl. rewrite lookup_insert_eq. simpl.
    rewrite decide_True by done. by destruct (queue _ _).
  - unfold release, holder. simpl. rewrite lookup_insert_eq. simpl.
    rewrite decide_True by done.
    destruct (queue _ _); simpl; by rewrite delete_insert_id.
Qed.

(** X4: acquiring a free name and releasing it with the same id returns,
    and leaves the holders as they were. *)
Theorem acquire_then_release (n : lock_name) (id : ident) (t : option nat)
    (st : sched) :
  ids st !! as_key n = None →
  (acquire n id t st).2 = Return true
  ∧ ids (acquire n id t st).1 !! as_key n = Some id
  ∧ (release n id (acquire n id t st).1).2 = Returned
  ∧ ids (release n id (acquire n id t st).1).1 = ids st.
Proof. apply acquire_release_free. Qed.

(** X5: the timeout of a waiter removes the token at the head of the queue
    of its name, whosever it is: the waiter gets [False] when the token is
    its own and [AssertionError] when it is not; the holders stay as they are
    and the waiter is gone. *)
Theorem timeout_pops_the_head (ev ev2 : event) (rest : list event)
    (w : waiter) (t : nat) (st : sched) :
  waiting st !! ev = Some w → w_timeout w = Some t → ev ∉ flags st →
  queue st (w_name w) = ev2 :: rest →
  ∃ st', step (Timeout ev) st
           = Some (st', if decide (ev = ev2) then Return false
                        else Raised AssertionError)
         ∧ queue st' (w_name w) = rest
         ∧ ids st' = ids st
         ∧ waiting st' = delete ev (waiting st).
Proof.
  intros Hw Ht Hf Hq. simpl. rewrite Hw, Ht. rewrite decide_False by done.
  unfold resume_timeout, pop_own.
  change (queue (forget ev st) (w_name w)) with (queue st (w_name w)).
  rewrite Hq. case_decide; eexists; (split; [done|]); simpl;
    by rewrite queue_insert, decide_True.
Qed.

Section handover.

Variable n : lock_name.
Variables id : ident.
Variables (ev : event) (rest : list event) (w : waiter) (st : sched).

Hypothesis held : ids st !! as_key n = Some id.
Hypothesis queued : queue st (as_key n) = ev :: rest.
Hypothesis waits : waiting st !! ev = Some w.
Hypothesis waits_for : w_name w = as_key n.
Hypothesis idle : callbacks st = [].

Lemma release_wakes_head :
  release n id st =
    ({| ids := delete (as_key n) (ids st); events := events st;
        waiting := waiting st; flags := flags st; callbacks := [ev];
        fresh := fresh st |}, Returned).
Proof.
  unfold release, holder. rewrite held. simpl. rewrite decide_True by done.
  by rewrite queued, idle.
Qed.

(** X6: when the holder releases and the callback and the woken coroutine
    run next, the waiter at the head of the queue becomes the holder and its
    token leaves the queue. *)
Theorem release_hands_over :
  ∃ st', run [CallRelease n id; RunCallback; Wake ev] st
           = Some (st', [Returned; Returned; Return true])
         ∧ ids st' !! as_key n = Some (w_id w)
         ∧ queue st' (as_key n) = rest
         ∧ waiting st' !! ev = None.
Proof.
  unfold run, step. rewrite release_wakes_head. cbn [callbacks waiting flags].
  rewrite waits. rewrite decide_True by set_solver.
  unfold resume_set, pop_own, forget. rewrite waits_for.
  unfold queue at 1. cbn [events].
  change (default [] (events st !! as_key n)) with (queue st (as_key n)).
  rewrite queued. rewrite decide_True by done.
  unfold acquire_loop, grant. cbn [ids]. rewrite lookup_delete_eq.
  eexists. split; [done|]. simpl. split_and!.
  - by rewrite lookup_insert_eq.
  - by rewrite queue_insert, decide_True.
  - by rewrite lookup_delete_eq.
Qed.

(** X7: when another request arrives between the release and the woken
    coroutine, it is granted at once, ahead of the queue; the woken
    coroutine finds the name held again and waits anew, with a new token at
    the end of the queue. *)
Theorem newcomer_overtakes (id2 : ident) (t : option nat) :
  ∃ st', run [CallRelease n id; CallAcquire n id2 t; RunCallback; Wake ev] st
           = Some (st', [Returned; Return true; Returned; Suspended (fresh st)])
         ∧ ids st' !! as_key n = Some id2
         ∧ queue st' (as_key n) = rest ++ [fresh st]
         ∧ waiting st' !! fresh st
             = Some (Waiter (as_key n) (w_id w) (w_timeout w)).
Proof.
  unfold run, step. rewrite release_wakes_head.
  unfold acquire, grant. cbn [ids]. rewrite lookup_delete_eq.
  cbn [callbacks waiting flags].
  rewrite waits. rewrite decide_True by set_solver.
  unfold resume_set, pop_own, forget. rewrite waits_for.
  unfold queue at 1. cbn [events].
  change (default [] (events st !! as_key n)) with (queue st (as_key n)).
  rewrite queued. rewrite decide_True by done.
  unfold acquire_loop. cbn [ids]. rewrite lookup_insert_eq.
  eexists. split; [done|]. simpl. split_and!.
  - by rewrite lookup_insert_eq.
  - unfold queue; simpl. by rewrite !lookup_insert_eq.
  - by rewrite lookup_insert_eq.
Qed.

End handover.

Local Open Scope string_scope.

Lemma step_other_names_witness :
  step (CallAcquire x (Some "a") None) held = Some (one_waiter, Suspended 0)
  ∧ name_of (CallAcquire x (Some "a") None) held ≠ Some (NameStr "y")
  ∧ ids one_waiter !! NameStr "y" = ids held !! NameStr "y"
  ∧ queue one_waiter (NameStr "y") = queue held (NameStr "y").
Proof.
  assert (step (CallAcquire x (Some "a") None) held
            = Some (one_waiter, Suspended 0)) as Hstep by (by vm_compute).
  assert (name_of (CallAcquire x (Some "a") None) held ≠ Some (NameStr "y"))
    as Hname by done.
  destruct (step_other_names _ _ _ _ (NameStr "y") Hstep Hname) as [Hi Hq].
  by split_and!.
Defined.

Lemma step_keeps_holder_witness :
  step (CallRelease x (Some "a")) held = Some (held, Raised ValueError)
  ∧ ids held !! x = Some (Some "h")
  ∧ (ids held !! x = Some (Some "h")
     ∨ ∃ n, CallRelease x (Some "a") = CallRelease n (Some "h") ∧ as_key n = x
            ∧ Raised ValueError = Returned ∧ ids held !! x = None).
Proof.
  assert (step (CallRelease x (Some "a")) held
            = Some (held, Raised ValueError)) as Hstep by (by vm_compute).
  assert (ids held !! x = Some (Some "h")) as Hheld by (by vm_compute).
  split_and!; [done|done|].
  exact (step_keeps_holder _ _ _ _ x (Some "h") Hstep Hheld).
Defined.


Lemma acquire_then_release_witness :
  ids init !! as_key x = None
  ∧ ids (release x (Some "h") (acquire x (Some "h") None init).1).1 = ids init.
Proof.
  assert (ids init !! as_key x = None) as Hfree by done.
  split; [done|].
  by destruct (acquire_then_release x (Some "h") None init Hfree)
    as (_ & _ & _ & ?).
Defined.

Lemma timeout_pops_the_head_witness :
  waiting one_timed_waiter !! 0 = Some (Waiter x (Some "b") (Some 1))
  ∧ (0 ∉ flags one_timed_waiter)
  ∧ queue one_timed_waiter x = [0]
  ∧ ∃ st', step (Timeout 0) one_timed_waiter = Some (st', Return false)
           ∧ queue st' x = [].
Proof.
  assert (waiting one_timed_waiter !! 0 = Some (Waiter x (Some "b") (Some 1)))
    as Hw by (by vm_compute).
  assert (0 ∉ flags one_timed_waiter) as Hf.
  { replace (flags one_timed_waiter) with (∅ : gset nat) by (by vm_compute).
    apply not_elem_of_empty. }
  assert (queue one_timed_waiter (w_name (Waiter x (Some "b") (Some 1))) = [0])
    as Hq by (by vm_compute).
  destruct (timeout_pops_the_head 0 0 [] _ 1 one_timed_waiter Hw eq_refl Hf Hq)
    as (st' & Hstep & Hq' & _).
  split_and!; [done|done|done|]. exists st'. by split.
Defined.

Lemma release_hands_over_witness :
  ids one_waiter !! as_key x = Some (Some "h")
  ∧ queue one_waiter (as_key x) = [0]
  ∧ waiting one_waiter !! 0 = Some (Waiter x (Some "a") None)
  ∧ callbacks one_waiter = []
  ∧ ∃ st', run [CallRelease x (Some "h"); RunCallback; Wake 0] one_waiter
             = Some (st', [Returned; Returned; Return true])
           ∧ ids st' !! as_key x = Some (Some "a").
Proof.
  assert (ids one_waiter !! as_key x = Some (Some "h")) as H1 by (by vm_compute).
  assert (queue one_waiter (as_key x) = [0]) as H2 by (by vm_compute).
  assert (waiting one_waiter !! 0 = Some (Waiter x (Some "a") None)) as H3
    by (by vm_compute).
  assert (callbacks one_waiter = []) as H4 by (by vm_compute).
  destruct (release_hands_over x (Some "h") 0 [] _ one_waiter H1 H2 H3 eq_refl H4)
    as (st' & Hrun & Hid & _).
  split_and!; [done|done|done|done|]. exists st'. by split.
Defined.

Lemma newcomer_overtakes_witness :
  ids one_waiter !! as_key x = Some (Some "h")
  ∧ queue one_waiter (as_key x) = [0]
  ∧ waiting one_waiter !! 0 = Some (Waiter x (Some "a") None)
  ∧ callbacks one_waiter = []
  ∧ ∃ st', run [CallRelease x (Some "h"); CallAcquire x (Some "c") None;
                RunCallback; Wake 0] one_waiter
             = Some (st', [Returned; Return true; Returned; Suspended 1])
           ∧ ids st' !! as_key x = Some (Some "c")
           ∧ queue st' (as_key x) = [1].
Proof.
  assert (ids one_waiter !! as_key x = Some (Some "h")) as H1 by (by vm_compute).
  assert (queue one_waiter (as_key x) = [0]) as H2 by (by vm_compute).
  assert (waiting one_waiter !! 0 = Some (Waiter x (Some "a") None)) as H3
    by (by vm_compute).
  assert (callbacks one_waiter = []) as H4 by (by vm_compute).
  destruct (newcomer_overtakes x (Some "h") 0 [] _ one_waiter H1 H2 H3 eq_refl H4
              (Some "c") None) as (st' & Hrun & Hid & Hq & _).
  split_and!; [done|done|done|done|]. exists st'. by split_and!.
Defined.

End LockMore.

(** ** The handle against the scheduler *)

Module HandleMore.

Import LockExt LockHandle.

(** X8: [release] on a handle that is not marked held raises [ValueError]
    and asks the scheduler nothing: the outcome does not depend on what the
    scheduler would answer. *)
Theorem release_not_locked (sync : lock_name → ident → result unit)
    (self : Lock) :
  locked self = false → release sync self = (self, Raise ValueError).
Proof. intros Hl. unfold release. by rewrite Hl. Qed.

(** X9: on a scheduler where the name of a handle is free, [acquire] returns
    [True] for a blocking and for a non-blocking call, the scheduler records
    the id of the handle, and a [release] that follows returns, unmarks the
    handle and leaves the scheduler's holders as they were. *)
Theorem acquire_release_round_trip (st : sched) (self : Lock)
    (blocking : bool) (timeout : option nat) :
  ids st !! as_key (name self) = None →
  (blocking = false → timeout = None) →
  ∃ self1 t,
    acquire (serve_acquire st) blocking timeout self = Some (self1, Ok true)
    ∧ locked self1 = true
    ∧ let st1 := (LockExt.acquire (name self) (Some (id self)) t st).1 in
      ids st1 !! as_key (name self) = Some (Some (id self))
      ∧ ∃ self2, release (serve_release st1) self1 = (self2, Ok tt)
                 ∧ locked self2 = false
                 ∧ ids (LockExt.release (name self) (Some (id self)) st1).1
                     = ids st.
Proof.
  intros Hfree Hargs.
  exists {| name := name self; id := id self; _locked := true |}.
  exists (if blocking then timeout else Some 0).
  destruct (LockMore.acquire_release_free (name self) (Some (id self))
              (if blocking then timeout else Some 0) st Hfree)
    as (Hacq & Hheld & Hrel & Hids).
  assert (serve_acquire st (name self) (Some (id self))
            (if blocking then timeout else Some 0) = Some (Ok true)) as Hserve.
  { unfold serve_acquire.
    destruct (LockExt.acquire _ _ _ st) as [st1 r]. simpl in Hacq. by subst r. }
  split_and!.
  - unfold acquire. destruct blocking.
    + by rewrite Hserve.
    + rewrite (Hargs eq_refl). by rewrite Hserve.
  - done.
  - cbv zeta. split; [done|].
    exists {| name := name self; id := id self; _locked := false |}.
    split_and!; [|done|done].
    unfold release, serve_release. simpl. by rewrite Hrel.
Qed.

(** X10: a handle marked held whose id is not the holder the scheduler has
    for its name passes the check of [release], gets the scheduler's
    [ValueError], and stays marked held. *)
Theorem release_of_unheld_lock (st : sched) (self : Lock) :
  locked self = true →
  holder st (as_key (name self)) ≠ Some (id self) →
  release (serve_release st) self = (self, Raise ValueError).
Proof.
  intros Hl Hh. unfold release, serve_release. rewrite Hl.
  by rewrite LockFacts.release_not_holder.
Qed.

Local Open Scope string_scope.

Lemma release_not_locked_witness :
  locked lock = false
  ∧ release (serve_release held) lock = (lock, Raise ValueError).
Proof.
  assert (locked lock = false) as Hl by done.
  split; [done|]. exact (release_not_locked _ lock Hl).
Defined.

Lemma acquire_release_round_trip_witness :
  ids init !! as_key (name lock) = None
  ∧ acquire (serve_acquire init) false None lock
      = Some ({| name := x; id := "c"; _locked := true |}, Ok true).
Proof.
  assert (ids init !! as_key (name lock) = None) as Hfree by done.
  split; [done|].
  destruct (acquire_release_round_trip init lock false None Hfree (λ _, eq_refl))
    as (self1 & t & Hacq & _).
  rewrite Hacq. by vm_compute.
Defined.

Lemma release_of_unheld_lock_witness :
  let marked := {| name := x; id := "c"; _locked := true |} in
  locked marked = true
  ∧ holder held (as_key (name marked)) ≠ Some (id marked)
  ∧ release (serve_release held) marked = (marked, Raise ValueError).
Proof.
  intros marked.
  assert (locked marked = true) as Hl by done.
  assert (holder held (as_key (name marked)) ≠ Some (id marked)) as Hh
    by (by vm_compute).
  split_and!; [done|done|]. exact (release_of_unheld_lock held marked Hl Hh).
Defined.

End HandleMore.

(** ** The groups and the rounds of scatter_to_workers *)

Module ScatterMore.

Import Scatter.

Section rounds.

Context {A N : Type} `{EqDecision A} `{Countable N} {V : Type}.

Variable update_data : A → list (N * V) → result (gmap N nat).
Variable race : list A → nat.

(** The names of the triples are those of the items, in order. *)
Lemma assignment_names (nthreads : list (A * nat)) (data : list (N * V)) (c : nat) :
  workers nthreads ≠ [] →
  (λ t : A * N * V, t.1.2) <$> assignment nthreads data c = data.*1.
Proof.
  intros Hws. apply list_eq. intros i. rewrite !list_lookup_fmap.
  destruct (data !! i) as [[n v]|] eqn:Hi; simpl.
  - destruct (ScatterFacts.assignment_lookup nthreads data c i n v Hws Hi)
      as (a & _ & ->). done.
  - rewrite lookup_ge_None_2; [done|].
    rewrite ScatterFacts.assignment_length by done.
    by apply lookup_ge_None.
Qed.

(** A call that returns had data and workers. *)
Lemma scatter_Ok (nthreads : list (A * nat)) (data : list (N * V)) (w : world)
    names who nbytes :
  (scatter_to_workers update_data race nthreads data w).2 = Ok (names, who, nbytes) →
  workers nthreads ≠ [] ∧ data ≠ []
  ∧ names = data.*1
  ∧ who = placed (assignment nthreads data (_round_robin_counter w)).
Proof.
  intros Hr.
  assert (data ≠ []) as Hdata by (intros ->; done).
  assert (workers nthreads ≠ []) as Hws.
  { intros Hws. unfold scatter_to_workers in Hr. rewrite Hws in Hr.
    by destruct data. }
  rewrite (ScatterFacts.scatter_to_workers_unfold update_data race nthreads
             data w Hws Hdata) in Hr.
  simpl in Hr. destruct (All _ _); simpl in Hr; [|done].
  injection Hr as <- <- _. done.
Qed.

(** X16: in what a call returns, every name is placed once, on one worker:
    the one at position [(counter + i) mod len(workers)] for the [i]-th
    item. *)
Theorem scatter_places_each_name (nthreads : list (A * nat))
    (data : list (N * V)) (w : world) names who nbytes :
  NoDup data.*1 →
  (scatter_to_workers update_data race nthreads data w).2 = Ok (names, who, nbytes) →
  who.*1 = names
  ∧ ∀ i n v, data !! i = Some (n, v) →
      ∃ a, workers nthreads
             !! ((_round_robin_counter w + i) mod length (workers nthreads))
             = Some a
           ∧ who !! i = Some (n, [a]).
Proof.
  intros Hnd (Hws & _ & -> & ->)%scatter_Ok.
  set (L := assignment nthreads data (_round_robin_counter w)).
  assert (placed L = map (λ t, (t.1.2, [t.1.1])) L) as Hplaced.
  { unfold placed. rewrite ScatterFacts.groupby_distinct.
    - rewrite map_map. done.
    - unfold L. by rewrite assignment_names. }
  rewrite Hplaced. split.
  - change (map ?f ?l) with (f <$> l). rewrite <- list_fmap_compose.
    rewrite <- (assignment_names nthreads data (_round_robin_counter w) Hws).
    by apply list_fmap_ext.
  - intros i n v Hi.
    destruct (ScatterFacts.assignment_lookup nthreads data
                (_round_robin_counter w) i n v Hws Hi) as (a & Ha & HL).
    exists a. split; [done|].
    change (map (λ t : A * N * V, (t.1.2, [t.1.1])) L)
      with ((λ t : A * N * V, (t.1.2, [t.1.1])) <$> L).
    rewrite list_lookup_fmap. fold L in HL. by rewrite HL.
Qed.

(** X17: the batches sent are one per worker, and together they hold every
    triple of the assignment, each in the batch of its own worker. *)
Theorem per_worker_batches (L : list (A * N * V)) :
  NoDup (per_worker L).*1
  ∧ concat (map (λ p, map (λ nv, (p.1, nv.1, nv.2)) p.2) (per_worker L)) ≡ₚ L.
Proof.
  destruct (ScatterFacts.groupby_spec (λ t : A * N * V, t.1.1) L)
    as (Hnd & Hun & Hperm).
  unfold per_worker. split.
  - assert (∀ G : list (A * list (A * N * V)),
              (map (λ g, (g.1, map (λ t : A * N * V, (t.1.2, t.2)) g.2)) G).*1
                = G.*1) as ->; [|done].
    intros G. induction G as [|g G IH]; [done|]. cbn. by f_equal.
  - rewrite <- Hperm at 2. clear Hnd Hperm. rewrite map_map. simpl.
    induction Hun as [|[k g] d Hg _ IH]; [done|]. simpl.
    rewrite IH. apply Permutation_app_tail. rewrite map_map. simpl.
    simpl in Hg. clear -Hg.
    induction Hg as [|[[a n] v] g Ht _ IH]; [done|]. simpl in *. subst.
    by rewrite IH.
Qed.

Lemma rotation_lookup (ws : list A) (k i : nat) :
  k < length ws → i < length ws →
  (drop k ws ++ take k ws) !! i = ws !! ((k + i) mod length ws).
Proof.
  intros Hk Hi. destruct (decide (k + i < length ws)) as [Hlt|Hge].
  - rewrite lookup_app_l by (rewrite length_drop; lia).
    rewrite lookup_drop. by rewrite Nat.mod_small.
  - rewrite lookup_app_r by (rewrite length_drop; lia).
    rewrite length_drop. rewrite lookup_take_lt by lia.
    f_equal.
    replace (k + i) with ((i - (length ws - k)) + 1 * length ws) by lia.
    rewrite Nat.Div0.mod_add. rewrite Nat.mod_small; lia.
Qed.

(** The workers of one full round are the weighted sequence, begun at the
    offset. *)
Lemma full_round_workers (nthreads : list (A * nat)) (data : list (N * V)) (c : nat) :
  workers nthreads ≠ [] → length data = length (workers nthreads) →
  (λ t : A * N * V, t.1.1) <$> assignment nthreads data c
    = drop (c mod length (workers nthreads)) (workers nthreads)
      ++ take (c mod length (workers nthreads)) (workers nthreads).
Proof.
  intros Hws Hlen. set (ws := workers nthreads) in *.
  assert (0 < length ws) as Hpos by (destruct ws; [done|simpl; lia]).
  assert (c mod length ws < length ws) as Hk
    by (apply Nat.mod_upper_bound; lia).
  apply list_eq. intros i. rewrite list_lookup_fmap.
  destruct (data !! i) as [[n v]|] eqn:Hi.
  - destruct (ScatterFacts.assignment_lookup nthreads data c i n v Hws Hi)
      as (a & Ha & ->). simpl.
    apply lookup_lt_Some in Hi.
    rewrite rotation_lookup by lia.
    rewrite Nat.Div0.add_mod_idemp_l. by rewrite <- Ha.
  - apply lookup_ge_None in Hi.
    rewrite !lookup_ge_None_2; [done| |].
    + rewrite length_app, length_drop, length_take. lia.
    + rewrite ScatterFacts.assignment_length by done. lia.
Qed.

(** X18: when a call has as many items as the weighted sequence is long, the
    items go to the workers of the sequence, each position once, wherever the
    counter stands; so every worker gets as many items as it has threads. *)
Theorem full_round (nthreads : list (A * nat)) (data : list (N * V)) (c : nat) :
  workers nthreads ≠ [] → length data = length (workers nthreads) →
  (λ t : A * N * V, t.1.1) <$> assignment nthreads data c ≡ₚ workers nthreads
  ∧ ∀ a nc, NoDup nthreads.*1 → (a, nc) ∈ nthreads →
      length (filter (λ w, w = a)
                ((λ t : A * N * V, t.1.1) <$> assignment nthreads data c)) = nc.
Proof.
  intros Hws Hlen.
  assert ((λ t : A * N * V, t.1.1) <$> assignment nthreads data c
            ≡ₚ workers nthreads) as Hperm.
  { rewrite full_round_workers by done. rewrite Permutation_app_comm.
    by rewrite take_drop. }
  split; [done|]. intros a nc Hnd Hin. rewrite Hperm.
  by apply ScatterFacts.workers_count.
Qed.

End rounds.

Local Open Scope string_scope.

Lemma scatter_places_each_name_witness :
  let nthreads := [("A", 2); ("B", 1)] in
  let data := [("x", 10); ("y", 20)] in
  let update_data := λ (_ : string) (_ : list (string * nat)), Ok (∅ : gmap string nat) in
  let race := λ _ : list string, 0 in
  let w := {| _round_robin_counter := 2; trace := [] |} in
  NoDup data.*1
  ∧ (scatter_to_workers update_data race nthreads data w).2
      = Ok (["x"; "y"], [("x", ["B"]); ("y", ["A"])], ∅)
  ∧ [("x", ["B"]); ("y", ["A"])].*1 = ["x"; "y"].
Proof.
  intros nthreads data update_data race w.
  assert (NoDup data.*1) as Hnd.
  { simpl. apply NoDup_cons. split; [|apply NoDup_singleton].
    by intros ?%list_elem_of_singleton. }
  assert ((scatter_to_workers update_data race nthreads data w).2
            = Ok (["x"; "y"], [("x", ["B"]); ("y", ["A"])], ∅)) as Hr
    by (by vm_compute).
  split_and!; [done|done|].
  exact (proj1 (scatter_places_each_name update_data race nthreads data w
                  _ _ _ Hnd Hr)).
Defined.

Lemma full_round_witness :
  let nthreads := [("A", 2); ("B", 1)] in
  let data := [("x", 10); ("y", 20); ("z", 30)] in
  workers nthreads ≠ [] ∧ length data = length (workers nthreads)
  ∧ (λ t : string * string * nat, t.1.1) <$> assignment nthreads data 2
      ≡ₚ workers nthreads.
Proof.
  intros nthreads data.
  assert (workers nthreads ≠ []) as Hws by done.
  assert (length data = length (workers nthreads)) as Hlen by done.
  split_and!; [done|done|].
  exact (proj1 (full_round nthreads data 2 Hws Hlen)).
Defined.

End ScatterMore.

(** ** What unpack_remotedata finds and what pack_data leaves *)

Module PackingMore.

Import Packing PackingFacts.

Section collected.

Variable subgraph_hashable : bool.
Variable tokey : value → value.

Local Abbreviation hashable := (hashable subgraph_hashable).
Local Abbreviation wf := (wf subgraph_hashable).
Local Abbreviation unpack := (unpack subgraph_hashable tokey).
Local Abbreviation pack_data := (pack_data subgraph_hashable).
Local Abbreviation known := (known subgraph_hashable).
Local Abbreviation collects := (collects subgraph_hashable tokey).

Lemma add_elem (o : nat * value) (myset : list (nat * value)) (oid : nat) :
  oid ∈ (add o myset).*1 ↔ oid ∈ myset.*1 ∨ oid = o.1.
Proof.
  unfold add.
  destruct (existsb (λ r, WrappedKey_eq o.1 r.1) myset) eqn:Hex.
  - split; [by left|]. intros [?| ->]; [done|].
    apply existsb_exists in Hex as (r & Hr & Heq).
    apply bool_decide_eq_true in Heq. rewrite Heq.
    apply list_elem_of_fmap. exists r. split; [done|by apply list_elem_of_In].
  - rewrite fmap_app, elem_of_app. simpl. by rewrite list_elem_of_singleton.
Qed.

Lemma add_known (o : nat * value) (myset : list (nat * value)) :
  o.1 ∈ myset.*1 → add o myset = myset.
Proof.
  intros (r & Heq & Hr)%list_elem_of_fmap. unfold add.
  assert (existsb (λ r, WrappedKey_eq o.1 r.1) myset = true) as ->; [|done].
  apply existsb_exists. exists r. split; [by apply list_elem_of_In|].
  by apply bool_decide_eq_true.
Qed.

Lemma add_new (o : nat * value) (myset : list (nat * value)) :
  o.1 ∉ myset.*1 → add o myset = myset ++ [o].
Proof.
  intros Hnot. unfold add.
  destruct (existsb _ myset) eqn:Hex; [|done]. destruct Hnot.
  apply existsb_exists in Hex as (r & Hr & Heq).
  apply bool_decide_eq_true in Heq. rewrite Heq.
  apply list_elem_of_fmap. exists r. split; [done|by apply list_elem_of_In].
Qed.

Lemma update_app (myset rs rs' : list (nat * value)) :
  update myset (rs ++ rs') = update (update myset rs) rs'.
Proof. unfold update. apply foldl_app. Qed.

Lemma update_elem (myset rs : list (nat * value)) (oid : nat) :
  oid ∈ (update myset rs).*1 ↔ oid ∈ myset.*1 ∨ oid ∈ rs.*1.
Proof.
  revert myset. induction rs as [|r rs IH]; intros myset.
  - split; [by left|]. intros [?|Hin]; [done|]. by apply not_elem_of_nil in Hin.
  - change (update myset (r :: rs)) with (update (add r myset) rs).
    rewrite IH, add_elem, fmap_cons, elem_of_cons. tauto.
Qed.

Lemma update_NoDup (myset rs : list (nat * value)) :
  NoDup myset.*1 → NoDup (update myset rs).*1.
Proof.
  revert myset. induction rs as [|r rs IH]; intros myset Hnd; [done|].
  change (update myset (r :: rs)) with (update (add r myset) rs).
  apply IH. destruct (decide (r.1 ∈ myset.*1)) as [Hin|Hin].
  - by rewrite add_known.
  - rewrite add_new, fmap_app by done. apply NoDup_app.
    split_and!; [done| |apply NoDup_singleton].
    intros oid Hoid ->%list_elem_of_singleton. done.
Qed.

Lemma update_sub (myset rs : list (nat * value)) (r : nat * value) :
  r ∈ update myset rs → r ∈ myset ∨ r ∈ rs.
Proof.
  revert myset. induction rs as [|r' rs IH]; intros myset; [by left|].
  change (update myset (r' :: rs)) with (update (add r' myset) rs).
  intros [Hin|Hin]%IH; [|right; by right].
  unfold add in Hin. destruct (existsb _ myset); [by left|].
  apply elem_of_app in Hin as [?|Hin]; [by left|].
  apply list_elem_of_singleton in Hin as ->. right. left.
Qed.

(** Adding what was found from scratch is adding what was come across. *)
Lemma update_update (myset rs : list (nat * value)) :
  update myset (update [] rs) = update myset rs.
Proof.
  induction rs as [|r rs IH] using rev_ind; [done|].
  rewrite !update_app.
  change (update (update [] rs) [r]) with (add r (update [] rs)).
  change (update (update myset rs) [r]) with (add r (update myset rs)).
  destruct (decide (r.1 ∈ (update [] rs).*1)) as [Hin|Hin].
  - rewrite add_known by done. rewrite IH. rewrite add_known; [done|].
    apply update_elem. right. apply update_elem in Hin as [Hin|Hin]; [|done].
    by apply not_elem_of_nil in Hin.
  - rewrite add_new by done. rewrite update_app, IH. done.
Qed.

Lemma each_collects byte_keys (items : list value) (frames : nat) :
  Forall (collects byte_keys) items →
  ∀ myset vs myset',
    each (λ i s, unpack byte_keys i s frames) items myset = Ok (vs, myset') →
    myset' = update myset (flat_map refs_of items).
Proof.
  induction 1 as [|x items Hx _ IH]; intros myset vs myset' Heach; simpl in *.
  - by injection Heach as _ <-.
  - apply bind_Ok in Heach as ([v s1] & Hv & Heach).
    apply bind_Ok in Heach as ([vs' s2] & Hvs & Heach).
    injection Heach as _ <-. simpl in *.
    rewrite update_app. rewrite <- (Hx _ _ _ _ Hv). by eapply IH.
Qed.

Lemma each_value_collects byte_keys (items : list (value * value))
    (frames : nat) :
  Forall (λ kv, collects byte_keys kv.2) items →
  ∀ myset vs myset',
    each_value (λ v s, unpack byte_keys v s frames) items myset
      = Ok (vs, myset') →
    myset' = update myset (flat_map (λ kv, refs_of kv.2) items).
Proof.
  induction 1 as [|[k x] items Hx _ IH]; intros myset vs myset' Heach;
    simpl in *.
  - by injection Heach as _ <-.
  - apply bind_Ok in Heach as ([v s1] & Hv & Heach).
    apply bind_Ok in Heach as ([vs' s2] & Hvs & Heach).
    injection Heach as _ <-. simpl in *.
    rewrite update_app. rewrite <- (Hx _ _ _ _ Hv). by eapply IH.
Qed.

Lemma refs_of_Tuple (x : value) (items : list value) :
  (∀ dsk outkey inkeys name, x ≠ Subgraph dsk outkey inkeys name) →
  refs_of (Tuple (x :: items)) = flat_map refs_of (x :: items).
Proof.
  intros Hx. destruct x as [| | | | | | |dsk outkey inkeys name]; try done.
  by destruct (Hx dsk outkey inkeys name).
Qed.

Lemma unpack_collects_all byte_keys (o : value) :
  collects byte_keys o
  ∧ match o with
    | Subgraph dsk _ _ _ => Forall (λ kv, collects byte_keys kv.2) dsk
    | _ => True
    end.
Proof.
  induction o as [a|items IH|items IH|items IH|items IH|items IH|oid key IH
                  |dsk outkey inkeys name IHd IHo IHi] using value_ind.
  - split; [|done]. intros myset [|frames] v myset' Hun; [done|].
    by injection Hun as _ <-.
  - split; [|done]. intros myset [|frames] v myset' Hun; [done|].
    destruct items as [|x items]; [by injection Hun as _ <-|].
    assert (Forall (collects byte_keys) (x :: items)) as IH'
      by (eapply Forall_impl; [exact IH|by intros ? [? _]]).
    assert ((∃ dsk outkey inkeys name, x = Subgraph dsk outkey inkeys name)
            ∨ (∀ dsk outkey inkeys name, x ≠ Subgraph dsk outkey inkeys name))
      as [(dsk & outkey & inkeys & name & ->)|Hx]
      by (destruct x; first [by right|left; by eauto 6]).
    + inversion IH as [|? ? [_ Hdsk] _]; subst. inversion IH'; subst.
      cbn [Packing.unpack frame] in Hun.
      apply bind_Ok in Hun as ([dsk' s1] & Hdsk' & Hun).
      apply frame_Ok in Hdsk' as (f1 & -> & Hdsk').
      apply bind_Ok in Hun as ([args s2] & Hargs & Hun).
      cbn [frame] in Hargs.
      apply (each_value_collects byte_keys dsk f1 Hdsk) in Hdsk'.
      apply (each_collects byte_keys items f1) in Hargs; [|done].
      simpl in *. subst s1.
      rewrite <- update_app in Hargs.
      change (refs_of (Tuple (Subgraph dsk outkey inkeys name :: items)))
        with (flat_map (λ kv, refs_of kv.2) dsk ++ flat_map refs_of items).
      rewrite <- (update_update myset). rewrite <- Hargs.
      destruct s2 as [|r s2]; [by injection Hun as _ <-|].
      apply bind_Ok in Hun as (futures & _ & Hun).
      apply bind_Ok in Hun as (inkeys' & _ & Hun).
      by injection Hun as _ <-.
    + rewrite unpack_Tuple in Hun by done. rewrite refs_of_Tuple by done.
      apply bind_Ok in Hun as ([vs s1] & Hvs & Hun). injection Hun as _ <-.
      apply frame_Ok in Hvs as (f1 & -> & Hvs).
      by eapply each_collects.
  - split; [|done]. intros myset [|frames] v myset' Hun; [done|].
    assert (Forall (collects byte_keys) items) as IH'
      by (eapply Forall_impl; [exact IH|by intros ? [? _]]).
    destruct items as [|x items]; [by injection Hun as _ <-|].
    cbn [Packing.unpack frame] in Hun.
    apply bind_Ok in Hun as ([vs s1] & Hvs & Hun). injection Hun as _ <-.
    apply frame_Ok in Hvs as (f1 & -> & Hvs).
    by eapply each_collects.
  - split; [|done]. intros myset [|frames] v myset' Hun; [done|].
    assert (Forall (collects byte_keys) items) as IH'
      by (eapply Forall_impl; [exact IH|by intros ? [? _]]).
    destruct items as [|x items]; [by injection Hun as _ <-|].
    cbn [Packing.unpack frame] in Hun.
    apply bind_Ok in Hun as ([vs s1] & Hvs & Hun).
    apply bind_Ok in Hun as (els & _ & Hun). injection Hun as _ <-.
    apply frame_Ok in Hvs as (f1 & -> & Hvs).
    by eapply each_collects.
  - split; [|done]. intros myset [|frames] v myset' Hun; [done|].
    assert (Forall (collects byte_keys) items) as IH'
      by (eapply Forall_impl; [exact IH|by intros ? [? _]]).
    destruct items as [|x items]; [by injection Hun as _ <-|].
    cbn [Packing.unpack frame] in Hun.
    apply bind_Ok in Hun as ([vs s1] & Hvs & Hun).
    apply bind_Ok in Hun as (els & _ & Hun). injection Hun as _ <-.
    apply frame_Ok in Hvs as (f1 & -> & Hvs).
    by eapply each_collects.
  - split; [|done]. intros myset [|frames] v myset' Hun; [done|].
    assert (Forall (λ kv, collects byte_keys kv.2) items) as IH'
      by (eapply Forall_impl; [exact IH|by intros ? [_ [? _]]]).
    destruct items as [|x items]; [by injection Hun as _ <-|].
    cbn [Packing.unpack frame] in Hun.
    apply bind_Ok in Hun as ([vs s1] & Hvs & Hun). injection Hun as _ <-.
    apply frame_Ok in Hvs as (f1 & -> & Hvs).
    by eapply each_value_collects.
  - split; [|done]. intros myset [|frames] v myset' Hun; [done|].
    cbn [Packing.unpack frame] in Hun.
    apply bind_Ok in Hun as (k & _ & Hun). by injection Hun as _ <-.
  - split; [by intros myset [|frames] v myset' [= _ <-]|].
    eapply Forall_impl; [exact IHd|by intros ? [_ [? _]]].
Qed.

(** X19: the set that [unpack_remotedata] returns holds each object once,
    holds only references that occur in the value, among the elements of its
    collections, the values of its dictionaries and the graphs of the
    [SubgraphCallable]s that begin its tuples, and misses none of them, at
    whatever depth. *)
Theorem unpack_remotedata_collects (o : value) (byte_keys : bool)
    (frames : nat) (v : value) (refs : list (nat * value)) :
  unpack_remotedata subgraph_hashable tokey o byte_keys frames = Ok (v, refs) →
  NoDup refs.*1
  ∧ (∀ r, r ∈ refs → r ∈ refs_of o)
  ∧ (∀ oid, oid ∈ refs.*1 ↔ oid ∈ (refs_of o).*1).
Proof.
  intros Hun. apply frame_Ok in Hun as (f1 & -> & Hun).
  apply (proj1 (unpack_collects_all byte_keys o)) in Hun.
  subst refs. split_and!.
  - apply update_NoDup. constructor.
  - intros r [Hr|Hr]%update_sub; [by apply not_elem_of_nil in Hr|done].
  - intros oid. rewrite update_elem. split; [|by right].
    intros [Hin|Hin]; [by apply not_elem_of_nil in Hin|done].
Qed.

Lemma Forall_flat_map {X Y : Type} (P : Y → Prop) (f : X → list Y) (l : list X) :
  Forall P (flat_map f l) ↔ Forall (λ x, Forall P (f x)) l.
Proof.
  induction l as [|x l IH]; simpl.
  - split; constructor.
  - rewrite Forall_app, Forall_cons, IH. done.
Qed.

(** X20: [pack_data] returns as it is a well-formed value none of whose
    parts is known to the mapping: not the value itself, not an element of
    its collections, not a value of its dictionaries, at whatever depth that
    the frames allow. *)
Theorem pack_data_nothing_known (key_types : value → bool)
    (d : list (value * value)) (o : value) :
  wf o = true →
  Forall (λ x, known key_types d x = None) (parts o) →
  ∀ frames, 2 * depth o + 1 ≤ frames →
    pack_data key_types o d frames = Ok o.
Proof.
  induction o as [a|items IH|items IH|items IH|items IH|items IH|oid key IH
                  |dsk outkey inkeys name IHd IHo IHi] using value_ind;
    intros Hwf Hparts frames Hfr;
    (destruct frames as [|frames]; [lia|]);
    cbn [Packing.pack_data frame];
    apply Forall_cons in Hparts as [-> Hparts]; try done;
    (destruct frames as [|frames];
       [match type of Hfr with
        | 2 * depth ?o + 1 ≤ _ =>
            pose proof (depth_collection o) as Hc; cbv beta iota in Hc; lia
        end|]);
    cbn [frame]; simpl in Hwf; apply Forall_flat_map in Hparts.
  - rewrite list_of_same; [done|].
    apply forallb_Forall in Hwf. apply Forall_forall. intros x Hx.
    apply (proj1 (Forall_forall _ _) IH x Hx).
    + by apply (proj1 (Forall_forall _ _) Hwf x Hx).
    + by apply (proj1 (Forall_forall _ _) Hparts x Hx).
    + apply depth_Tuple in Hx. lia.
  - rewrite list_of_same; [done|].
    apply forallb_Forall in Hwf. apply Forall_forall. intros x Hx.
    apply (proj1 (Forall_forall _ _) IH x Hx).
    + by apply (proj1 (Forall_forall _ _) Hwf x Hx).
    + by apply (proj1 (Forall_forall _ _) Hparts x Hx).
    + apply depth_List in Hx. lia.
  - apply andb_true_iff in Hwf as [[Hwf Hh]%andb_true_iff Hnew].
    rewrite list_of_same; [simpl; by rewrite elements_of_set|].
    apply forallb_Forall in Hwf. apply Forall_forall. intros x Hx.
    apply (proj1 (Forall_forall _ _) IH x Hx).
    + by apply (proj1 (Forall_forall _ _) Hwf x Hx).
    + by apply (proj1 (Forall_forall _ _) Hparts x Hx).
    + apply depth_PySet in Hx. lia.
  - apply andb_true_iff in Hwf as [[Hwf Hh]%andb_true_iff Hnew].
    rewrite list_of_same; [simpl; by rewrite elements_of_set|].
    apply forallb_Forall in Hwf. apply Forall_forall. intros x Hx.
    apply (proj1 (Forall_forall _ _) IH x Hx).
    + by apply (proj1 (Forall_forall _ _) Hwf x Hx).
    + by apply (proj1 (Forall_forall _ _) Hparts x Hx).
    + apply depth_Frozenset in Hx. lia.
  - apply andb_true_iff in Hwf as [[Hwf Hh]%andb_true_iff Hnew].
    rewrite dict_of_same; [done|].
    apply forallb_wf_values in Hwf. apply Forall_forall. intros kv Hkv.
    apply (proj1 (Forall_forall _ _) IH kv Hkv).
    + by apply (proj1 (Forall_forall _ _) Hwf kv Hkv).
    + by apply (proj1 (Forall_forall _ _) Hparts kv Hkv).
    + apply depth_Dict in Hkv. lia.
Qed.

Lemma dict_of_keys (f : value → result value) (items outs : list (value * value)) :
  dict_of f items = Ok outs →
  outs.*1 = items.*1 ∧ Forall2 (λ kv kv', f kv.2 = Ok kv'.2) items outs.
Proof.
  revert outs. induction items as [|[k x] items IH]; intros outs Hd;
    simpl in Hd.
  - injection Hd as <-. split; [done|constructor].
  - apply bind_Ok in Hd as (y & Hy & Hd).
    apply bind_Ok in Hd as (ys & Hys & Hd). injection Hd as <-.
    destruct (IH ys Hys) as [Hk Hv]. split.
    + rewrite !fmap_cons. by rewrite Hk.
    + by constructor.
Qed.

(** X21: [pack_data] never replaces a dictionary as a whole, whatever the
    mapping holds, and never a key of a dictionary, which it keeps in place
    even when the mapping knows it: it returns the dictionary with the same
    keys in the same order and what it makes of each value. *)
Theorem pack_data_keeps_keys (key_types : value → bool)
    (d items : list (value * value)) (v : value) (frames : nat) :
  pack_data key_types (Dict items) d frames = Ok v →
  ∃ outs frames', v = Dict outs ∧ frames = S (S frames')
    ∧ outs.*1 = items.*1
    ∧ Forall2 (λ kv kv', pack_data key_types kv.2 d frames' = Ok kv'.2)
        items outs.
Proof.
  intros Hp. destruct frames as [|frames]; [done|].
  cbn [Packing.pack_data frame] in Hp.
  replace (known key_types d (Dict items)) with (@None value) in Hp
    by (unfold Packing.known; by destruct (key_types _)).
  apply bind_Ok in Hp as (outs & Houts & Hp). injection Hp as <-.
  apply frame_Ok in Houts as (f1 & -> & Houts).
  exists outs, f1. split; [done|]. split; [done|].
  exact (dict_of_keys (λ x, pack_data key_types x d f1) items outs Houts).
Qed.

End collected.

Local Open Scope string_scope.

(** [[a, (a, b)]] for two references [a] and [b]. *)
Lemma unpack_remotedata_collects_witness :
  let a := Ref 0 (Scalar (AStr "a")) in
  let b := Ref 1 (Scalar (AStr "b")) in
  let o := List [a; Tuple [a; b]] in
  ∃ v refs, unpack_remotedata true id o false 10 = Ok (v, refs)
    ∧ NoDup refs.*1 ∧ (∀ oid, oid ∈ refs.*1 ↔ oid ∈ (refs_of o).*1).
Proof.
  intros a b o.
  exists (List [Scalar (AStr "a"); Tuple [Scalar (AStr "a"); Scalar (AStr "b")]]),
    [(0, Scalar (AStr "a")); (1, Scalar (AStr "b"))].
  assert (unpack_remotedata true id o false 10
          = Ok (List [Scalar (AStr "a");
                      Tuple [Scalar (AStr "a"); Scalar (AStr "b")]],
                [(0, Scalar (AStr "a")); (1, Scalar (AStr "b"))])) as Hun
    by done.
  destruct (unpack_remotedata_collects true id o false 10 _ _ Hun)
    as (Hnd & _ & Hall).
  by split_and!.
Defined.

(** [['y', {'x': 'z'}]] with ['x'] known. *)
Lemma pack_data_nothing_known_witness :
  let o := List [Scalar (AStr "y");
                 Dict [(Scalar (AStr "x"), Scalar (AStr "z"))]] in
  let d := [(Scalar (AStr "x"), Scalar (AInt 1))] in
  wf true o = true
  ∧ Forall (λ x, known true object d x = None) (parts o)
  ∧ (2 * depth o + 1 ≤ 10)%nat
  ∧ pack_data true object o d 10 = Ok o.
Proof.
  intros o d.
  assert (wf true o = true) as Hwf by done.
  assert (Forall (λ x, known true object d x = None) (parts o)) as Hparts
    by (by repeat constructor).
  assert (2 * depth o + 1 ≤ 10)%nat as Hfr by (vm_compute; lia).
  split_and!; [done..|].
  exact (pack_data_nothing_known true object d o Hwf Hparts 10 Hfr).
Defined.

(** [{'x': 'x'}] with ['x'] known. *)
Lemma pack_data_keeps_keys_witness :
  let items := [(Scalar (AStr "x"), Scalar (AStr "x"))] in
  let d := [(Scalar (AStr "x"), Scalar (AInt 1))] in
  pack_data true object (Dict items) d 10
    = Ok (Dict [(Scalar (AStr "x"), Scalar (AInt 1))])
  ∧ ∃ outs, Dict [(Scalar (AStr "x"), Scalar (AInt 1))] = Dict outs
      ∧ outs.*1 = items.*1.
Proof.
  intros items d.
  assert (pack_data true object (Dict items) d 10
          = Ok (Dict [(Scalar (AStr "x"), Scalar (AInt 1))])) as Hp by done.
  split; [done|].
  destruct (pack_data_keeps_keys true object d items _ 10 Hp)
    as (outs & f & Hv & _ & Hk & _).
  by exists outs.
Defined.

End PackingMore.


